(** * Tiled SYCL matrix multiply (sycl-spec-const/matmul.cpp)

    A shallow embedding of the host glue and of the work-group kernel of
    [matmul.cpp], together with the properties its specification states.

    - [std::size_t] is a 64-bit unsigned integer: values are [Z] in
      [0, 2^64) and every operation wraps ([SizeT.wrap]).
    - [float] arithmetic is an interface ([FloatOps]): the kernel is
      parametric in a carrier with a zero, an addition, a multiplication,
      a subtraction, an absolute value and comparisons.  Two instances are
      given, exact integers and IEEE-754 binary32 (the Standard Library's
      [spec_float] at precision 24).  Laws of exact arithmetic appear as
      explicit premises where a statement needs them.
    - USM buffers are lists, read with [!!] and written with [<[_:=_]>];
      an access outside the buffer is undefined behaviour, modelled by
      [None].
    - Work-group local memory is a finite map from 2-D local coordinates
      to values; a slot that was never written is absent and reading it
      is an error.
    - A work-item is a list of instructions; a work-group runs its items
      round by round, a round being the code between two barriers, in an
      order chosen by a [schedule].  Within a round the items write
      disjoint slots and read only what earlier rounds wrote, so running
      them one after the other loses no interleaving.  Work-groups share
      nothing but global memory and run one after the other, in the order
      of the schedule.
    - The barriers themselves are modelled a second time, as
      synchronisation points ([sync_group]): every item has its own code
      and runs up to its next barrier, the barrier opens when all items
      of the group wait at it, and a group in which one item has left
      while another waits has no defined result.  The two runs are proved
      to agree. *)

From Stdlib Require Import ZArith Lia Bool List.
From Stdlib Require Import Floats.SpecFloat.
From stdpp Require Import base option list list_numbers gmap.

Local Open Scope Z_scope.

(** * Part I: the program *)

(** ** [std::size_t] arithmetic *)

Module SizeT.

Definition modulus : Z := 2 ^ 64.

Definition wrap (z : Z) : Z := z mod modulus.

Definition add (a b : Z) : Z := wrap (a + b).
Definition sub (a b : Z) : Z := wrap (a - b).
Definition mul (a b : Z) : Z := wrap (a * b).
(* Unsigned division and remainder never leave the range; a zero divisor
   is undefined behaviour and is excluded by the callers. *)
Definition div (a b : Z) : Z := a / b.
Definition rem (a b : Z) : Z := a mod b.

Definition in_range (z : Z) : Prop := 0 <= z < modulus.

End SizeT.

(** ** Scalars *)

Class FloatOps (F : Type) := {
  fzero : F;                      (* 0.0f *)
  fadd : F -> F -> F;             (* a + b *)
  fmul : F -> F -> F;             (* a * b *)
  fsub : F -> F -> F;             (* a - b *)
  fabs : F -> F;                  (* std::fabs *)
  fgt : F -> F -> bool;           (* a > b *)
  fle : F -> F -> bool;           (* a <= b *)
  of_size : Z -> F                (* static_cast<float>(std::size_t) *)
}.

(** Exact arithmetic. *)
#[export] Instance Z_ops : FloatOps Z := {|
  fzero := 0; fadd := Z.add; fmul := Z.mul; fsub := Z.sub; fabs := Z.abs;
  fgt := Z.gtb; fle := Z.leb; of_size := fun z => z |}.

(** IEEE-754 binary32, round to nearest even.  Every operation rounds on
    its own: [a * b] and then [acc + _].  A compiler may instead contract
    [acc += a * b] into one fused multiply-add, on the device and on the
    host independently; this instance is used only for facts that do not
    depend on that choice (special values, small integers whose products
    and sums are exact, the cast of the initial values). *)
Module Binary32.
Definition prec : Z := 24.
Definition emax : Z := 128.
Definition nan : spec_float := S754_nan.
Definition pzero : spec_float := S754_zero false.
Definition one : spec_float := S754_finite false 8388608 (-23).
(* 1e-4f, the default tolerance of verify_reference (0x38D1B717). *)
Definition tol_default : spec_float := S754_finite false 13743895 (-37).
Definition gt (x y : spec_float) : bool := SFltb y x.
Definition of_Z (z : Z) : spec_float := binary_normalize prec emax z 0 false.
End Binary32.

#[export] Instance binary32_ops : FloatOps spec_float := {|
  fzero := Binary32.pzero;
  fadd := SFadd Binary32.prec Binary32.emax;
  fmul := SFmul Binary32.prec Binary32.emax;
  fsub := SFsub Binary32.prec Binary32.emax;
  fabs := SFabs;
  fgt := Binary32.gt;
  fle := SFleb;
  of_size := Binary32.of_Z |}.

(** ** Control: a fold that stops at the first fault *)

Fixpoint foldM {S X : Type} (f : S -> X -> option S) (s : S) (l : list X)
  : option S :=
  match l with
  | [] => Some s
  | x :: l' => match f s x with Some s' => foldM f s' l' | None => None end
  end.

(** ** Grid derivation (lines 10-13 and 75-77) *)

(* static inline std::size_t round_up(std::size_t x, std::size_t tile)
     { return (x + tile - 1) / tile * tile; } *)
Definition round_up (x tile : Z) : Z :=
  SizeT.mul (SizeT.div (SizeT.sub (SizeT.add x tile) 1) tile) tile.

(* const std::size_t phases = (N + TILE - 1) / TILE; *)
Definition phases_of (N TILE : Z) : Z :=
  SizeT.div (SizeT.sub (SizeT.add N TILE) 1) TILE.

(** The mathematical ceiling of [a / b], over unbounded integers. *)
Definition ceil_div (a b : Z) : Z := (a + b - 1) / b.

(** ** Work-items and the instructions of the kernel lambda *)

(* sycl::nd_item<2>: get_group(0), get_group(1), get_local_id(0),
   get_local_id(1). *)
Record item := Item { group0 : Z; group1 : Z; local0 : Z; local1 : Z }.

Definition item_group (it : item) : Z * Z := (group0 it, group1 it).
Definition item_local (it : item) : Z * Z := (local0 it, local1 it).

(* The body of the lambda between two consecutive barriers is one
   instruction: the staged load of phase [p] (lines 95-99), the reduction
   over the tile (lines 103-105) and the guarded store (lines 110-112). *)
Inductive instr :=
  | ILoad (p : Z)
  | IBarrier
  | ICompute
  | IStore.

(* for (p = 0; p < phases; ++p) { load; barrier; compute; barrier } *)
Definition phase_body (p : Z) : list instr :=
  [ILoad p; IBarrier; ICompute; IBarrier].

(* The instruction stream of one work-item.  The loop bound [phases] is
   captured by value and the barriers sit directly in the loop body, so the
   stream does not consult [it]. *)
Definition item_body (phases : Z) (it : item) : list instr :=
  flat_map phase_body (seqZ 0 phases) ++ [IStore].

(* The rounds of one loop iteration. *)
Definition phase_rounds (p : Z) : list (list instr) := [[ILoad p]; [ICompute]].

(* The code of a work-item cut at its barriers. *)
Fixpoint segments (prog : list instr) : list (list instr) :=
  match prog with
  | [] => [[]]
  | IBarrier :: rest => [] :: segments rest
  | i :: rest =>
      match segments rest with
      | s :: ss => (i :: s) :: ss
      | [] => [[i]]
      end
  end.

Definition is_barrier (i : instr) : bool :=
  match i with IBarrier => true | _ => false end.

Definition is_load (i : instr) : bool :=
  match i with ILoad _ => true | _ => false end.

(* Number of barriers, and of loop iterations, a work-item goes through. *)
Definition barrier_count (prog : list instr) : nat :=
  length (List.filter is_barrier prog).

Definition iteration_count (prog : list instr) : nat :=
  length (List.filter is_load prog).

(* A work-item in flight: the code it has still to run and the
   instructions it has executed so far, barriers included. *)
Record thread := Thread { th_code : list instr; th_done : list instr }.

(* The item has left the lambda. *)
Definition finished (th : thread) : bool :=
  match th_code th with [] => true | _ => false end.

(* The item stands before it.barrier(...). *)
Definition waiting (th : thread) : bool :=
  match th_code th with IBarrier :: _ => true | _ => false end.

(* The barrier opens: the item goes on with the code behind it. *)
Definition pass_barrier (th : thread) : thread :=
  match th_code th with
  | IBarrier :: rest => Thread rest (th_done th ++ [IBarrier])
  | _ => th
  end.

Section Kernel.
Context {F : Type} `{FloatOps F}.

(** ** Memory *)

(* The three USM allocations of main. *)
Record mem := Mem { memA : list F; memB : list F; memC : list F }.

(* b[i] and b[i] = v through a raw pointer: defined inside the allocation
   only. *)
Definition rd (b : list F) (i : Z) : option F :=
  if decide (0 <= i) then b !! Z.to_nat i else None.

Definition wr (b : list F) (i : Z) (v : F) : option (list F) :=
  if decide (0 <= i < Z.of_nat (length b)) then Some (<[Z.to_nat i := v]> b)
  else None.

(* sycl::local_accessor<float, 2> tile({TILE, TILE}, h) *)
Definition tile_in (T y x : Z) : bool :=
  (0 <=? y) && (y <? T) && (0 <=? x) && (x <? T).

Definition tile_rd (T : Z) (t : gmap (Z * Z) F) (y x : Z) : option F :=
  if tile_in T y x then t !! (y, x) else None.

Definition tile_wr (T : Z) (t : gmap (Z * Z) F) (y x : Z) (v : F)
  : option (gmap (Z * Z) F) :=
  if tile_in T y x then Some (<[(y, x) := v]> t) else None.

(* What a work-group sees: its two scratch tiles, the private accumulator
   of each of its items (keyed by local id) and global memory. *)
Record kstate := KState {
  tileA : gmap (Z * Z) F;
  tileB : gmap (Z * Z) F;
  accs : gmap (Z * Z) F;
  glob : mem
}.

(** ** The kernel lambda (lines 86-113) *)

Section Lambda.
Variables N TILE : Z.

(* const std::size_t gy = it.get_group(0) * TILE + ly; *)
Definition gy (it : item) : Z :=
  SizeT.add (SizeT.mul (group0 it) TILE) (local0 it).
(* const std::size_t gx = it.get_group(1) * TILE + lx; *)
Definition gx (it : item) : Z :=
  SizeT.add (SizeT.mul (group1 it) TILE) (local1 it).
(* const std::size_t a_col = p * TILE + lx; *)
Definition a_col (it : item) (p : Z) : Z :=
  SizeT.add (SizeT.mul p TILE) (local1 it).
(* const std::size_t b_row = p * TILE + ly; *)
Definition b_row (it : item) (p : Z) : Z :=
  SizeT.add (SizeT.mul p TILE) (local0 it).

(* (gy < N && a_col < N) ? A[gy * N + a_col] : 0.0f *)
Definition load_a (it : item) (p : Z) (A : list F) : option F :=
  if (gy it <? N) && (a_col it p <? N)
  then rd A (SizeT.add (SizeT.mul (gy it) N) (a_col it p))
  else Some fzero.

(* (b_row < N && gx < N) ? B[b_row * N + gx] : 0.0f *)
Definition load_b (it : item) (p : Z) (B : list F) : option F :=
  if (b_row it p <? N) && (gx it <? N)
  then rd B (SizeT.add (SizeT.mul (b_row it p) N) (gx it))
  else Some fzero.

(* acc += tileA[ly][k] * tileB[k][lx]; *)
Definition mac (it : item) (tA tB : gmap (Z * Z) F) (acc : F) (k : Z)
  : option F :=
  a ← tile_rd TILE tA (local0 it) k;
  b ← tile_rd TILE tB k (local1 it);
  Some (fadd acc (fmul a b)).

Definition exec_instr (it : item) (st : kstate) (i : instr) : option kstate :=
  match i with
  | ILoad p =>
      va ← load_a it p (memA (glob st));
      tA ← tile_wr TILE (tileA st) (local0 it) (local1 it) va;
      vb ← load_b it p (memB (glob st));
      tB ← tile_wr TILE (tileB st) (local0 it) (local1 it) vb;
      Some (KState tA tB (accs st) (glob st))
  | IBarrier => Some st
  | ICompute =>
      acc ← accs st !! item_local it;
      acc' ← foldM (mac it (tileA st) (tileB st)) acc (seqZ 0 TILE);
      Some (KState (tileA st) (tileB st) (<[item_local it := acc']> (accs st))
                   (glob st))
  | IStore =>
      acc ← accs st !! item_local it;
      if (gy it <? N) && (gx it <? N) then
        C' ← wr (memC (glob st)) (SizeT.add (SizeT.mul (gy it) N) (gx it)) acc;
        Some (KState (tileA st) (tileB st) (accs st)
                     (Mem (memA (glob st)) (memB (glob st)) C'))
      else Some st
  end.

(** ** Work-groups and barriers *)

Variable phases : Z.

(* Round [r] of a work-group: every item, in the order [order], runs the
   code between its [r]-th and [r+1]-th barrier.  An item that has already
   left the kernel while the group is at a barrier is undefined
   behaviour. *)
Definition run_item_round (r : nat) (st : kstate) (it : item) : option kstate :=
  seg ← segments (item_body phases it) !! r;
  foldM (exec_instr it) st seg.

Definition run_round (order : list item) (r : nat) (st : kstate)
  : option kstate :=
  foldM (run_item_round r) st order.

(* All items of a group must go through the same number of barriers. *)
Definition rounds_of (its : list item) : option nat :=
  match its with
  | [] => Some 0%nat
  | it :: rest =>
      let n := length (segments (item_body phases it)) in
      if forallb (fun it' =>
                    Nat.eqb (length (segments (item_body phases it'))) n) rest
      then Some n else None
  end.

(* float acc = 0.0f; (line 92) and the uninitialised scratch tiles. *)
Definition init_kstate (its : list item) (m : mem) : kstate :=
  KState ∅ ∅ (list_to_map (map (fun it => (item_local it, fzero)) its)) m.

Definition run_group (order : nat -> list item) (its : list item) (m : mem)
  : option mem :=
  n ← rounds_of its;
  st ← foldM (fun st r => run_round (order r) r st) (init_kstate its m)
             (seq 0 n);
  Some (glob st).

(** ** Barriers as synchronisation points (lines 101 and 107) *)

(* A work-item runs until it stands before its next barrier or has left
   the lambda; every instruction it executes is recorded. *)
Fixpoint run_to_barrier (it : item) (code done : list instr) (st : kstate)
  : option (thread * kstate) :=
  match code with
  | [] => Some (Thread [] done, st)
  | IBarrier :: _ => Some (Thread code done, st)
  | i :: rest =>
      st' ← exec_instr it st i;
      run_to_barrier it rest (done ++ [i]) st'
  end.

(* The threads of a work-group, keyed by local id, and what they share. *)
Definition sync_item (ps : gmap (Z * Z) thread * kstate) (it : item)
  : option (gmap (Z * Z) thread * kstate) :=
  th ← ps.1 !! item_local it;
  r ← run_to_barrier it (th_code th) (th_done th) ps.2;
  Some (<[item_local it := r.1]> ps.1, r.2).

(* it.barrier(sycl::access::fence_space::local_space): no item goes on
   before every item of the group stands at the barrier.  A round runs the
   items, in the order of the schedule, each up to its next barrier.  Then
   either all of them have left the lambda, or all of them wait and the
   barrier opens; an item that has left, or was not run, while another one
   waits is undefined behaviour. *)
Fixpoint sync_rounds (fuel : nat) (order : nat -> list item) (r : nat)
    (ps : gmap (Z * Z) thread * kstate)
  : option (gmap (Z * Z) thread * kstate) :=
  match fuel with
  | O => None
  | S fuel' =>
      ps' ← foldM sync_item ps (order r);
      if decide (map_Forall (fun _ th => finished th = true) ps'.1)
      then Some ps'
      else if decide (map_Forall (fun _ th => waiting th = true) ps'.1)
           then sync_rounds fuel' order (S r) (pass_barrier <$> ps'.1, ps'.2)
           else None
  end.

(* Every item enters the lambda with the code [code it] before it. *)
Definition init_threads (code : item -> list instr) (its : list item)
  : gmap (Z * Z) thread :=
  list_to_map (map (fun it => (item_local it, Thread (code it) [])) its).

(* Every round but the last ends at a barrier, and an item passes no more
   barriers than its code has instructions. *)
Definition sync_fuel (code : item -> list instr) (its : list item) : nat :=
  S (foldr (fun it n => Nat.max (length (code it)) n) 0%nat its).

Definition sync_group_of (code : item -> list instr) (order : nat -> list item)
    (its : list item) (m : mem) : option (gmap (Z * Z) thread * mem) :=
  ps ← sync_rounds (sync_fuel code its) order 0
                   (init_threads code its, init_kstate its m);
  Some (ps.1, glob ps.2).

(* A work-group of the kernel, with its barriers. *)
Definition sync_group (order : nat -> list item) (its : list item) (m : mem)
  : option (gmap (Z * Z) thread * mem) :=
  sync_group_of (item_body phases) order its m.

End Lambda.

(** ** The launch (lines 75-114) *)

(* The TILE x TILE work-items of one group. *)
Definition group_items (T : Z) (g : Z * Z) : list item :=
  y ← seqZ 0 T; x ← seqZ 0 T; [Item g.1 g.2 y x].

(* sycl::nd_range<2>{{G0, G1}, {TILE, TILE}} *)
Definition grid_groups (G0 G1 T : Z) : list (Z * Z) :=
  g0 ← seqZ 0 (G0 / T); g1 ← seqZ 0 (G1 / T); [(g0, g1)].

Definition grid_items (G0 G1 T : Z) : list item :=
  g ← grid_groups G0 G1 T; group_items T g.

(* The local range {TILE, TILE} of the nd_range and the two
   local_accessor<float, 2>({TILE, TILE}) of lines 81-85: a work-group has
   TILE * TILE items and each scratch tile TILE * TILE elements, counts of
   type std::size_t. *)
Definition local_range (T : Z) : Prop := 1 <= T /\ T * T < SizeT.modulus.

(* The order in which the runtime happens to run the groups and, in each
   round of each group, its items. *)
Record schedule := Schedule {
  group_order : list (Z * Z);
  item_order : Z * Z -> nat -> list item
}.

(* The launch runs the work-groups of the grid one after the other.  What
   the SYCL runtime does with a local range it cannot create (TILE * TILE
   beyond std::size_t, see [local_range]) is not part of matmul.cpp:
   statements about what a launch computes are made for tile widths with
   [local_range TILE]. *)
Definition multiply (s : schedule) (N TILE : Z) (m : mem) : option mem :=
  let G0 := round_up N TILE in
  let G1 := round_up N TILE in
  let phases := phases_of N TILE in
  if decide (0 < TILE) then
    foldM (fun m g =>
             run_group N TILE phases (item_order s g) (group_items TILE g) m)
          m (group_order s)
  else None.

(* The schedule that follows the enumeration order. *)
Definition row_major (N TILE : Z) : schedule :=
  Schedule (grid_groups (round_up N TILE) (round_up N TILE) TILE)
           (fun g _ => group_items TILE g).

(* A schedule runs every group once and, in every round, every item of the
   group once. *)
Definition valid_schedule (N TILE : Z) (s : schedule) : Prop :=
  group_order s ≡ₚ grid_groups (round_up N TILE) (round_up N TILE) TILE /\
  forall g r, item_order s g r ≡ₚ group_items TILE g.

(** ** Host initialisation (lines 66-72) *)

(* A[i * N + j] = static_cast<float>((i + j) % 7);
   B[i * N + j] = static_cast<float>((i - j) % 5); *)
Definition init_a (i j : Z) : F := of_size (SizeT.rem (SizeT.add i j) 7).
Definition init_b (i j : Z) : F := of_size (SizeT.rem (SizeT.sub i j) 5).

Definition init_cell (N i : Z) (ab : list F * list F) (j : Z)
  : option (list F * list F) :=
  A' ← wr ab.1 (SizeT.add (SizeT.mul i N) j) (init_a i j);
  B' ← wr ab.2 (SizeT.add (SizeT.mul i N) j) (init_b i j);
  Some (A', B').

Definition init_row (N : Z) (ab : list F * list F) (i : Z)
  : option (list F * list F) :=
  foldM (init_cell N i) ab (seqZ 0 N).

Definition init_matrices (N : Z) (A B : list F) : option (list F * list F) :=
  foldM (init_row N) (A, B) (seqZ 0 N).

(* What the loops leave in cell [n] of A and of B. *)
Definition init_val_a (N : Z) (n : nat) : F :=
  init_a (Z.of_nat n / N) (Z.of_nat n mod N).
Definition init_val_b (N : Z) (n : nat) : F :=
  init_b (Z.of_nat n / N) (Z.of_nat n mod N).

(** ** The CPU reference (lines 15-33) *)

(* One line written to std::cerr:
   "Mismatch at (i, j): C=<c> ref=<ref>". *)
Record mismatch := Mismatch { mm_i : Z; mm_j : Z; mm_c : F; mm_ref : F }.

(* ref += A[i * N + k] * B[k * N + j]; *)
Definition ref_step (A B : list F) (N i j : Z) (ref : F) (k : Z) : option F :=
  a ← rd A (SizeT.add (SizeT.mul i N) k);
  b ← rd B (SizeT.add (SizeT.mul k N) j);
  Some (fadd ref (fmul a b)).

Definition ref_sum (A B : list F) (N i j : Z) : option F :=
  foldM (ref_step A B N i j) fzero (seqZ 0 N).

(* The loop over j for a fixed i: [Some (Some m)] is the early
   [return false] after reporting [m], [Some None] the normal exit of the
   loop, [None] undefined behaviour. *)
Fixpoint verify_cols (A B C : list F) (N : Z) (tol : F) (i : Z) (js : list Z)
  : option (option mismatch) :=
  match js with
  | [] => Some None
  | j :: js' =>
      ref ← ref_sum A B N i j;
      c ← rd C (SizeT.add (SizeT.mul i N) j);
      if fgt (fabs (fsub c ref)) tol
      then Some (Some (Mismatch i j c ref))
      else verify_cols A B C N tol i js'
  end.

Fixpoint verify_rows (A B C : list F) (N : Z) (tol : F) (rows : list Z)
  : option (option mismatch) :=
  match rows with
  | [] => Some None
  | i :: rows' =>
      r ← verify_cols A B C N tol i (seqZ 0 N);
      match r with
      | Some m => Some (Some m)
      | None => verify_rows A B C N tol rows'
      end
  end.

(* The returned flag and what was written to std::cerr. *)
Definition verify_reference (A B C : list F) (N : Z) (tol : F)
  : option (bool * list mismatch) :=
  r ← verify_rows A B C N tol (seqZ 0 N);
  Some (match r with Some m => (false, [m]) | None => (true, []) end).

(** ** Reference values *)

(* Element (i, j) of a row-major N x N buffer. *)
Definition elt (M : list F) (N i j : Z) : F :=
  default fzero (M !! Z.to_nat (i * N + j)).

(* The sum of the triple loop, left to right from 0.0f. *)
Definition dot_ref (A B : list F) (N i j : Z) : F :=
  foldl (fun acc k => fadd acc (fmul (elt A N i k) (elt B N k j)))
        fzero (seqZ 0 N).

(* The product as the triple loop computes it, row-major. *)
Definition matmul_ref (A B : list F) (N : Z) : list F :=
  (fun n => dot_ref A B N (n / N) (n mod N)) <$> seqZ 0 (N * N).

(* The test of line 24, and the comparison the specification words it
   with: |C[i,j] - ref| > tol and |C[i,j] - ref| <= tol. *)
Definition exceeds (A B C : list F) (N : Z) (tol : F) (i j : Z) : bool :=
  fgt (fabs (fsub (elt C N i j) (dot_ref A B N i j))) tol.

Definition within (A B C : list F) (N : Z) (tol : F) (i j : Z) : bool :=
  fle (fabs (fsub (elt C N i j) (dot_ref A B N i j))) tol.

(* (i, j) comes before (i', j') in the order of the loops. *)
Definition before (i j i' j' : Z) : Prop := i < i' \/ (i = i' /\ j < j').

(* The zero-padded view of a matrix used by the staged loads. *)
Definition pad (M : list F) (N i j : Z) : F :=
  if (i <? N) && (j <? N) then elt M N i j else fzero.

(* The sum over [q] phases of tile width [T], phase-major and then
   k-major, over the zero-padded operands. *)
Definition dot_phases (A B : list F) (N T q i j : Z) : F :=
  foldl (fun acc p =>
           foldl (fun acc k =>
                    fadd acc (fmul (pad A N i (p * T + k))
                                   (pad B N (p * T + k) j)))
                 acc (seqZ 0 T))
        fzero (seqZ 0 q).

(* The accumulation order of the kernel: ceil(N / T) phases. *)
Definition dot_tiled (A B : list F) (N T i j : Z) : F :=
  dot_phases A B N T (ceil_div N T) i j.

(** ** Auxiliary notions used by the proofs *)

(* [it] is a work-item of group [g]. *)
Definition in_group (T : Z) (g : Z * Z) (it : item) : Prop :=
  item_group it = g /\ tile_in T (local0 it) (local1 it) = true.

(* What group [g] stages at slot [k] of its tiles during phase [p]. *)
Definition staged_a (N T : Z) (A : list F) (g : Z * Z) (p : Z) (k : Z * Z) : F :=
  pad A N (gy T (Item g.1 g.2 k.1 k.2)) (a_col T (Item g.1 g.2 k.1 k.2) p).

Definition staged_b (N T : Z) (B : list F) (g : Z * Z) (p : Z) (k : Z * Z) : F :=
  pad B N (b_row T (Item g.1 g.2 k.1 k.2) p) (gx T (Item g.1 g.2 k.1 k.2)).

(* The reduction of one phase, as seen by the item at local id [k]. *)
Definition mac_phase (N T : Z) (A B : list F) (g : Z * Z) (p : Z) (k : Z * Z)
    (acc : F) : F :=
  foldl (fun acc kk =>
           fadd acc (fmul (staged_a N T A g p (k.1, kk))
                          (staged_b N T B g p (kk, k.2))))
        acc (seqZ 0 T).

(* The accumulator of item [k] of group [g] after the phases [ps]. *)
Definition acc_after (N T : Z) (A B : list F) (g : Z * Z) (ps : list Z)
    (k : Z * Z) : F :=
  foldl (fun acc p => mac_phase N T A B g p k acc) fzero ps.

(* Rounds given as explicit code, numbered from [r]. *)
Fixpoint exec_rounds (N T : Z) (order : nat -> list item) (r : nat)
    (segs : list (list instr)) (st : kstate) : option kstate :=
  match segs with
  | [] => Some st
  | seg :: segs' =>
      st' ← foldM (fun st it => foldM (exec_instr N T it) st seg) st (order r);
      exec_rounds N T order (S r) segs' st'
  end.

(* The code of a work-item up to its next barrier, and from there on. *)
Fixpoint until_barrier (code : list instr) : list instr :=
  match code with
  | [] => []
  | IBarrier :: _ => []
  | i :: rest => i :: until_barrier rest
  end.

Fixpoint from_barrier (code : list instr) : list instr :=
  match code with
  | [] => []
  | IBarrier :: _ => code
  | _ :: rest => from_barrier rest
  end.

(* Rounds put back together, with a barrier between two of them. *)
Fixpoint join (segs : list (list instr)) : list instr :=
  match segs with
  | [] => []
  | seg :: rest =>
      match rest with
      | [] => seg
      | _ :: _ => seg ++ IBarrier :: join rest
      end
  end.

(* All items of [its] in the same state [th]. *)
Definition uniform_pool (its : list item) (th : thread) : gmap (Z * Z) thread :=
  list_to_map (map (fun it => (item_local it, th)) its).

(* The row-major index written by an item that passes the store guard. *)
Definition store_index (N T : Z) (it : item) : nat :=
  Z.to_nat (gy T it * N + gx T it).

Definition store_guard (N T : Z) (it : item) : bool :=
  (gy T it <? N) && (gx T it <? N).

(* What the kernel leaves in cell [i] of C: the sum over the phases of
   the launch for the row and the column that [i] addresses. *)
Definition cell_value (A B : list F) (N T : Z) (i : nat) : F :=
  dot_phases A B N T (phases_of N T) (Z.of_nat i / N) (Z.of_nat i mod N).

(* The cells written by the grid. *)
Definition grid_writes (N T : Z) (i : nat) : Prop :=
  exists it, it ∈ grid_items (round_up N T) (round_up N T) T /\
             store_guard N T it = true /\ i = store_index N T it.

(* [C] agrees with [val] on the written set [W] and with [C0] elsewhere. *)
Definition stored (C0 : list F) (val : nat -> F) (W : nat -> Prop)
    (C : list F) : Prop :=
  length C = length C0 /\
  forall i, (W i -> (i < length C0)%nat /\ C !! i = Some (val i)) /\
            (~ W i -> C !! i = C0 !! i).

(* A buffer holding an N x N matrix that the machine can address. *)
Definition matrix_buffer (N : Z) (M : list F) : Prop :=
  Z.of_nat (length M) = N * N /\ N * N < SizeT.modulus.

End Kernel.

(** ** The rest of main: allocation, fill and the whole computation
    (lines 56-114) *)

Section Host.
Context {F : Type} `{FloatOps F}.

(* sycl::malloc_shared<float>(N * N, q): room for N * N elements, the
   product taken in std::size_t; the contents are whatever they are. *)
Definition allocated (N : Z) (M : list F) : Prop :=
  Z.of_nat (length M) = SizeT.mul N N.

(* std::fill(b, b + n, v): for (; first != last; ++first) *first = v; *)
Definition fill (b : list F) (n : Z) (v : F) : option (list F) :=
  foldM (fun b i => wr b i v) b (seqZ 0 n).

(* main from the initialisation loops to the end of the kernel: the loops
   of lines 67-72, std::fill(C, C + N * N, 0.0f) and the launch. *)
Definition main_compute (s : schedule) (N TILE : Z) (A0 B0 C0 : list F)
  : option mem :=
  ab ← init_matrices N A0 B0;
  C ← fill C0 (SizeT.mul N N) fzero;
  multiply s N TILE (Mem ab.1 ab.2 C).

(* main from the allocations on (lines 57-124).  Each malloc_shared gives
   nullptr ([None]) or a buffer; if one of them is nullptr main prints
   "USM allocation failed." and returns 1 before it writes anything
   (lines 61-64), otherwise it initialises, launches and returns 0.  The
   result is the exit status and, when the kernel ran, the memory just
   before the buffers are freed. *)
Definition main_from_alloc (s : schedule) (N TILE : Z) (a b c : option (list F))
  : option (Z * option mem) :=
  match a, b, c with
  | Some A0, Some B0, Some C0 =>
      m ← main_compute s N TILE A0 B0 C0; Some (0, Some m)
  | _, _, _ => Some (1, None)
  end.

(* The matrices the initialisation loops produce, in closed form. *)
Definition gen_a (N : Z) : list F := init_val_a N <$> seq 0 (Z.to_nat (N * N)).
Definition gen_b (N : Z) : list F := init_val_b N <$> seq 0 (Z.to_nat (N * N)).


End Host.

(* The schedule that runs everything in the opposite order. *)
Definition reversed (N TILE : Z) : schedule :=
  Schedule (reverse (grid_groups (round_up N TILE) (round_up N TILE) TILE))
           (fun g _ => reverse (group_items TILE g)).

(** ** Test data *)

(* The largest value of type std::size_t, 2^64 - 1. *)
Definition huge_tile : Z := 18446744073709551615.

Definition A2 : list Z := [1; 2; 3; 4].
Definition B2 : list Z := [5; 6; 7; 8].
Definition zeros2 : list Z := [0; 0; 0; 0].
Definition sevens2 : list Z := [7; 7; 7; 7].

(* The product of A2 and B2. *)
Definition AB2 : list Z := [19; 22; 43; 50].

Definition twos4 : list Z := replicate 16 2.
Definition I4 : list Z :=
  [1; 0; 0; 0;  0; 1; 0; 0;  0; 0; 1; 0;  0; 0; 0; 1].

(* 10 x 10 matrices with entries n mod 7 and n mod 5. *)
Definition A10 : list Z := (fun n => n mod 7) <$> seqZ 0 100.
Definition B10 : list Z := (fun n => n mod 5) <$> seqZ 0 100.

Definition A3 : list Z := [1; 2; 3; 4; 5; 6; 7; 8; 9].
Definition I3 : list Z := [1; 0; 0; 0; 1; 0; 0; 0; 1].
Definition nines3 : list Z := [9; 9; 9; 9; 9; 9; 9; 9; 9].

(** ** Proof automation *)

(* Membership in a list with a known head. *)
Ltac cons_mem :=
  repeat match goal with
         | Hm : context [_ ∈ _ :: _] |- _ => rewrite elem_of_cons in Hm
         end;
  intuition (subst; try congruence).

(** * Part II: properties *)

(** ** Facts about [std::size_t] arithmetic *)

Lemma modulus_pos : 0 < SizeT.modulus.
Proof. reflexivity. Qed.

Lemma wrap_range z : SizeT.in_range (SizeT.wrap z).
Proof. apply Z.mod_pos_bound, modulus_pos. Qed.

Lemma wrap_small z : SizeT.in_range z -> SizeT.wrap z = z.
Proof. intros Hz. now apply Z.mod_small. Qed.

Lemma wrap_le z : 0 <= z -> SizeT.wrap z <= z.
Proof. intros Hz. apply Z.mod_le; [assumption | apply modulus_pos]. Qed.

(* Intermediate wrap-arounds cancel: only the final value matters. *)
Lemma sub_add_wrap a b c : SizeT.sub (SizeT.add a b) c = SizeT.wrap (a + b - c).
Proof. apply Zminus_mod_idemp_l. Qed.

Lemma add_mul_wrap a b c : SizeT.add (SizeT.mul a b) c = SizeT.wrap (a * b + c).
Proof. apply Zplus_mod_idemp_l. Qed.

Lemma add_mul_small a b c :
  SizeT.in_range (a * b + c) -> SizeT.add (SizeT.mul a b) c = a * b + c.
Proof. intros Hr. rewrite add_mul_wrap. now apply wrap_small. Qed.

(* Row-major addressing stays inside an addressable N x N buffer. *)
Lemma index_in_matrix N i j :
  0 <= i < N -> 0 <= j < N -> 0 <= i * N + j < N * N.
Proof. intros Hi Hj. nia. Qed.

Lemma index_small N i j :
  N * N < SizeT.modulus -> 0 <= i < N -> 0 <= j < N ->
  SizeT.add (SizeT.mul i N) j = i * N + j.
Proof.
  intros HN Hi Hj. apply add_mul_small.
  pose proof (index_in_matrix N i j Hi Hj). unfold SizeT.in_range. lia.
Qed.

(** ** The grid derivation *)

Lemma ceil_div_spec a b :
  0 < b -> (ceil_div a b - 1) * b < a <= ceil_div a b * b.
Proof.
  intros Hb. unfold ceil_div.
  pose proof (Z.div_mod (a + b - 1) b ltac:(lia)) as Hdm.
  pose proof (Z.mod_pos_bound (a + b - 1) b Hb) as Hm.
  nia.
Qed.

Lemma ceil_div_unique a b q :
  0 < b -> (q - 1) * b < a <= q * b -> q = ceil_div a b.
Proof.
  intros Hb Hq. pose proof (ceil_div_spec a b Hb) as Hc. nia.
Qed.


Lemma phases_of_no_overflow N T :
  1 <= N -> 1 <= T -> N + T - 1 < SizeT.modulus ->
  phases_of N T = ceil_div N T.
Proof.
  intros HN HT Hov. unfold phases_of, SizeT.div, ceil_div.
  rewrite sub_add_wrap, wrap_small by (unfold SizeT.in_range; lia).
  reflexivity.
Qed.

Lemma phases_of_nonneg N T : 1 <= T -> 0 <= phases_of N T.
Proof.
  intros HT. unfold phases_of, SizeT.div. apply Z.div_pos; [|lia].
  apply wrap_range.
Qed.

(* The multiplication of [round_up] never wraps: the quotient times the
   divisor is bounded by the (already wrapped) dividend. *)
Lemma round_up_mul_exact N T :
  1 <= T -> round_up N T = phases_of N T * T.
Proof.
  intros HT. unfold round_up. fold (phases_of N T).
  unfold SizeT.mul. apply wrap_small.
  pose proof (phases_of_nonneg N T HT) as Hp.
  unfold phases_of, SizeT.div in *.
  set (w := SizeT.sub (SizeT.add N T) 1) in *.
  assert (Hw : SizeT.in_range w) by apply wrap_range.
  unfold SizeT.in_range in *.
  pose proof (Z.div_mod w T ltac:(lia)) as Hdm.
  pose proof (Z.mod_pos_bound w T ltac:(lia)) as Hm.
  nia.
Qed.

Lemma round_up_groups N T : 1 <= T -> round_up N T / T = phases_of N T.
Proof.
  intros HT. rewrite round_up_mul_exact by assumption.
  apply Z.div_mul. lia.
Qed.

Lemma round_up_divisible N T : 1 <= T -> round_up N T mod T = 0.
Proof.
  intros HT. rewrite round_up_mul_exact by assumption.
  apply Z.mod_mul. lia.
Qed.

Lemma round_up_no_overflow N T :
  1 <= N -> 1 <= T -> N + T - 1 < SizeT.modulus ->
  round_up N T = ceil_div N T * T.
Proof.
  intros HN HT Hov. rewrite round_up_mul_exact by assumption.
  now rewrite phases_of_no_overflow.
Qed.

(* When [N + TILE - 1] does not fit, the wrapped dividend is smaller than
   the tile, so there are no phases and the grid is empty. *)
Lemma phases_of_overflow N T :
  SizeT.in_range N -> SizeT.in_range T -> 1 <= N -> 1 <= T ->
  SizeT.modulus <= N + T - 1 ->
  phases_of N T = 0.
Proof.
  unfold SizeT.in_range. intros HN HT HN1 HT1 Hov.
  unfold phases_of, SizeT.div. rewrite sub_add_wrap. unfold SizeT.wrap.
  replace ((N + T - 1) mod SizeT.modulus) with (N + T - 1 - SizeT.modulus).
  - apply Z.div_small. lia.
  - apply Z.mod_unique with (q := 1); lia.
Qed.

(* With an addressable N x N matrix and a tile width a work-group can have,
   N + TILE - 1 does not wrap. *)
Lemma local_range_no_wrap N T :
  1 <= N -> N * N < SizeT.modulus -> local_range T ->
  N + T - 1 < SizeT.modulus.
Proof.
  unfold local_range, SizeT.modulus. intros HN HNN [HT HTT].
  change (2 ^ 64) with (4294967296 * 4294967296) in *.
  assert (N < 4294967296) by nia. assert (T < 4294967296) by nia. lia.
Qed.

(** ** Folds *)

Section FoldM.
Context {S X : Type}.
Implicit Types (f : S -> X -> option S) (l : list X).

Lemma foldM_app f s l1 l2 :
  foldM f s (l1 ++ l2) = foldM f s l1 ≫= fun s' => foldM f s' l2.
Proof.
  revert s. induction l1 as [|x l1 IH]; intros s; simpl; [reflexivity|].
  destruct (f s x); simpl; auto.
Qed.

(* A property kept by every step is kept by the fold. *)
Lemma foldM_invariant (P : S -> Prop) f l s s' :
  (forall s x s', x ∈ l -> P s -> f s x = Some s' -> P s') ->
  P s -> foldM f s l = Some s' -> P s'.
Proof.
  revert s. induction l as [|x l IH]; intros s Hstep HP Hrun; simpl in Hrun.
  - congruence.
  - destruct (f s x) as [s1|] eqn:Hf; [|discriminate].
    apply (IH s1); [| |assumption].
    + intros s2 y s3 Hy. apply Hstep. now right.
    + eapply Hstep; [left | exact HP | exact Hf].
Qed.

(* A fold whose steps never fault is an ordinary left fold. *)
Lemma foldM_foldl f (g : S -> X -> S) l s :
  (forall s x, x ∈ l -> f s x = Some (g s x)) ->
  foldM f s l = Some (foldl g s l).
Proof.
  revert s. induction l as [|x l IH]; intros s Hf; simpl; [reflexivity|].
  rewrite Hf by left. apply IH. intros s1 y Hy. apply Hf. now right.
Qed.

Lemma foldM_ext f f' l s :
  (forall s x, x ∈ l -> f s x = f' s x) -> foldM f s l = foldM f' s l.
Proof.
  revert s. induction l as [|x l IH]; intros s Hf; simpl; [reflexivity|].
  rewrite <- Hf by left. destruct (f s x); [|reflexivity].
  apply IH. intros s1 y Hy. apply Hf. now right.
Qed.

End FoldM.

Lemma foldl_ext_in {S X : Type} (f g : S -> X -> S) l s :
  (forall s x, x ∈ l -> f s x = g s x) -> foldl f s l = foldl g s l.
Proof.
  revert s. induction l as [|x l IH]; intros s Hf; simpl; [reflexivity|].
  rewrite Hf by left. apply IH. intros s1 y Hy. apply Hf. now right.
Qed.

(** ** The instruction stream of a work-item *)

Lemma segments_phase p rest :
  segments (phase_body p ++ rest) = [ILoad p] :: [ICompute] :: segments rest.
Proof. simpl. destruct (segments rest); reflexivity. Qed.

Lemma segments_loop ps rest :
  segments (flat_map phase_body ps ++ rest)
  = flat_map phase_rounds ps ++ segments rest.
Proof.
  induction ps as [|p ps IH]; [reflexivity|].
  change (flat_map phase_body (p :: ps)) with (phase_body p ++ flat_map phase_body ps).
  rewrite <- app_assoc, segments_phase, IH. reflexivity.
Qed.

Lemma segments_item_body phases it :
  segments (item_body phases it)
  = flat_map phase_rounds (seqZ 0 phases) ++ [[IStore]].
Proof. unfold item_body. now rewrite segments_loop. Qed.

Lemma length_phase_rounds ps :
  length (flat_map phase_rounds ps) = (2 * length ps)%nat.
Proof. induction ps as [|p ps IH]; simpl; lia. Qed.

(** ** Buffers *)

Section Buffers.
Context {F : Type} `{FloatOps F}.

Lemma rd_elt (M : list F) N i j :
  matrix_buffer N M -> 0 <= i < N -> 0 <= j < N ->
  rd M (SizeT.add (SizeT.mul i N) j) = Some (elt M N i j).
Proof.
  intros [Hlen Hfit] Hi Hj. rewrite index_small by assumption.
  pose proof (index_in_matrix N i j Hi Hj) as Hidx.
  unfold rd, elt. rewrite decide_True by lia.
  destruct (lookup_lt_is_Some_2 M (Z.to_nat (i * N + j))) as [v Hv]; [lia|].
  now rewrite Hv.
Qed.

Lemma wr_insert (M : list F) i v :
  0 <= i < Z.of_nat (length M) -> wr M i v = Some (<[Z.to_nat i := v]> M).
Proof. intros Hi. unfold wr. case_decide; [reflexivity | lia]. Qed.

End Buffers.

(** ** One round of one work-group *)

Section Rounds.
Context {F : Type} `{FloatOps F}.
Variables (N T : Z) (A B : list F).
Hypothesis HA : matrix_buffer N A.
Hypothesis HB : matrix_buffer N B.

Lemma in_group_eta g it :
  in_group T g it -> Item g.1 g.2 (item_local it).1 (item_local it).2 = it.
Proof. intros [<- _]. now destruct it. Qed.

Lemma load_a_pad it p :
  load_a N T it p A = Some (pad A N (gy T it) (a_col T it p)).
Proof.
  unfold load_a, pad.
  destruct ((gy T it <? N) && (a_col T it p <? N)) eqn:Hg; [|reflexivity].
  apply andb_prop in Hg as [Hy Hx].
  apply Z.ltb_lt in Hy. apply Z.ltb_lt in Hx.
  apply rd_elt; [assumption | |].
  - pose proof (wrap_range (SizeT.mul (group0 it) T + local0 it)) as Hr.
    unfold SizeT.in_range in Hr. unfold gy, SizeT.add in *. lia.
  - pose proof (wrap_range (SizeT.mul p T + local1 it)) as Hr.
    unfold SizeT.in_range in Hr. unfold a_col, SizeT.add in *. lia.
Qed.

Lemma load_b_pad it p :
  load_b N T it p B = Some (pad B N (b_row T it p) (gx T it)).
Proof.
  unfold load_b, pad.
  destruct ((b_row T it p <? N) && (gx T it <? N)) eqn:Hg; [|reflexivity].
  apply andb_prop in Hg as [Hy Hx].
  apply Z.ltb_lt in Hy. apply Z.ltb_lt in Hx.
  apply rd_elt; [assumption | |].
  - pose proof (wrap_range (SizeT.mul p T + local0 it)) as Hr.
    unfold SizeT.in_range in Hr. unfold b_row, SizeT.add in *. lia.
  - pose proof (wrap_range (SizeT.mul (group1 it) T + local1 it)) as Hr.
    unfold SizeT.in_range in Hr. unfold gx, SizeT.add in *. lia.
Qed.

Lemma exec_load g it p st :
  in_group T g it -> memA (glob st) = A -> memB (glob st) = B ->
  exec_instr N T it st (ILoad p)
  = Some (KState (<[item_local it := staged_a N T A g p (item_local it)]> (tileA st))
                 (<[item_local it := staged_b N T B g p (item_local it)]> (tileB st))
                 (accs st) (glob st)).
Proof.
  intros Hin HmA HmB. pose proof (in_group_eta g it Hin) as Heta.
  destruct Hin as [Hg Htile].
  unfold exec_instr, staged_a, staged_b. rewrite Heta, HmA, HmB.
  rewrite load_a_pad, load_b_pad. simpl.
  unfold tile_wr. rewrite Htile. reflexivity.
Qed.

(* The load round: every slot owned by an item of [order] holds the value
   staged for it, whatever the order. *)
Lemma load_round g p order st :
  Forall (in_group T g) order ->
  memA (glob st) = A -> memB (glob st) = B ->
  exists tA tB,
    foldM (fun st it => foldM (exec_instr N T it) st [ILoad p]) st order
    = Some (KState tA tB (accs st) (glob st)) /\
    (forall k, tA !! k = if decide (k ∈ item_local <$> order)
                         then Some (staged_a N T A g p k) else tileA st !! k) /\
    (forall k, tB !! k = if decide (k ∈ item_local <$> order)
                         then Some (staged_b N T B g p k) else tileB st !! k).
Proof.
  intros Hall. revert st.
  induction Hall as [|it order Hit Hall IH]; intros st HmA HmB.
  - exists (tileA st), (tileB st). destruct st. simpl. auto.
  - cbn [foldM]. rewrite (exec_load g) by assumption.
    match goal with |- context [foldM _ ?s order] => destruct (IH s) as (tA & tB & Hrun & HtA & HtB) end;
      [assumption | assumption |].
    exists tA, tB. split; [exact Hrun|]. simpl in *.
    split; intros k; [rewrite HtA | rewrite HtB]; rewrite ?fmap_cons;
      (destruct (decide (k = item_local it)) as [->|Hne];
       [ rewrite lookup_insert_eq | rewrite lookup_insert_ne by congruence ];
       repeat case_decide; try reflexivity; exfalso; cons_mem).
Qed.

Lemma tile_in_spec y x :
  tile_in T y x = true <-> 0 <= y < T /\ 0 <= x < T.
Proof.
  unfold tile_in. rewrite !andb_true_iff, !Z.leb_le, !Z.ltb_lt. lia.
Qed.

Lemma exec_compute g p it st acc :
  in_group T g it ->
  (forall k, tile_in T k.1 k.2 = true ->
             tileA st !! k = Some (staged_a N T A g p k)) ->
  (forall k, tile_in T k.1 k.2 = true ->
             tileB st !! k = Some (staged_b N T B g p k)) ->
  accs st !! item_local it = Some acc ->
  exec_instr N T it st ICompute
  = Some (KState (tileA st) (tileB st)
                 (<[item_local it := mac_phase N T A B g p (item_local it) acc]>
                    (accs st))
                 (glob st)).
Proof.
  intros [Hg Htile] HtA HtB Hacc. apply tile_in_spec in Htile as [Hy Hx].
  unfold exec_instr. rewrite Hacc. cbn [mbind option_bind].
  rewrite (foldM_foldl _
             (fun acc kk => fadd acc (fmul (staged_a N T A g p (local0 it, kk))
                                           (staged_b N T B g p (kk, local1 it))))).
  - reflexivity.
  - intros a kk Hkk. apply elem_of_seqZ in Hkk. unfold mac, tile_rd.
    assert (tile_in T (local0 it) kk = true) as Hin1 by (apply tile_in_spec; lia).
    assert (tile_in T kk (local1 it) = true) as Hin2 by (apply tile_in_spec; lia).
    rewrite Hin1, Hin2.
    rewrite (HtA (local0 it, kk)), (HtB (kk, local1 it)) by assumption.
    reflexivity.
Qed.

(* The compute round: every item of [order] folds the staged tile into its
   own accumulator, and nobody else's. *)
Lemma compute_round g p order st :
  Forall (in_group T g) order ->
  NoDup (item_local <$> order) ->
  (forall k, tile_in T k.1 k.2 = true ->
             tileA st !! k = Some (staged_a N T A g p k)) ->
  (forall k, tile_in T k.1 k.2 = true ->
             tileB st !! k = Some (staged_b N T B g p k)) ->
  (forall k, k ∈ item_local <$> order -> is_Some (accs st !! k)) ->
  exists acs,
    foldM (fun st it => foldM (exec_instr N T it) st [ICompute]) st order
    = Some (KState (tileA st) (tileB st) acs (glob st)) /\
    (forall k, acs !! k = if decide (k ∈ item_local <$> order)
                          then mac_phase N T A B g p k <$> accs st !! k
                          else accs st !! k).
Proof.
  intros Hall. revert st.
  induction Hall as [|it order Hit Hall IH]; intros st Hnd HtA HtB Hacc.
  - exists (accs st). destruct st. simpl. auto.
  - rewrite fmap_cons in Hnd. apply NoDup_cons in Hnd as [Hfresh Hnd].
    destruct (Hacc (item_local it)) as [acc Hacc0]; [rewrite fmap_cons; left|].
    cbn [foldM]. rewrite (exec_compute g p it st acc) by assumption.
    match goal with
    | |- context [foldM _ ?s order] =>
        destruct (IH s) as (acs & Hrun & Hacs)
    end; try assumption.
    { intros k Hk. cbn [accs].
      destruct (decide (k = item_local it)) as [->|Hne];
        [rewrite lookup_insert_eq | rewrite lookup_insert_ne by congruence];
        [eauto | apply Hacc; rewrite fmap_cons; now right]. }
    exists acs. split; [exact Hrun|]. intros k. rewrite Hacs. cbn [accs].
    rewrite fmap_cons.
    destruct (decide (k = item_local it)) as [->|Hne];
      [ rewrite lookup_insert_eq, Hacc0 | rewrite lookup_insert_ne by congruence ];
      repeat case_decide; try reflexivity; exfalso; cons_mem.
Qed.

Lemma stored_iff (C0 : list F) val (W W' : nat -> Prop) C :
  (forall i, W i <-> W' i) -> stored C0 val W C -> stored C0 val W' C.
Proof.
  intros Hiff [Hlen HC]. split; [exact Hlen|]. intros i.
  destruct (HC i) as [Hin Hout]. split; intros Hi; [apply Hin | apply Hout];
    now rewrite Hiff.
Qed.

Lemma stored_init (C0 : list F) val : stored C0 val (fun _ => False) C0.
Proof. split; [reflexivity|]. intros i. split; [intros [] | reflexivity]. Qed.

Lemma stored_insert (C0 : list F) val W C n :
  stored C0 val W C -> (n < length C0)%nat ->
  stored C0 val (fun i => W i \/ i = n) (<[n := val n]> C).
Proof.
  intros [Hlen HC] Hn. split; [now rewrite length_insert|]. intros i.
  destruct (HC i) as [Hin Hout].
  destruct (decide (i = n)) as [->|Hne].
  - rewrite list_lookup_insert_eq by lia. split; [auto | tauto].
  - rewrite list_lookup_insert_ne by congruence. split; [|tauto].
    intros [Hi | Hi]; [now apply Hin | contradiction].
Qed.

Lemma store_index_small it :
  store_guard N T it = true ->
  SizeT.add (SizeT.mul (gy T it) N) (gx T it) = gy T it * N + gx T it /\
  0 <= gy T it * N + gx T it < N * N.
Proof.
  unfold store_guard. intros Hg. apply andb_prop in Hg as [Hy Hx].
  apply Z.ltb_lt in Hy. apply Z.ltb_lt in Hx.
  assert (0 <= gy T it < N) as Hyr.
  { pose proof (wrap_range (SizeT.mul (group0 it) T + local0 it)) as Hr.
    unfold SizeT.in_range in Hr. unfold gy, SizeT.add in *. lia. }
  assert (0 <= gx T it < N) as Hxr.
  { pose proof (wrap_range (SizeT.mul (group1 it) T + local1 it)) as Hr.
    unfold SizeT.in_range in Hr. unfold gx, SizeT.add in *. lia. }
  split; [apply index_small; [apply HA | assumption..]|].
  now apply index_in_matrix.
Qed.

Lemma exec_store it st acc C :
  accs st !! item_local it = Some acc ->
  glob st = Mem A B C -> N * N <= Z.of_nat (length C) ->
  exec_instr N T it st IStore
  = Some (KState (tileA st) (tileB st) (accs st)
            (Mem A B (if store_guard N T it
                      then <[store_index N T it := acc]> C else C))).
Proof.
  intros Hacc Hglob Hlen. unfold exec_instr. rewrite Hacc, Hglob.
  cbn [mbind option_bind memA memB memC]. fold (store_guard N T it).
  destruct (store_guard N T it) eqn:Hg.
  - destruct (store_index_small it Hg) as [-> Hidx].
    rewrite wr_insert by lia. reflexivity.
  - destruct st. cbn in *. now subst.
Qed.

(* The store round: the cells of the items that pass the guard take the
   value [val]; all other cells keep what they held. *)
Lemma store_round (C0 : list F) val order : forall st W C,
  glob st = Mem A B C -> N * N <= Z.of_nat (length C0) ->
  stored C0 val W C ->
  (forall it, it ∈ order ->
     exists acc, accs st !! item_local it = Some acc /\
                 (store_guard N T it = true -> acc = val (store_index N T it))) ->
  exists C',
    foldM (fun st it => foldM (exec_instr N T it) st [IStore]) st order
    = Some (KState (tileA st) (tileB st) (accs st) (Mem A B C')) /\
    stored C0 val
      (fun i => W i \/ exists it, it ∈ order /\ store_guard N T it = true /\
                                  i = store_index N T it) C'.
Proof.
  induction order as [|it order IH]; intros st W C Hglob Hfit Hst Hacc.
  - exists C. split; [destruct st; cbn in *; now subst|].
    eapply stored_iff; [|exact Hst]. intros i. split; [auto|].
    intros [Hi | (it & Hit & _)]; [assumption | now apply elem_of_nil in Hit].
  - destruct (Hacc it) as (acc & Hacc0 & Hval); [left|].
    cbn [foldM].
    rewrite (exec_store it st acc C);
      [| assumption | assumption | destruct Hst as [Hl _]; now rewrite Hl].
    set (C1 := if store_guard N T it then <[store_index N T it := acc]> C else C).
    set (W1 := fun i => W i \/ (store_guard N T it = true /\ i = store_index N T it)).
    assert (stored C0 val W1 C1) as Hst1.
    { subst C1 W1. destruct (store_guard N T it) eqn:Hg.
      - rewrite Hval by reflexivity.
        eapply stored_iff; [|apply stored_insert; [exact Hst|]].
        + intros i. cbn beta. tauto.
        + destruct (store_index_small it Hg) as [_ Hidx].
          unfold store_index. lia.
      - eapply stored_iff; [|exact Hst]. intros i. cbn beta. intuition congruence. }
    destruct (IH (KState (tileA st) (tileB st) (accs st) (Mem A B C1)) W1 C1)
      as (C' & Hrun & Hst'); [reflexivity | assumption | assumption | |].
    { intros it' Hit'. apply Hacc. now right. }
    exists C'. split; [exact Hrun|].
    eapply stored_iff; [|exact Hst']. intros i. subst W1. cbn beta. split.
    + intros [[Hi | [Hg ->]] | (it' & Hit' & Hg & ->)].
      * now left.
      * right. exists it. split; [left | auto].
      * right. exists it'. split; [now right | auto].
    + intros [Hi | (it' & Hit' & Hg & ->)]; [now left; left|].
      apply elem_of_cons in Hit' as [-> | Hit'].
      * left. right. auto.
      * right. exists it'. auto.
Qed.

End Rounds.

(** ** The items of a work-group and the groups of the grid *)

Lemma elem_of_group_items T g it :
  it ∈ group_items T g <->
  item_group it = g /\ 0 <= local0 it < T /\ 0 <= local1 it < T.
Proof.
  unfold group_items. rewrite list_elem_of_bind. split.
  - intros (y & Hit & Hy). apply list_elem_of_bind in Hit as (x & Hit & Hx).
    apply list_elem_of_singleton in Hit as ->.
    apply elem_of_seqZ in Hy. apply elem_of_seqZ in Hx.
    cbn. destruct g. cbn. split; [reflexivity | lia].
  - intros (Hg & Hy & Hx). exists (local0 it). split.
    + apply list_elem_of_bind. exists (local1 it). split.
      * apply list_elem_of_singleton. rewrite <- Hg. now destruct it.
      * apply elem_of_seqZ. lia.
    + apply elem_of_seqZ. lia.
Qed.

Lemma item_local_product (g : Z * Z) (ys xs : list Z) :
  item_local <$> (y ← ys; x ← xs; [Item g.1 g.2 y x])
  = y ← ys; x ← xs; [(y, x)].
Proof.
  induction ys as [|y ys IH]; [reflexivity|].
  rewrite !bind_cons, fmap_app, IH. f_equal. clear IH.
  induction xs as [|x xs IHx]; [reflexivity|].
  rewrite !bind_cons, fmap_app, IHx. reflexivity.
Qed.

Lemma group_items_local T g :
  item_local <$> group_items T g = y ← seqZ 0 T; x ← seqZ 0 T; [(y, x)].
Proof. apply item_local_product. Qed.

Lemma length_product (g : Z * Z) (ys xs : list Z) :
  length (y ← ys; x ← xs; [Item g.1 g.2 y x]) = (length ys * length xs)%nat.
Proof.
  assert (forall y : Z, length (x ← xs; [Item g.1 g.2 y x]) = length xs) as Hrow.
  { intros y. induction xs as [|x xs IH]; [reflexivity|].
    rewrite bind_cons, length_app, IH. reflexivity. }
  induction ys as [|y ys IH]; [reflexivity|].
  rewrite bind_cons, length_app, Hrow, IH. reflexivity.
Qed.

Lemma length_group_items T g :
  length (group_items T g) = (Z.to_nat T * Z.to_nat T)%nat.
Proof. unfold group_items. now rewrite length_product, length_seqZ. Qed.

Lemma NoDup_group_locals T g : NoDup (item_local <$> group_items T g).
Proof.
  rewrite group_items_local. apply NoDup_bind.
  - intros y1 y2 k _ _ H1 H2.
    apply list_elem_of_bind in H1 as (x1 & H1 & _).
    apply list_elem_of_bind in H2 as (x2 & H2 & _).
    apply list_elem_of_singleton in H1. apply list_elem_of_singleton in H2.
    congruence.
  - intros y _. apply NoDup_bind.
    + intros x1 x2 k _ _ H1 H2.
      apply list_elem_of_singleton in H1. apply list_elem_of_singleton in H2.
      congruence.
    + intros x _. apply NoDup_singleton.
    + apply NoDup_seqZ.
  - apply NoDup_seqZ.
Qed.

Section Orders.
Variables (T : Z) (g : Z * Z) (order : list item).
Hypothesis Horder : order ≡ₚ group_items T g.

Lemma order_in_group : Forall (in_group T g) order.
Proof.
  apply Forall_forall. intros it Hit. rewrite Horder in Hit.
  apply elem_of_group_items in Hit as (Hg & Hy & Hx).
  split; [exact Hg|]. unfold tile_in.
  rewrite !andb_true_iff, !Z.leb_le, !Z.ltb_lt. lia.
Qed.

Lemma order_NoDup : NoDup (item_local <$> order).
Proof. rewrite Horder. apply NoDup_group_locals. Qed.

Lemma order_locals k :
  k ∈ item_local <$> order <-> tile_in T k.1 k.2 = true.
Proof.
  rewrite Horder, list_elem_of_fmap. unfold tile_in.
  rewrite !andb_true_iff, !Z.leb_le, !Z.ltb_lt. split.
  - intros (it & -> & Hit). apply elem_of_group_items in Hit. cbn. lia.
  - intros Hk. exists (Item g.1 g.2 k.1 k.2). split; [now destruct k|].
    apply elem_of_group_items. cbn. split; [now destruct g | lia].
Qed.

End Orders.

(** ** Rounds and barriers *)

Lemma rounds_of_uniform phases its :
  its <> [] ->
  rounds_of phases its
  = Some (length (flat_map phase_rounds (seqZ 0 phases) ++ [[IStore]])).
Proof.
  destruct its as [|it rest]; [congruence|]. intros _. unfold rounds_of.
  rewrite segments_item_body.
  replace (forallb _ rest) with true; [reflexivity|].
  symmetry. apply forallb_forall. intros it' _.
  rewrite segments_item_body. apply Nat.eqb_refl.
Qed.

Lemma group_items_nonempty T g : 1 <= T -> group_items T g <> [].
Proof.
  intros HT Hnil.
  assert (Item g.1 g.2 0 0 ∈ group_items T g) as Hin.
  { apply elem_of_group_items. cbn. split; [now destruct g | lia]. }
  rewrite Hnil in Hin. now apply elem_of_nil in Hin.
Qed.

Section Groups.
Context {F : Type} `{FloatOps F}.
Variables (N T : Z) (A B : list F).
Hypothesis HA : matrix_buffer N A.
Hypothesis HB : matrix_buffer N B.
Hypothesis HT : 1 <= T.
Variable phases : Z.
Variable g : Z * Z.
Variable order : nat -> list item.
Hypothesis Horder : forall r, order r ≡ₚ group_items T g.

(* Running the rounds by number is running the common code round by
   round: every item has the same code between the same barriers. *)
Lemma run_rounds_exec segs' : forall pre st,
  flat_map phase_rounds (seqZ 0 phases) ++ [[IStore]] = pre ++ segs' ->
  foldM (fun st r => run_round N T phases (order r) r st) st
        (seq (length pre) (length segs'))
  = exec_rounds N T order (length pre) segs' st.
Proof.
  induction segs' as [|seg segs' IH]; intros pre st Hsegs; [reflexivity|].
  cbn [length seq foldM exec_rounds].
  assert (run_round N T phases (order (length pre)) (length pre) st
          = foldM (fun st it => foldM (exec_instr N T it) st seg) st
                  (order (length pre))) as ->.
  { unfold run_round. apply foldM_ext. intros s it _. unfold run_item_round.
    rewrite segments_item_body, Hsegs, lookup_app_r, Nat.sub_diag by lia.
    reflexivity. }
  destruct (foldM _ st (order (length pre))) as [st1|]; [|reflexivity].
  cbn [mbind option_bind].
  specialize (IH (pre ++ [seg]) st1).
  rewrite length_app, Nat.add_1_r in IH. apply IH.
  now rewrite <- app_assoc.
Qed.

Lemma exec_rounds_app segs1 segs2 : forall r st,
  exec_rounds N T order r (segs1 ++ segs2) st
  = exec_rounds N T order r segs1 st
      ≫= exec_rounds N T order (r + length segs1) segs2.
Proof.
  induction segs1 as [|seg segs1 IH]; intros r st.
  - cbn. now rewrite Nat.add_0_r.
  - cbn [app exec_rounds length].
    destruct (foldM _ st (order r)) as [st1|]; [|reflexivity].
    cbn [mbind option_bind]. rewrite IH. now rewrite Nat.add_succ_comm.
Qed.

(* The phase loop: after the phases [ps] every accumulator of the group
   holds the fold of the staged tiles over [ps]. *)
Lemma exec_phases ps : forall r st done,
  memA (glob st) = A -> memB (glob st) = B ->
  (forall k, tile_in T k.1 k.2 = true ->
             accs st !! k = Some (acc_after N T A B g done k)) ->
  exists tA tB acs,
    exec_rounds N T order r (flat_map phase_rounds ps) st
    = Some (KState tA tB acs (glob st)) /\
    (forall k, tile_in T k.1 k.2 = true ->
               acs !! k = Some (acc_after N T A B g (done ++ ps) k)).
Proof.
  induction ps as [|p ps IH]; intros r st done HmA HmB Hacc.
  - exists (tileA st), (tileB st), (accs st). rewrite app_nil_r.
    split; [now destruct st | assumption].
  - change (flat_map phase_rounds (p :: ps))
      with ([ILoad p] :: [ICompute] :: flat_map phase_rounds ps).
    cbn [exec_rounds].
    destruct (load_round N T A B HA HB g p (order r) st)
      as (tA & tB & -> & HtA & HtB);
      [apply order_in_group, Horder | assumption | assumption |].
    cbn [mbind option_bind].
    destruct (compute_round N T A B g p (order (S r))
                (KState tA tB (accs st) (glob st)))
      as (acs & -> & Hacs).
    + apply order_in_group, Horder.
    + apply order_NoDup with (T := T) (g := g), Horder.
    + intros k Hk. cbn [tileA]. rewrite HtA.
      rewrite decide_True; [reflexivity|].
      now apply (order_locals T g (order r) (Horder r)).
    + intros k Hk. cbn [tileB]. rewrite HtB.
      rewrite decide_True; [reflexivity|].
      now apply (order_locals T g (order r) (Horder r)).
    + intros k Hk. cbn [accs]. rewrite Hacc; [eauto|].
      now apply (order_locals T g (order (S r)) (Horder (S r))).
    + cbn [mbind option_bind tileA tileB accs glob] in *.
      destruct (IH (S (S r)) (KState tA tB acs (glob st)) (done ++ [p]))
        as (tA' & tB' & acs' & Hrun & Hacs'); [assumption | assumption | |].
      { intros k Hk. cbn [accs]. rewrite Hacs, decide_True, Hacc by
          (try assumption; now apply (order_locals T g (order (S r)) (Horder (S r)))).
        cbn. unfold acc_after. now rewrite foldl_app. }
      exists tA', tB', acs'. split; [exact Hrun|].
      intros k Hk. rewrite Hacs' by assumption.
      now rewrite <- app_assoc.
Qed.

Lemma init_accs its m k :
  k ∈ item_local <$> its -> accs (init_kstate its m) !! k = Some fzero.
Proof.
  cbn [init_kstate accs].
  induction its as [|it its IH]; intros Hk.
  - now apply elem_of_nil in Hk.
  - rewrite fmap_cons in Hk. cbn [map]. rewrite list_to_map_cons.
    destruct (decide (k = item_local it)) as [->|Hne].
    + apply lookup_insert_eq.
    + rewrite lookup_insert_ne by congruence. apply IH. cons_mem.
Qed.

(* One work-group, start to finish: it never faults, leaves A and B
   alone, and stores [val] wherever one of its items passes the guard. *)
Lemma run_group_spec (C0 C : list F) val (W : nat -> Prop) :
  N * N <= Z.of_nat (length C0) ->
  stored C0 val W C ->
  (forall it, it ∈ group_items T g -> store_guard N T it = true ->
     acc_after N T A B g (seqZ 0 phases) (item_local it)
     = val (store_index N T it)) ->
  exists C',
    run_group N T phases order (group_items T g) (Mem A B C)
    = Some (Mem A B C') /\
    stored C0 val
      (fun i => W i \/ exists it, it ∈ group_items T g /\
                                  store_guard N T it = true /\
                                  i = store_index N T it) C'.
Proof.
  intros Hfit Hst Hval. unfold run_group.
  rewrite rounds_of_uniform by now apply group_items_nonempty.
  cbn [mbind option_bind].
  pose proof (run_rounds_exec
                (flat_map phase_rounds (seqZ 0 phases) ++ [[IStore]]) []
                (init_kstate (group_items T g) (Mem A B C)) eq_refl) as Hrun.
  cbn [length] in Hrun. rewrite Hrun. clear Hrun.
  rewrite exec_rounds_app.
  destruct (exec_phases (seqZ 0 phases) 0%nat
              (init_kstate (group_items T g) (Mem A B C)) [])
    as (tA & tB & acs & -> & Hacs); [reflexivity | reflexivity | |].
  { intros k Hk. apply init_accs.
    now apply (order_locals T g (group_items T g)). }
  cbn [mbind option_bind exec_rounds app glob init_kstate] in *.
  set (r := (0 + length (flat_map phase_rounds (seqZ 0 phases)))%nat).
  destruct (store_round N T A B HA C0 val (order r)
              (KState tA tB acs (Mem A B C)) W C)
    as (C' & -> & Hst'); [reflexivity | assumption | assumption | |].
  { intros it Hit. rewrite Horder in Hit.
    exists (acc_after N T A B g (seqZ 0 phases) (item_local it)).
    split; [|now apply Hval]. cbn [accs]. apply Hacs.
    apply (order_locals T g (group_items T g)); [reflexivity|].
    apply list_elem_of_fmap. eauto. }
  exists C'. split; [reflexivity|].
  eapply stored_iff; [|exact Hst']. intros i. cbn beta.
  split; (intros [Hi | (it & Hit & Hrest)]; [now left|]; right; exists it;
          split; [|exact Hrest]).
  - now rewrite <- (Horder r).
  - now rewrite (Horder r).
Qed.

End Groups.

(** ** Barriers as synchronisation points *)

Lemma until_barrier_free seg :
  Forall (fun i => is_barrier i = false) seg ->
  until_barrier seg = seg /\ from_barrier seg = [].
Proof.
  induction 1 as [|i seg Hi _ [IH1 IH2]]; [split; reflexivity|].
  destruct i; try discriminate; cbn [until_barrier from_barrier];
    now rewrite IH1, IH2.
Qed.

Lemma until_barrier_app seg rest :
  Forall (fun i => is_barrier i = false) seg ->
  until_barrier (seg ++ IBarrier :: rest) = seg /\
  from_barrier (seg ++ IBarrier :: rest) = IBarrier :: rest.
Proof.
  induction 1 as [|i seg Hi _ [IH1 IH2]]; [split; reflexivity|].
  destruct i; try discriminate; cbn [app until_barrier from_barrier];
    now rewrite IH1, IH2.
Qed.

Lemma join_loop ps rest :
  rest <> [] ->
  join (flat_map phase_rounds ps ++ rest) = flat_map phase_body ps ++ join rest.
Proof.
  intros Hrest. induction ps as [|p ps IH]; [reflexivity|].
  change (flat_map phase_rounds (p :: ps) ++ rest)
    with ([ILoad p] :: [ICompute] :: (flat_map phase_rounds ps ++ rest)).
  change (flat_map phase_body (p :: ps))
    with (phase_body p ++ flat_map phase_body ps).
  assert (flat_map phase_rounds ps ++ rest <> []) as Hne.
  { intros Heq. apply app_eq_nil in Heq as [_ ?]. contradiction. }
  cbn [join]. destruct (flat_map phase_rounds ps ++ rest) eqn:Heq; [congruence|].
  rewrite IH. reflexivity.
Qed.

Lemma phase_rounds_free ps :
  Forall (Forall (fun i => is_barrier i = false)) (flat_map phase_rounds ps).
Proof.
  induction ps as [|p ps IH]; [constructor|].
  change (flat_map phase_rounds (p :: ps))
    with ([ILoad p] :: [ICompute] :: flat_map phase_rounds ps).
  repeat constructor. exact IH.
Qed.

Section Barriers.
Context {F : Type} `{FloatOps F}.
Variables (N T : Z).

Lemma run_to_barrier_spec it code : forall done (st : kstate),
  run_to_barrier N T it code done st
  = st' ← foldM (exec_instr N T it) st (until_barrier code);
    Some (Thread (from_barrier code) (done ++ until_barrier code), st').
Proof.
  induction code as [|i code IH]; intros done st.
  - cbn. now rewrite app_nil_r.
  - destruct i; cbn [run_to_barrier until_barrier from_barrier foldM].
    2: { cbn. now rewrite app_nil_r. }
    all: destruct (exec_instr N T it st _) as [st1|]; [|reflexivity];
      cbn [mbind option_bind]; rewrite IH;
      destruct (foldM _ st1 _); [|reflexivity];
      cbn [mbind option_bind]; now rewrite <- app_assoc.
Qed.

Lemma lookup_uniform_pool its th k :
  uniform_pool its th !! k
  = if decide (k ∈ item_local <$> its) then Some th else None.
Proof.
  unfold uniform_pool. induction its as [|it its IH].
  - cbn. rewrite lookup_empty. case_decide; [|reflexivity].
    now apply elem_of_nil in H0.
  - cbn [map]. rewrite list_to_map_cons, fmap_cons. cbn [fst snd].
    destruct (decide (k = item_local it)) as [->|Hne].
    + rewrite lookup_insert_eq, decide_True by left. reflexivity.
    + rewrite lookup_insert_ne by congruence. rewrite IH.
      repeat case_decide; try reflexivity; exfalso; cons_mem.
Qed.

Lemma lookup_foldl_insert (th : thread) l : forall (P : gmap (Z * Z) thread) k,
  foldl (fun P it => <[item_local it := th]> P) P l !! k
  = if decide (k ∈ item_local <$> l) then Some th else P !! k.
Proof.
  induction l as [|it l IH]; intros P k.
  - cbn. case_decide; [|reflexivity]. now apply elem_of_nil in H0.
  - cbn [foldl]. rewrite IH, fmap_cons.
    destruct (decide (k = item_local it)) as [->|Hne].
    + rewrite lookup_insert_eq. rewrite (decide_True (P:=_ ∈ _ :: _)) by left.
      now case_decide.
    + rewrite lookup_insert_ne by congruence.
      repeat case_decide; try reflexivity; exfalso; cons_mem.
Qed.


(* One round with every thread in the same state. *)
Lemma sync_items l (code done : list instr) :
  NoDup (item_local <$> l) ->
  forall (P : gmap (Z * Z) thread) (st : kstate),
  (forall it, it ∈ l -> P !! item_local it = Some (Thread code done)) ->
  foldM (sync_item N T) (P, st) l
  = st' ← foldM (fun st it => foldM (exec_instr N T it) st (until_barrier code))
                st l;
    Some (foldl (fun P it =>
                   <[item_local it :=
                       Thread (from_barrier code) (done ++ until_barrier code)]> P)
                P l, st').
Proof.
  induction l as [|it l IH]; intros Hnd P st HP; [reflexivity|].
  rewrite fmap_cons in Hnd. apply NoDup_cons in Hnd as [Hnotin Hnd].
  cbn [foldM foldl]. unfold sync_item at 1. cbn [fst snd].
  rewrite HP by left. cbn [mbind option_bind th_code th_done].
  rewrite run_to_barrier_spec.
  destruct (foldM (exec_instr N T it) st (until_barrier code)) as [st1|];
    [|reflexivity].
  cbn [mbind option_bind fst snd]. apply IH; [exact Hnd|].
  intros it' Hit'. rewrite lookup_insert_ne; [apply HP; now right|].
  intros Heq. apply Hnotin. rewrite Heq. apply list_elem_of_fmap. eauto.
Qed.

Variables (g : Z * Z) (order : nat -> list item).
Hypothesis HT : 1 <= T.
Hypothesis Horder : forall r, order r ≡ₚ group_items T g.

Lemma sync_round (code done : list instr) r (st : kstate) :
  foldM (sync_item N T) (uniform_pool (group_items T g) (Thread code done), st)
        (order r)
  = st' ← foldM (fun st it => foldM (exec_instr N T it) st (until_barrier code))
                st (order r);
    Some (uniform_pool (group_items T g)
            (Thread (from_barrier code) (done ++ until_barrier code)), st').
Proof.
  rewrite (sync_items (order r) code done).
  - destruct (foldM _ st (order r)) as [st1|]; [|reflexivity].
    cbn [mbind option_bind]. f_equal. f_equal. apply map_eq. intros k.
    rewrite lookup_foldl_insert, !lookup_uniform_pool.
    assert (k ∈ item_local <$> order r <-> k ∈ item_local <$> group_items T g)
      as Hiff by now rewrite (Horder r).
    repeat case_decide; try reflexivity; tauto.
  - apply order_NoDup with (T := T) (g := g), Horder.
  - intros it Hit. rewrite lookup_uniform_pool, decide_True; [reflexivity|].
    rewrite <- (Horder r). apply list_elem_of_fmap. eauto.
Qed.

Lemma uniform_pool_Forall (P : thread -> Prop) th :
  map_Forall (fun _ => P) (uniform_pool (group_items T g) th) <-> P th.
Proof.
  split.
  - intros Hall. apply (Hall (0, 0)).
    rewrite lookup_uniform_pool, decide_True; [reflexivity|].
    apply (order_locals T g (group_items T g)); [reflexivity|].
    unfold tile_in. cbn [fst snd].
    rewrite !andb_true_iff, !Z.leb_le, !Z.ltb_lt. lia.
  - intros HP k th'. rewrite lookup_uniform_pool. case_decide; [|discriminate].
    now intros [= <-].
Qed.

Lemma uniform_pool_fmap (f : thread -> thread) th :
  f <$> uniform_pool (group_items T g) th = uniform_pool (group_items T g) (f th).
Proof.
  apply map_eq. intros k. rewrite lookup_fmap, !lookup_uniform_pool.
  now case_decide.
Qed.

Lemma exec_rounds_cons seg segs r (st : kstate) :
  exec_rounds N T order r (seg :: segs) st
  = st' ← foldM (fun st it => foldM (exec_instr N T it) st seg) st (order r);
    exec_rounds N T order (S r) segs st'.
Proof. reflexivity. Qed.

(* The whole run of the group: with the code cut at its barriers, the
   rounds of the synchronising run are the rounds of [exec_rounds], and at
   the end every thread has executed all of its code. *)
Lemma sync_rounds_segs segs : forall seg fuel r done (st : kstate),
  Forall (Forall (fun i => is_barrier i = false)) (seg :: segs) ->
  (length segs < fuel)%nat ->
  sync_rounds N T fuel order r
    (uniform_pool (group_items T g) (Thread (join (seg :: segs)) done), st)
  = st' ← exec_rounds N T order r (seg :: segs) st;
    Some (uniform_pool (group_items T g)
            (Thread [] (done ++ join (seg :: segs))), st').
Proof.
  induction segs as [|seg' segs IH]; intros seg fuel r done st Hfree Hfuel;
    (destruct fuel as [|fuel]; [cbn in Hfuel; lia|]);
    apply Forall_cons in Hfree as [Hseg Hfree];
    cbn [sync_rounds]; rewrite exec_rounds_cons.
  - cbn [join exec_rounds]. rewrite sync_round.
    destruct (until_barrier_free seg Hseg) as [-> ->].
    destruct (foldM _ st (order r)) as [st1|]; [|reflexivity].
    cbn [mbind option_bind fst snd].
    rewrite decide_True; [reflexivity|]. now apply uniform_pool_Forall.
  - change (join (seg :: seg' :: segs))
      with (seg ++ IBarrier :: join (seg' :: segs)).
    rewrite sync_round.
    destruct (until_barrier_app seg (join (seg' :: segs)) Hseg) as [-> ->].
    destruct (foldM _ st (order r)) as [st1|]; [|reflexivity].
    cbn [mbind option_bind fst snd].
    rewrite decide_False by (rewrite uniform_pool_Forall; discriminate).
    rewrite decide_True by now apply uniform_pool_Forall.
    rewrite uniform_pool_fmap. unfold pass_barrier at 1. cbn [th_code th_done].
    rewrite IH by (try assumption; cbn [length] in Hfuel; lia).
    destruct (exec_rounds N T order (S r) (seg' :: segs) st1); [|reflexivity].
    cbn [mbind option_bind]. now rewrite <- !app_assoc.
Qed.


Lemma sync_fuel_enough phases :
  (length (flat_map phase_rounds (seqZ 0 phases) ++ [[IStore]])
   <= sync_fuel (item_body phases) (group_items T g))%nat.
Proof.
  unfold sync_fuel.
  pose proof (group_items_nonempty T g HT) as Hne.
  destruct (group_items T g) as [|it its]; [congruence|].
  cbn [foldr]. unfold item_body at 1.
  rewrite !length_app, length_phase_rounds. cbn [length].
  assert (forall ps, length (flat_map phase_body ps) = (4 * length ps)%nat) as ->.
  { induction ps as [|p ps IH]; cbn [flat_map length app phase_body]; lia. }
  lia.
Qed.

(* A work-group run with its barriers computes what the run by rounds
   computes, and every item ends having executed its whole code. *)
Lemma sync_group_run phases (m : mem) :
  sync_group N T phases order (group_items T g) m
  = m' ← run_group N T phases order (group_items T g) m;
    Some (uniform_pool (group_items T g)
            (Thread [] (flat_map phase_body (seqZ 0 phases) ++ [IStore])), m').
Proof.
  unfold sync_group, sync_group_of, run_group.
  rewrite rounds_of_uniform by now apply group_items_nonempty.
  cbn [mbind option_bind].
  pose proof (run_rounds_exec N T phases order
                (flat_map phase_rounds (seqZ 0 phases) ++ [[IStore]]) []
                (init_kstate (group_items T g) m) eq_refl) as Hrun.
  cbn [length] in Hrun. rewrite Hrun. clear Hrun.
  pose proof (sync_fuel_enough phases) as Hfuel.
  assert (init_threads (item_body phases) (group_items T g)
          = uniform_pool (group_items T g)
              (Thread (join (flat_map phase_rounds (seqZ 0 phases) ++ [[IStore]])) []))
    as ->.
  { rewrite join_loop by discriminate. reflexivity. }
  assert (Forall (Forall (fun i => is_barrier i = false))
            (flat_map phase_rounds (seqZ 0 phases) ++ [[IStore]])) as Hfree.
  { apply Forall_app. split; [apply phase_rounds_free | repeat constructor]. }
  assert (join (flat_map phase_rounds (seqZ 0 phases) ++ [[IStore]])
          = flat_map phase_body (seqZ 0 phases) ++ [IStore]) as Hjoin
    by now rewrite join_loop.
  destruct (flat_map phase_rounds (seqZ 0 phases) ++ [[IStore]])
    as [|seg segs] eqn:Hsegs.
  { apply app_eq_nil in Hsegs as [_ ?]. discriminate. }
  rewrite sync_rounds_segs by (try assumption; cbn [length] in Hfuel; lia).
  destruct (exec_rounds N T order 0 (seg :: segs) _) as [st|]; [|reflexivity].
  cbn [mbind option_bind fst snd]. now rewrite Hjoin.
Qed.

End Barriers.

(** ** The whole grid *)

Lemma elem_of_grid_groups G0 G1 T g :
  g ∈ grid_groups G0 G1 T <-> 0 <= g.1 < G0 / T /\ 0 <= g.2 < G1 / T.
Proof.
  unfold grid_groups. rewrite list_elem_of_bind. split.
  - intros (g0 & Hg & Hg0). apply list_elem_of_bind in Hg as (g1 & Hg & Hg1).
    apply list_elem_of_singleton in Hg as ->.
    apply elem_of_seqZ in Hg0. apply elem_of_seqZ in Hg1. cbn. lia.
  - intros [H0 H1]. exists g.1. split; [|apply elem_of_seqZ; lia].
    apply list_elem_of_bind. exists g.2. split; [|apply elem_of_seqZ; lia].
    apply list_elem_of_singleton. now destruct g.
Qed.

Lemma elem_of_grid_items G0 G1 T it :
  it ∈ grid_items G0 G1 T <->
  (0 <= group0 it < G0 / T /\ 0 <= group1 it < G1 / T) /\
  0 <= local0 it < T /\ 0 <= local1 it < T.
Proof.
  unfold grid_items. rewrite list_elem_of_bind. split.
  - intros (g & Hit & Hg). apply elem_of_grid_groups in Hg.
    apply elem_of_group_items in Hit as (<- & Hl). cbn in Hg. tauto.
  - intros (Hg & Hl). exists (item_group it). split.
    + now apply elem_of_group_items.
    + now apply elem_of_grid_groups.
Qed.

Section Grid.
Context {F : Type} `{FloatOps F}.
Variables (N T : Z) (A B : list F).
Hypothesis HA : matrix_buffer N A.
Hypothesis HB : matrix_buffer N B.
Hypothesis HT : 1 <= T.

(* Inside the grid the coordinate arithmetic of the lambda never wraps. *)
Lemma grid_coord_small q l :
  0 <= q < (phases_of N T) -> 0 <= l < T ->
  SizeT.add (SizeT.mul q T) l = q * T + l.
Proof.
  intros Hq Hl. apply add_mul_small.
  pose proof (round_up_mul_exact N T HT) as HG.
  assert (SizeT.in_range (round_up N T)) as Hr by apply wrap_range.
  unfold SizeT.in_range in *. nia.
Qed.

Lemma acc_after_dot g y x :
  0 <= g.1 < (phases_of N T) -> 0 <= g.2 < (phases_of N T) -> 0 <= y < T -> 0 <= x < T ->
  acc_after N T A B g (seqZ 0 (phases_of N T)) (y, x)
  = dot_phases A B N T (phases_of N T) (g.1 * T + y) (g.2 * T + x).
Proof.
  intros Hg0 Hg1 Hy Hx. unfold acc_after, dot_phases.
  apply foldl_ext_in. intros acc p Hp. apply elem_of_seqZ in Hp.
  unfold mac_phase. apply foldl_ext_in. intros acc' k Hk.
  apply elem_of_seqZ in Hk.
  unfold staged_a, staged_b, gy, gx, a_col, b_row. cbn [fst snd group0 group1 local0 local1].
  rewrite !grid_coord_small by lia. reflexivity.
Qed.

Lemma grid_item_coords it :
  it ∈ grid_items (round_up N T) (round_up N T) T ->
  gy T it = group0 it * T + local0 it /\ gx T it = group1 it * T + local1 it.
Proof.
  intros Hit. apply elem_of_grid_items in Hit as ((Hg0 & Hg1) & Hy & Hx).
  rewrite round_up_groups in Hg0, Hg1 by assumption.
  unfold gy, gx. now rewrite !grid_coord_small.
Qed.

Lemma grid_item_value it :
  it ∈ grid_items (round_up N T) (round_up N T) T -> store_guard N T it = true ->
  acc_after N T A B (item_group it) (seqZ 0 (phases_of N T)) (item_local it)
  = (cell_value A B N T) (store_index N T it).
Proof.
  intros Hit Hg. destruct (grid_item_coords it Hit) as [Hgy Hgx].
  destruct (store_index_small N T A HA it Hg) as [_ Hidx].
  apply elem_of_grid_items in Hit as ((Hg0 & Hg1) & Hy & Hx).
  rewrite round_up_groups in Hg0, Hg1 by assumption.
  unfold item_local. rewrite acc_after_dot by (cbn; assumption).
  unfold cell_value, store_index. rewrite Z2Nat.id by lia.
  unfold store_guard in Hg. apply andb_prop in Hg as [Hy' Hx'].
  apply Z.ltb_lt in Hy', Hx'.
  assert (0 <= gy T it) as Hy0 by (rewrite Hgy; nia).
  assert (0 <= gx T it) as Hx0 by (rewrite Hgx; nia).
  replace ((gy T it * N + gx T it) / N) with (gy T it)
    by (apply Z.div_unique with (r := gx T it); lia).
  replace ((gy T it * N + gx T it) mod N) with (gx T it)
    by (apply Z.mod_unique with (q := gy T it); lia).
  cbn [item_group fst snd]. now rewrite Hgy, Hgx.
Qed.

Lemma run_groups_spec (s : schedule) (C0 : list F) gs : forall C (W : nat -> Prop),
  (forall g r, item_order s g r ≡ₚ group_items T g) ->
  (forall g, g ∈ gs -> g ∈ grid_groups (round_up N T) (round_up N T) T) ->
  N * N <= Z.of_nat (length C0) ->
  stored C0 (cell_value A B N T) W C ->
  exists C',
    foldM (fun m g => run_group N T (phases_of N T) (item_order s g) (group_items T g) m)
          (Mem A B C) gs
    = Some (Mem A B C') /\
    stored C0 (cell_value A B N T)
      (fun i => W i \/ exists g it, g ∈ gs /\ it ∈ group_items T g /\
                                    store_guard N T it = true /\
                                    i = store_index N T it) C'.
Proof.
  induction gs as [|g gs IH]; intros C W Hitems Hgs Hfit Hst.
  - exists C. split; [reflexivity|]. eapply stored_iff; [|exact Hst].
    intros i. split; [auto|]. intros [Hi | (g & it & Hg & _)]; [assumption|].
    now apply elem_of_nil in Hg.
  - cbn [foldM].
    destruct (run_group_spec N T A B HA HB HT (phases_of N T) g (item_order s g)
                (Hitems g) C0 C (cell_value A B N T) W Hfit Hst) as (C1 & -> & Hst1).
    { intros it Hit Hguard.
      assert (it ∈ grid_items (round_up N T) (round_up N T) T) as Hgrid.
      { unfold grid_items. apply list_elem_of_bind. exists g.
        split; [assumption | apply Hgs; left]. }
      apply elem_of_group_items in Hit as (<- & _).
      now apply grid_item_value. }
    destruct (IH C1 _ Hitems (fun g' Hg' => Hgs g' (list_elem_of_further _ _ _ Hg'))
                Hfit Hst1) as (C' & -> & Hst').
    exists C'. split; [reflexivity|]. eapply stored_iff; [|exact Hst'].
    intros i. cbn beta. split.
    + intros [[Hi | (it & Hit & Hrest)] | (g' & it & Hg' & Hrest)].
      * now left.
      * right. exists g, it. split; [left | auto].
      * right. exists g', it. split; [now right | auto].
    + intros [Hi | (g' & it & Hg' & Hit & Hrest)]; [now left; left|].
      apply elem_of_cons in Hg' as [-> | Hg'].
      * left. right. exists it. auto.
      * right. exists g', it. auto.
Qed.

(* The launch as a whole, for any tile width and whatever the schedule:
   it completes, leaves A and B alone and writes [(cell_value A B N T)] to exactly
   the cells of [(grid_writes N T)]. *)
Lemma multiply_stored (s : schedule) (C : list F) :
  valid_schedule N T s -> N * N <= Z.of_nat (length C) ->
  exists C',
    multiply s N T (Mem A B C) = Some (Mem A B C') /\
    stored C (cell_value A B N T) (grid_writes N T) C'.
Proof.
  intros [Hgroups Hitems] Hfit. unfold multiply.
  rewrite decide_True by lia.
  destruct (run_groups_spec s C (group_order s) C (fun _ => False))
    as (C' & Hrun & Hst); [assumption | | assumption | apply stored_init |].
  { intros g Hg. now rewrite <- Hgroups. }
  exists C'. split; [exact Hrun|]. eapply stored_iff; [|exact Hst].
  intros i. unfold grid_writes, grid_items. split.
  - intros [[] | (g & it & Hg & Hit & Hrest)]. exists it.
    split; [|exact Hrest]. apply list_elem_of_bind. exists g.
    split; [assumption | now rewrite <- Hgroups].
  - intros (it & Hit & Hrest). right.
    apply list_elem_of_bind in Hit as (g & Hit & Hg).
    exists g, it. split; [now rewrite Hgroups | auto].
Qed.

End Grid.

(** ** The tiled sum and the reference sum *)

Section Sums.
Context {F : Type} `{FloatOps F}.
Variables (N T : Z) (A B : list F).

(* Phase-major, then k-major, is the order of the padded index itself. *)
Lemma dot_phases_flat (n : nat) i j :
  0 <= T ->
  dot_phases A B N T (Z.of_nat n) i j
  = foldl (fun acc k => fadd acc (fmul (pad A N i k) (pad B N k j))) fzero (seqZ 0 (Z.of_nat n * T)).
Proof.
  intros HT. unfold dot_phases. induction n as [|n IH].
  - reflexivity.
  - rewrite seqZ_S, foldl_app, IH. cbn [foldl].
    replace (Z.of_nat (S n) * T) with (Z.of_nat n * T + T) by lia.
    rewrite seqZ_app, foldl_app by lia.
    replace (0 + Z.of_nat n * T) with (Z.of_nat n * T + 0) by lia.
    rewrite <- (fmap_add_seqZ (Z.of_nat n * T) 0 T), foldl_fmap.
    apply foldl_ext_in. intros acc k _. cbn beta.
    now rewrite !Z.add_0_l.
Qed.

(* Adding 0.0 * 0.0 to [acc] any number of times leaves it alone as soon as
   adding it once does. *)
Lemma foldl_padding i j ks acc :
  fadd acc (fmul fzero fzero) = acc ->
  (forall k, k ∈ ks -> N <= k) ->
  foldl (fun acc k => fadd acc (fmul (pad A N i k) (pad B N k j))) acc ks = acc.
Proof.
  intros Hlaw. induction ks as [|k ks IH]; intros Hks.
  - reflexivity.
  - cbn [foldl].
    assert (N <= k) as Hk by (apply Hks; left).
    assert ((k <? N) = false) as Hkb by (apply Z.ltb_ge; lia).
    assert (pad A N i k = fzero) as ->
      by (unfold pad; now rewrite Hkb, andb_false_r).
    assert (pad B N k j = fzero) as -> by (unfold pad; now rewrite Hkb).
    rewrite Hlaw. apply IH. intros k' Hk'. apply Hks. now right.
Qed.

(* The zero padding does not show in the sum when the reference sum
   absorbs 0.0 * 0.0. *)
Lemma dot_phases_ref_at q i j :
  fadd (dot_ref A B N i j) (fmul fzero fzero) = dot_ref A B N i j ->
  0 <= T -> 0 <= q -> N <= q * T -> 0 <= i < N -> 0 <= j < N ->
  dot_phases A B N T q i j = dot_ref A B N i j.
Proof.
  intros Hlaw HT Hq Hcover Hi Hj.
  rewrite <- (Z2Nat.id q), dot_phases_flat, Z2Nat.id by lia.
  replace (q * T) with (N + (q * T - N)) by lia.
  rewrite seqZ_app, foldl_app by lia.
  assert (foldl (fun acc k => fadd acc (fmul (pad A N i k) (pad B N k j)))
                fzero (seqZ 0 N) = dot_ref A B N i j) as ->.
  { unfold dot_ref. apply foldl_ext_in. intros acc k Hk.
    apply elem_of_seqZ in Hk. unfold pad.
    replace (i <? N) with true by (symmetry; apply Z.ltb_lt; lia).
    replace (j <? N) with true by (symmetry; apply Z.ltb_lt; lia).
    replace (k <? N) with true by (symmetry; apply Z.ltb_lt; lia).
    reflexivity. }
  apply foldl_padding; [assumption|].
  intros k Hk. apply elem_of_seqZ in Hk. lia.
Qed.

(* Under exact arithmetic the zero padding never shows. *)
Lemma dot_phases_ref q i j :
  (forall x, fadd x (fmul fzero fzero) = x) ->
  0 <= T -> 0 <= q -> N <= q * T -> 0 <= i < N -> 0 <= j < N ->
  dot_phases A B N T q i j = dot_ref A B N i j.
Proof. intros Hlaw. apply dot_phases_ref_at, Hlaw. Qed.

Lemma dot_tiled_ref_at i j :
  fadd (dot_ref A B N i j) (fmul fzero fzero) = dot_ref A B N i j ->
  1 <= T -> 0 <= i < N -> 0 <= j < N ->
  dot_tiled A B N T i j = dot_ref A B N i j.
Proof.
  intros Hlaw HT Hi Hj. unfold dot_tiled.
  pose proof (ceil_div_spec N T ltac:(lia)) as Hc.
  apply dot_phases_ref_at; try assumption; try lia.
Qed.

End Sums.

(** ** Which cells the grid writes *)

Section Coverage.
Variables (N T : Z).
Hypothesis HT : 1 <= T.

Lemma grid_writes_in_matrix i :
  N * N < SizeT.modulus -> grid_writes N T i -> Z.of_nat i < N * N.
Proof.
  intros Hfit (it & _ & Hg & ->). unfold store_guard in Hg.
  apply andb_prop in Hg as [Hy Hx]. apply Z.ltb_lt in Hy, Hx.
  assert (0 <= gy T it) as Hy0 by apply wrap_range.
  assert (0 <= gx T it) as Hx0 by apply wrap_range.
  unfold store_index. rewrite Z2Nat.id by nia. nia.
Qed.

(* The item in charge of row [i] and column [j]. *)
Lemma owner_in_grid i j :
  0 <= i < phases_of N T * T -> 0 <= j < phases_of N T * T ->
  Item (i / T) (j / T) (i mod T) (j mod T)
    ∈ grid_items (round_up N T) (round_up N T) T.
Proof.
  intros Hi Hj. apply elem_of_grid_items. cbn.
  rewrite round_up_groups by assumption.
  pose proof (Z.mod_pos_bound i T ltac:(lia)).
  pose proof (Z.mod_pos_bound j T ltac:(lia)).
  repeat split; try lia;
    try (apply Z.div_pos; lia); apply Z.div_lt_upper_bound; lia.
Qed.

Lemma owner_coords i j :
  0 <= i < phases_of N T * T -> 0 <= j < phases_of N T * T ->
  gy T (Item (i / T) (j / T) (i mod T) (j mod T)) = i /\
  gx T (Item (i / T) (j / T) (i mod T) (j mod T)) = j.
Proof.
  intros Hi Hj.
  destruct (grid_item_coords N T HT _ (owner_in_grid i j Hi Hj)) as [-> ->].
  cbn. pose proof (Z.div_mod i T ltac:(lia)). pose proof (Z.div_mod j T ltac:(lia)).
  lia.
Qed.

Lemma grid_writes_cover i j :
  N <= phases_of N T * T -> 0 <= i < N -> 0 <= j < N ->
  grid_writes N T (Z.to_nat (i * N + j)).
Proof.
  intros Hcover Hi Hj.
  exists (Item (i / T) (j / T) (i mod T) (j mod T)).
  destruct (owner_coords i j) as [Hy Hx]; [lia | lia |].
  split; [apply owner_in_grid; lia|].
  unfold store_guard, store_index. rewrite Hy, Hx.
  split; [|reflexivity].
  apply andb_true_intro. split; apply Z.ltb_lt; lia.
Qed.

End Coverage.

(** ** Schedules *)

Lemma row_major_valid N T : valid_schedule N T (row_major N T).
Proof. split; [reflexivity | intros g r; reflexivity]. Qed.

Lemma reversed_valid N T : valid_schedule N T (reversed N T).
Proof.
  split; [apply reverse_Permutation | intros g r; apply reverse_Permutation].
Qed.

(** ** The CPU reference *)

Section Verify.
Context {F : Type} `{FloatOps F}.
Variables (N : Z) (A B C : list F) (tol : F).
Hypothesis HA : matrix_buffer N A.
Hypothesis HB : matrix_buffer N B.
Hypothesis HC : matrix_buffer N C.

Lemma ref_sum_dot i j :
  0 <= i < N -> 0 <= j < N -> ref_sum A B N i j = Some (dot_ref A B N i j).
Proof.
  intros Hi Hj. unfold ref_sum, dot_ref. apply foldM_foldl.
  intros acc k Hk. apply elem_of_seqZ in Hk. unfold ref_step.
  rewrite !rd_elt by (assumption || lia). reflexivity.
Qed.

(* The loop over j, started at column [a] with [n] columns to go. *)
Lemma verify_cols_spec i (n : nat) : forall a,
  0 <= i < N -> 0 <= a -> a + Z.of_nat n <= N ->
  exists r,
    verify_cols A B C N tol i (seqZ a (Z.of_nat n)) = Some r /\
    match r with
    | None => forall j, a <= j < a + Z.of_nat n -> exceeds A B C N tol i j = false
    | Some m =>
        exists j, a <= j < a + Z.of_nat n /\
                  m = Mismatch i j (elt C N i j) (dot_ref A B N i j) /\
                  exceeds A B C N tol i j = true /\
                  forall j', a <= j' < j -> exceeds A B C N tol i j' = false
    end.
Proof.
  induction n as [|n IH]; intros a Hi Ha Hn.
  - exists None. split; [reflexivity|]. intros j Hj. lia.
  - rewrite seqZ_cons by lia. cbn [verify_cols].
    rewrite ref_sum_dot, rd_elt by (assumption || lia).
    cbn [mbind option_bind]. fold (exceeds A B C N tol i a).
    destruct (exceeds A B C N tol i a) eqn:Hex.
    + eexists. split; [reflexivity|]. exists a.
      split; [lia|]. split; [reflexivity|]. split; [exact Hex|]. intros j' Hj'. lia.
    + replace (Z.pred (Z.of_nat (S n))) with (Z.of_nat n) by lia.
      destruct (IH (Z.succ a)) as (r & -> & Hr); [lia..|].
      exists r. split; [reflexivity|]. destruct r as [m|].
      * destruct Hr as (j & Hj & -> & Hexj & Hfirst). exists j.
        split; [lia|]. split; [reflexivity|]. split; [exact Hexj|].
        intros j' Hj'. destruct (decide (j' = a)) as [->|Hne]; [exact Hex|].
        apply Hfirst. lia.
      * intros j Hj. destruct (decide (j = a)) as [->|Hne]; [exact Hex|].
        apply Hr. lia.
Qed.

Lemma verify_rows_spec (n : nat) : forall a,
  0 <= a -> a + Z.of_nat n <= N ->
  exists r,
    verify_rows A B C N tol (seqZ a (Z.of_nat n)) = Some r /\
    match r with
    | None => forall i j, a <= i < a + Z.of_nat n -> 0 <= j < N ->
                          exceeds A B C N tol i j = false
    | Some m =>
        exists i j, a <= i < a + Z.of_nat n /\ 0 <= j < N /\
                    m = Mismatch i j (elt C N i j) (dot_ref A B N i j) /\
                    exceeds A B C N tol i j = true /\
                    forall i' j', a <= i' -> 0 <= j' < N -> before i' j' i j ->
                                  exceeds A B C N tol i' j' = false
    end.
Proof.
  induction n as [|n IH]; intros a Ha Hn.
  - exists None. split; [reflexivity|]. intros i j Hi. lia.
  - rewrite seqZ_cons by lia. cbn [verify_rows].
    destruct (verify_cols_spec a (Z.to_nat N) 0) as (rc & Hrc & Hcols); [lia..|].
    rewrite Z2Nat.id in Hrc, Hcols by lia. rewrite Hrc. cbn [mbind option_bind].
    destruct rc as [m|].
    + exists (Some m). split; [reflexivity|].
      destruct Hcols as (j & Hj & -> & Hexj & Hfirst). exists a, j.
      split; [lia|]. split; [lia|]. split; [reflexivity|]. split; [exact Hexj|].
      intros i' j' Hi' Hj' [Hlt | [-> Hlt]]; [lia|]. apply Hfirst. lia.
    + replace (Z.pred (Z.of_nat (S n))) with (Z.of_nat n) by lia.
      destruct (IH (Z.succ a)) as (r & -> & Hr); [lia..|].
      exists r. split; [reflexivity|]. destruct r as [m|].
      * destruct Hr as (i & j & Hi & Hj & -> & Hexj & Hfirst). exists i, j.
        split; [lia|]. split; [lia|]. split; [reflexivity|]. split; [exact Hexj|].
        intros i' j' Hi' Hj' Hbefore.
        destruct (decide (i' = a)) as [->|Hne]; [apply Hcols; lia|].
        apply Hfirst; [lia | lia | exact Hbefore].
      * intros i j Hi Hj.
        destruct (decide (i = a)) as [->|Hne]; [apply Hcols; lia|].
        apply Hr; lia.
Qed.

End Verify.

(** ** Host initialisation *)

Section Init.
Context {F : Type} `{FloatOps F}.
Variables (N : Z) (A0 B0 : list F).
Hypothesis HA : matrix_buffer N A0.
Hypothesis HB : matrix_buffer N B0.

Lemma init_cell_spec i j (W : nat -> Prop) A B :
  0 <= i < N -> 0 <= j < N ->
  stored A0 (init_val_a N) W A -> stored B0 (init_val_b N) W B ->
  exists A' B',
    init_cell N i (A, B) j = Some (A', B') /\
    stored A0 (init_val_a N) (fun n => W n \/ n = Z.to_nat (i * N + j)) A' /\
    stored B0 (init_val_b N) (fun n => W n \/ n = Z.to_nat (i * N + j)) B'.
Proof.
  intros Hi Hj HstA HstB. unfold init_cell. cbn [fst snd].
  destruct HA as [HlenA Hfit], HB as [HlenB _].
  pose proof (index_in_matrix N i j Hi Hj) as Hidx.
  rewrite index_small by assumption.
  rewrite (wr_insert A) by (destruct HstA as [-> _]; lia).
  cbn [mbind option_bind].
  rewrite (wr_insert B) by (destruct HstB as [-> _]; lia).
  cbn [mbind option_bind]. eexists _, _. split; [reflexivity|].
  assert (Z.of_nat (Z.to_nat (i * N + j)) / N = i) as Hq.
  { rewrite Z2Nat.id by lia. symmetry.
    apply Z.div_unique with (r := j); lia. }
  assert (Z.of_nat (Z.to_nat (i * N + j)) mod N = j) as Hr.
  { rewrite Z2Nat.id by lia. symmetry.
    apply Z.mod_unique with (q := i); lia. }
  split.
  - pose proof (stored_insert A0 (init_val_a N) W A (Z.to_nat (i * N + j)) HstA) as Hins.
    unfold init_val_a at 2 in Hins. rewrite Hq, Hr in Hins. apply Hins. lia.
  - pose proof (stored_insert B0 (init_val_b N) W B (Z.to_nat (i * N + j)) HstB) as Hins.
    unfold init_val_b at 2 in Hins. rewrite Hq, Hr in Hins. apply Hins. lia.
Qed.

Lemma init_row_cells i js : forall (W : nat -> Prop) A B,
  0 <= i < N -> (forall j, j ∈ js -> 0 <= j < N) ->
  stored A0 (init_val_a N) W A -> stored B0 (init_val_b N) W B ->
  exists A' B',
    foldM (init_cell N i) (A, B) js = Some (A', B') /\
    stored A0 (init_val_a N)
      (fun n => W n \/ exists j, j ∈ js /\ n = Z.to_nat (i * N + j)) A' /\
    stored B0 (init_val_b N)
      (fun n => W n \/ exists j, j ∈ js /\ n = Z.to_nat (i * N + j)) B'.
Proof.
  induction js as [|j js IH]; intros W A B Hi Hjs HstA HstB.
  - exists A, B. split; [reflexivity|].
    split; (eapply stored_iff; [|eassumption]); intros n;
      (split; [auto|]; intros [Hn | (j & Hj & _)]; [assumption|];
       now apply elem_of_nil in Hj).
  - cbn [foldM].
    destruct (init_cell_spec i j W A B) as (A1 & B1 & -> & HstA1 & HstB1);
      [assumption | apply Hjs; left | assumption | assumption |].
    destruct (IH _ A1 B1 Hi (fun j' Hj' => Hjs j' (list_elem_of_further _ _ _ Hj'))
                HstA1 HstB1) as (A' & B' & -> & HstA' & HstB').
    exists A', B'. split; [reflexivity|].
    split; (eapply stored_iff; [|eassumption]); intros n; cbn beta; split.
    + intros [[Hn | ->] | (j' & Hj' & ->)]; [now left | right..].
      * exists j. split; [left | reflexivity].
      * exists j'. split; [now right | reflexivity].
    + intros [Hn | (j' & Hj' & ->)]; [now left; left|].
      apply elem_of_cons in Hj' as [-> | Hj']; [left; now right|].
      right. eauto.
    + intros [[Hn | ->] | (j' & Hj' & ->)]; [now left | right..].
      * exists j. split; [left | reflexivity].
      * exists j'. split; [now right | reflexivity].
    + intros [Hn | (j' & Hj' & ->)]; [now left; left|].
      apply elem_of_cons in Hj' as [-> | Hj']; [left; now right|].
      right. eauto.
Qed.

Lemma init_rows rows : forall (W : nat -> Prop) A B,
  (forall i, i ∈ rows -> 0 <= i < N) ->
  stored A0 (init_val_a N) W A -> stored B0 (init_val_b N) W B ->
  exists A' B',
    foldM (init_row N) (A, B) rows = Some (A', B') /\
    stored A0 (init_val_a N)
      (fun n => W n \/ exists i j, i ∈ rows /\ 0 <= j < N /\
                                   n = Z.to_nat (i * N + j)) A' /\
    stored B0 (init_val_b N)
      (fun n => W n \/ exists i j, i ∈ rows /\ 0 <= j < N /\
                                   n = Z.to_nat (i * N + j)) B'.
Proof.
  induction rows as [|i rows IH]; intros W A B Hrows HstA HstB.
  - exists A, B. split; [reflexivity|].
    split; (eapply stored_iff; [|eassumption]); intros n;
      (split; [auto|]; intros [Hn | (i & j & Hi & _)]; [assumption|];
       now apply elem_of_nil in Hi).
  - cbn [foldM]. unfold init_row at 1.
    destruct (init_row_cells i (seqZ 0 N) W A B) as (A1 & B1 & -> & HstA1 & HstB1);
      [apply Hrows; left | | assumption | assumption |].
    { intros j Hj. apply elem_of_seqZ in Hj. lia. }
    destruct (IH _ A1 B1 (fun i' Hi' => Hrows i' (list_elem_of_further _ _ _ Hi'))
                HstA1 HstB1) as (A' & B' & -> & HstA' & HstB').
    exists A', B'. split; [reflexivity|].
    split; (eapply stored_iff; [|eassumption]); intros n; cbn beta; split.
    + intros [[Hn | (j & Hj & ->)] | (i' & j & Hi' & Hj & ->)]; [now left | right..].
      * apply elem_of_seqZ in Hj. exists i, j. split; [left | split; [lia | reflexivity]].
      * exists i', j. split; [now right | auto].
    + intros [Hn | (i' & j & Hi' & Hj & ->)]; [now left; left|].
      apply elem_of_cons in Hi' as [-> | Hi'].
      * left. right. exists j. split; [apply elem_of_seqZ; lia | reflexivity].
      * right. eauto.
    + intros [[Hn | (j & Hj & ->)] | (i' & j & Hi' & Hj & ->)]; [now left | right..].
      * apply elem_of_seqZ in Hj. exists i, j. split; [left | split; [lia | reflexivity]].
      * exists i', j. split; [now right | auto].
    + intros [Hn | (i' & j & Hi' & Hj & ->)]; [now left; left|].
      apply elem_of_cons in Hi' as [-> | Hi'].
      * left. right. exists j. split; [apply elem_of_seqZ; lia | reflexivity].
      * right. eauto.
Qed.

(* The two loops fill every cell of A and of B. *)
Lemma init_matrices_cells :
  exists A' B',
    init_matrices N A0 B0 = Some (A', B') /\
    forall i j, 0 <= i < N -> 0 <= j < N ->
      A' !! Z.to_nat (i * N + j) = Some (init_a i j) /\
      B' !! Z.to_nat (i * N + j) = Some (init_b i j).
Proof.
  unfold init_matrices.
  destruct (init_rows (seqZ 0 N) (fun _ => False) A0 B0)
    as (A' & B' & -> & [_ HstA] & [_ HstB]); [|apply stored_init..|].
  { intros i Hi. apply elem_of_seqZ in Hi. lia. }
  exists A', B'. split; [reflexivity|]. intros i j Hi Hj.
  pose proof (index_in_matrix N i j Hi Hj) as Hidx.
  assert (Z.of_nat (Z.to_nat (i * N + j)) / N = i) as Hq.
  { rewrite Z2Nat.id by lia. symmetry.
    apply Z.div_unique with (r := j); lia. }
  assert (Z.of_nat (Z.to_nat (i * N + j)) mod N = j) as Hr.
  { rewrite Z2Nat.id by lia. symmetry.
    apply Z.mod_unique with (q := i); lia. }
  assert (exists i' j', i' ∈ seqZ 0 N /\ 0 <= j' < N /\
                        Z.to_nat (i * N + j) = Z.to_nat (i' * N + j')) as Hw.
  { exists i, j. split; [apply elem_of_seqZ; lia | auto]. }
  destruct (HstA (Z.to_nat (i * N + j))) as [HinA _].
  destruct (HstB (Z.to_nat (i * N + j))) as [HinB _].
  destruct HinA as [_ ->]; [now right|]. destruct HinB as [_ ->]; [now right|].
  unfold init_val_a, init_val_b. now rewrite Hq, Hr.
Qed.

End Init.

(** ** The launch as a whole *)

Section Launch.
Context {F : Type} `{FloatOps F}.

Lemma cell_value_tiled (A B : list F) N T i j :
  1 <= N -> 1 <= T -> N + T - 1 < SizeT.modulus ->
  0 <= i < N -> 0 <= j < N ->
  cell_value A B N T (Z.to_nat (i * N + j)) = dot_tiled A B N T i j.
Proof.
  intros HN HT Hov Hi Hj. unfold cell_value, dot_tiled.
  rewrite phases_of_no_overflow by assumption.
  rewrite Z2Nat.id by nia.
  replace ((i * N + j) / N) with i
    by (apply Z.div_unique with (r := j); lia).
  replace ((i * N + j) mod N) with j
    by (apply Z.mod_unique with (q := i); lia).
  reflexivity.
Qed.

Lemma cover_no_overflow N T :
  1 <= N -> 1 <= T -> N + T - 1 < SizeT.modulus -> N <= phases_of N T * T.
Proof.
  intros HN HT Hov. rewrite phases_of_no_overflow by assumption.
  pose proof (ceil_div_spec N T ltac:(lia)). lia.
Qed.

(* The launch when the grid derivation does not wrap. *)
Lemma multiply_no_wrap (N T : Z) (A B C : list F) (s : schedule) :
  1 <= N -> 1 <= T -> N + T - 1 < SizeT.modulus ->
  matrix_buffer N A -> matrix_buffer N B -> N * N <= Z.of_nat (length C) ->
  valid_schedule N T s ->
  exists C',
    multiply s N T (Mem A B C) = Some (Mem A B C') /\
    forall i j, 0 <= i < N -> 0 <= j < N ->
      C' !! Z.to_nat (i * N + j) = Some (dot_tiled A B N T i j).
Proof.
  intros HN HT Hov HA HB HC Hs.
  destruct (multiply_stored N T A B HA HB HT s C Hs HC) as (C' & Hrun & _ & Hst).
  exists C'. split; [exact Hrun|]. intros i j Hi Hj.
  destruct (Hst (Z.to_nat (i * N + j))) as [Hin _].
  destruct Hin as [_ ->].
  - apply grid_writes_cover; try assumption. now apply cover_no_overflow.
  - now rewrite cell_value_tiled.
Qed.

(* Two buffers that agree with the same values on the same written set
   and with the same initial contents elsewhere are equal. *)
Lemma stored_unique (C0 : list F) val (W : nat -> Prop) C1 C2 :
  (forall i, W i \/ ~ W i) ->
  stored C0 val W C1 -> stored C0 val W C2 -> C1 = C2.
Proof.
  intros Hdec [_ H1] [_ H2]. apply list_eq. intros i.
  destruct (H1 i) as [H1in H1out], (H2 i) as [H2in H2out].
  destruct (Hdec i) as [Hi | Hi].
  - destruct (H1in Hi) as [_ ->]. destruct (H2in Hi) as [_ ->]. reflexivity.
  - now rewrite H1out, H2out.
Qed.

Lemma grid_writes_dec N T i : grid_writes N T i \/ ~ grid_writes N T i.
Proof.
  destruct (decide (Exists (fun it => store_guard N T it = true /\
                                      i = store_index N T it)
                           (grid_items (round_up N T) (round_up N T) T)))
    as [Hex | Hnex].
  - left. apply Exists_exists in Hex as (it & Hit & Hrest). now exists it.
  - right. intros (it & Hit & Hrest). apply Hnex, Exists_exists. eauto.
Qed.

(* In the absence of wrap-around the grid writes exactly the matrix. *)
Lemma grid_writes_matrix N T i :
  1 <= N -> 1 <= T -> N + T - 1 < SizeT.modulus -> N * N < SizeT.modulus ->
  grid_writes N T i <-> Z.of_nat i < N * N.
Proof.
  intros HN HT Hov Hfit. split; [now apply grid_writes_in_matrix|].
  intros Hi.
  pose proof (Z.div_mod (Z.of_nat i) N ltac:(lia)) as Hdm.
  pose proof (Z.mod_pos_bound (Z.of_nat i) N ltac:(lia)) as Hm.
  assert (0 <= Z.of_nat i / N < N) as Hq.
  { split; [apply Z.div_pos; lia | apply Z.div_lt_upper_bound; lia]. }
  replace i with (Z.to_nat (Z.of_nat i / N * N + Z.of_nat i mod N)) by lia.
  apply grid_writes_cover; try assumption.
  now apply cover_no_overflow.
Qed.

(* The row and the column of an item of the grid determine the item. *)
Lemma grid_item_unique N T it1 it2 :
  1 <= T ->
  it1 ∈ grid_items (round_up N T) (round_up N T) T ->
  it2 ∈ grid_items (round_up N T) (round_up N T) T ->
  gy T it1 = gy T it2 -> gx T it1 = gx T it2 -> it1 = it2.
Proof.
  intros HT H1 H2 Hy Hx.
  destruct (grid_item_coords N T HT it1 H1) as [Hy1 Hx1].
  destruct (grid_item_coords N T HT it2 H2) as [Hy2 Hx2].
  apply elem_of_grid_items in H1 as (_ & Hl1 & Hl1').
  apply elem_of_grid_items in H2 as (_ & Hl2 & Hl2').
  rewrite Hy1, Hy2 in Hy. rewrite Hx1, Hx2 in Hx.
  destruct it1 as [a1 b1 c1 d1], it2 as [a2 b2 c2 d2]. cbn in *.
  destruct (Z.div_mod_unique T a1 a2 c1 c2) as [-> ->]; [lia | lia | lia |].
  destruct (Z.div_mod_unique T b1 b2 d1 d2) as [-> ->]; [lia | lia | lia |].
  reflexivity.
Qed.

Lemma store_index_inj N T it1 it2 :
  store_guard N T it1 = true -> store_guard N T it2 = true ->
  store_index N T it1 = store_index N T it2 ->
  gy T it1 = gy T it2 /\ gx T it1 = gx T it2.
Proof.
  unfold store_guard, store_index. intros Hg1 Hg2 Hidx.
  apply andb_prop in Hg1 as [Hy1 Hx1]. apply andb_prop in Hg2 as [Hy2 Hx2].
  apply Z.ltb_lt in Hy1, Hx1, Hy2, Hx2.
  assert (0 <= gy T it1) by apply wrap_range.
  assert (0 <= gx T it1) by apply wrap_range.
  assert (0 <= gy T it2) by apply wrap_range.
  assert (0 <= gx T it2) by apply wrap_range.
  apply Z2Nat.inj in Hidx; [|nia..].
  destruct (Z.div_mod_unique N (gy T it1) (gy T it2) (gx T it1) (gx T it2));
    [lia | lia | lia | auto].
Qed.

Lemma barrier_count_loop ps rest :
  barrier_count (flat_map phase_body ps ++ rest)
  = (2 * length ps + barrier_count rest)%nat.
Proof.
  unfold barrier_count. induction ps as [|p ps IH]; [reflexivity|].
  cbn [flat_map phase_body app List.filter is_barrier length].
  rewrite IH. lia.
Qed.

Lemma iteration_count_loop ps rest :
  iteration_count (flat_map phase_body ps ++ rest)
  = (length ps + iteration_count rest)%nat.
Proof.
  unfold iteration_count. induction ps as [|p ps IH]; [reflexivity|].
  cbn [flat_map phase_body app List.filter is_load length].
  rewrite IH. lia.
Qed.

(* A grid with at least one item was derived without wrap-around. *)
Lemma grid_nonempty_no_overflow N T it :
  SizeT.in_range N -> SizeT.in_range T -> 1 <= N -> 1 <= T ->
  it ∈ grid_items (round_up N T) (round_up N T) T ->
  phases_of N T = ceil_div N T.
Proof.
  intros HNr HTr HN HT Hit.
  apply elem_of_grid_items in Hit as ((Hg & _) & _).
  rewrite round_up_groups in Hg by assumption.
  destruct (Z_lt_le_dec (N + T - 1) SizeT.modulus) as [Hov | Hov].
  - now apply phases_of_no_overflow.
  - rewrite phases_of_overflow in Hg by assumption. lia.
Qed.

End Launch.

(** * Part III: the properties of the specification *)

Section Claims.
Context {F : Type} `{FloatOps F}.

(** C1.  For every N >= 1 and every tile width T >= 1 (T need not divide
    N; a width the launch can have, [local_range]), for all N x N buffers
    A and B and whatever the schedule, the launch completes and every
    in-range element C[i,j] holds the dot product of row i of A and column
    j of B accumulated in the order of the kernel (phase-major, then
    k-major, over the zero-padded operands).  That value is the sum of the
    triple loop as soon as adding 0.0 * 0.0 to that sum leaves it
    unchanged, as it does in exact arithmetic. *)
Theorem kernel_computes_product (N T : Z) (A B C : list F) (s : schedule) :
  1 <= N -> local_range T ->
  matrix_buffer N A -> matrix_buffer N B -> N * N <= Z.of_nat (length C) ->
  valid_schedule N T s ->
  exists C',
    multiply s N T (Mem A B C) = Some (Mem A B C') /\
    forall i j, 0 <= i < N -> 0 <= j < N ->
      C' !! Z.to_nat (i * N + j) = Some (dot_tiled A B N T i j) /\
      (fadd (dot_ref A B N i j) (fmul fzero fzero) = dot_ref A B N i j ->
       dot_tiled A B N T i j = dot_ref A B N i j).
Proof.
  intros HN HT HA HB HC Hs.
  assert (N + T - 1 < SizeT.modulus) as Hov
    by (apply local_range_no_wrap; [assumption | apply HA | assumption]).
  destruct HT as [HT _].
  destruct (multiply_no_wrap N T A B C s) as (C' & Hrun & Hval); try assumption.
  exists C'. split; [exact Hrun|]. intros i j Hi Hj.
  split; [now apply Hval|]. intros Hlaw. now apply dot_tiled_ref_at.
Qed.

(** C2.  For every N and T (also when T does not divide N or T > N) a
    staged load never reads A or B outside [0, N*N): the load happens only
    under its coordinate guard, where the index is in range, and the other
    branch stages 0.0; the padding does not perturb the in-range sums, and
    the launch as a whole never faults. *)
Theorem loads_stay_in_bounds (N T : Z) (A B : list F) :
  matrix_buffer N A -> matrix_buffer N B ->
  (forall it p,
     (if (gy T it <? N) && (a_col T it p <? N)
      then 0 <= SizeT.add (SizeT.mul (gy T it) N) (a_col T it p) < N * N /\
           load_a N T it p A
           = rd A (SizeT.add (SizeT.mul (gy T it) N) (a_col T it p)) /\
           is_Some (load_a N T it p A)
      else load_a N T it p A = Some fzero) /\
     (if (b_row T it p <? N) && (gx T it <? N)
      then 0 <= SizeT.add (SizeT.mul (b_row T it p) N) (gx T it) < N * N /\
           load_b N T it p B
           = rd B (SizeT.add (SizeT.mul (b_row T it p) N) (gx T it)) /\
           is_Some (load_b N T it p B)
      else load_b N T it p B = Some fzero)) /\
  (forall q i j,
     (forall x : F, fadd x (fmul fzero fzero) = x) ->
     0 <= T -> 0 <= q -> N <= q * T -> 0 <= i < N -> 0 <= j < N ->
     dot_phases A B N T q i j = dot_ref A B N i j) /\
  (forall C s,
     1 <= T -> N * N <= Z.of_nat (length C) -> valid_schedule N T s ->
     is_Some (multiply s N T (Mem A B C))).
Proof.
  intros HA HB. split; [|split].
  - intros it p. split.
    + pose proof (load_a_pad N T A HA it p) as Hl. unfold load_a in *.
      destruct ((gy T it <? N) && (a_col T it p <? N)) eqn:Hg; [|reflexivity].
      split; [|split; [reflexivity | rewrite Hl; eauto]].
      apply andb_prop in Hg as [Hy Hx]. apply Z.ltb_lt in Hy, Hx.
      assert (0 <= gy T it) by apply wrap_range.
      assert (0 <= a_col T it p) by apply wrap_range.
      rewrite index_small; [apply index_in_matrix | apply HA | |]; lia.
    + pose proof (load_b_pad N T B HB it p) as Hl. unfold load_b in *.
      destruct ((b_row T it p <? N) && (gx T it <? N)) eqn:Hg; [|reflexivity].
      split; [|split; [reflexivity | rewrite Hl; eauto]].
      apply andb_prop in Hg as [Hy Hx]. apply Z.ltb_lt in Hy, Hx.
      assert (0 <= b_row T it p) by apply wrap_range.
      assert (0 <= gx T it) by apply wrap_range.
      rewrite index_small; [apply index_in_matrix | apply HB | |]; lia.
  - intros q i j Hlaw HT Hq Hcover Hi Hj. now apply dot_phases_ref.
  - intros C s HT HC Hs.
    destruct (multiply_stored N T A B HA HB HT s C Hs HC) as (C' & -> & _).
    eauto.
Qed.

(** C3.  For fixed A, B and N, any two tile widths T1, T2 >= 1 (widths a
    launch can have, [local_range]) give, under exact arithmetic
    ([x + 0 * 0 = x]) and whatever the schedules, the same buffer C, whose
    in-range elements are the sums of the untiled triple loop. *)
Theorem tiling_does_not_change_result (N T1 T2 : Z) (A B C : list F)
    (s1 s2 : schedule) :
  1 <= N -> local_range T1 -> local_range T2 ->
  matrix_buffer N A -> matrix_buffer N B -> N * N <= Z.of_nat (length C) ->
  valid_schedule N T1 s1 -> valid_schedule N T2 s2 ->
  (forall x : F, fadd x (fmul fzero fzero) = x) ->
  exists C',
    multiply s1 N T1 (Mem A B C) = Some (Mem A B C') /\
    multiply s2 N T2 (Mem A B C) = Some (Mem A B C') /\
    forall i j, 0 <= i < N -> 0 <= j < N ->
      C' !! Z.to_nat (i * N + j) = Some (dot_ref A B N i j).
Proof.
  intros HN HR1 HR2 HA HB HC Hs1 Hs2 Hlaw.
  assert (N + T1 - 1 < SizeT.modulus) as Hov1
    by (apply local_range_no_wrap; [assumption | apply HA | assumption]).
  assert (N + T2 - 1 < SizeT.modulus) as Hov2
    by (apply local_range_no_wrap; [assumption | apply HA | assumption]).
  destruct HR1 as [HT1 _]. destruct HR2 as [HT2 _].
  destruct (multiply_stored N T1 A B HA HB HT1 s1 C Hs1 HC) as (C1 & Hrun1 & Hst1).
  destruct (multiply_stored N T2 A B HA HB HT2 s2 C Hs2 HC) as (C2 & Hrun2 & Hst2).
  set (val := fun i : nat => dot_ref A B N (Z.of_nat i / N) (Z.of_nat i mod N)).
  set (W := fun i : nat => Z.of_nat i < N * N).
  assert (forall T C', 1 <= T -> N + T - 1 < SizeT.modulus ->
            stored C (cell_value A B N T) (grid_writes N T) C' ->
            stored C val W C') as Hnorm.
  { intros T C' HT Hov [Hlen Hst]. split; [exact Hlen|]. intros i.
    destruct (Hst i) as [Hin Hout]. subst W. cbn beta.
    rewrite <- (grid_writes_matrix N T i) by (try assumption; apply HA).
    split; [|exact Hout]. intros Hi. destruct (Hin Hi) as [Hlt ->].
    split; [exact Hlt|]. f_equal. subst val. cbn beta. unfold cell_value.
    apply grid_writes_matrix in Hi; try assumption; [|apply HA].
    pose proof (Z.mod_pos_bound (Z.of_nat i) N ltac:(lia)) as Hm.
    apply dot_phases_ref; try assumption; try lia.
    - now apply phases_of_nonneg.
    - now apply cover_no_overflow.
    - split; [apply Z.div_pos; lia | apply Z.div_lt_upper_bound; lia]. }
  apply Hnorm in Hst1; [|assumption..]. apply Hnorm in Hst2; [|assumption..].
  assert (C1 = C2) as <-.
  { apply (stored_unique C val W); [|assumption..]. intros i. subst W. cbn. lia. }
  exists C1. split; [exact Hrun1|]. split; [exact Hrun2|].
  intros i j Hi Hj. destruct Hst1 as [_ Hst1].
  destruct (Hst1 (Z.to_nat (i * N + j))) as [Hin _].
  destruct Hin as [_ ->]; [subst W; cbn; nia|].
  f_equal. subst val. cbn beta. rewrite Z2Nat.id by nia.
  replace ((i * N + j) / N) with i
    by (apply Z.div_unique with (r := j); lia).
  replace ((i * N + j) mod N) with j
    by (apply Z.mod_unique with (q := i); lia).
  reflexivity.
Qed.

(** C4.  The final in-range contents of C do not depend on its initial
    contents: for any two initial C buffers and the same A, B, N, T (a
    tile width the launch can have, [local_range]) and schedule, both
    launches complete with the same C[i,j] for all 0 <= i, j < N, and each
    such element is stored by exactly one work-item of the grid. *)
Theorem result_independent_of_initial_C (N T : Z) (A B C1 C2 : list F)
    (s : schedule) :
  1 <= N -> local_range T ->
  matrix_buffer N A -> matrix_buffer N B ->
  N * N <= Z.of_nat (length C1) -> N * N <= Z.of_nat (length C2) ->
  valid_schedule N T s ->
  exists C1' C2',
    multiply s N T (Mem A B C1) = Some (Mem A B C1') /\
    multiply s N T (Mem A B C2) = Some (Mem A B C2') /\
    forall i j, 0 <= i < N -> 0 <= j < N ->
      C1' !! Z.to_nat (i * N + j) = C2' !! Z.to_nat (i * N + j) /\
      is_Some (C1' !! Z.to_nat (i * N + j)) /\
      exists! it,
        it ∈ grid_items (round_up N T) (round_up N T) T /\
        store_guard N T it = true /\
        store_index N T it = Z.to_nat (i * N + j).
Proof.
  intros HN HR HA HB HC1 HC2 Hs.
  assert (N + T - 1 < SizeT.modulus) as Hov
    by (apply local_range_no_wrap; [assumption | apply HA | assumption]).
  destruct HR as [HT _].
  destruct (multiply_no_wrap N T A B C1 s) as (C1' & Hrun1 & Hval1);
    try assumption.
  destruct (multiply_no_wrap N T A B C2 s) as (C2' & Hrun2 & Hval2);
    try assumption.
  exists C1', C2'. split; [exact Hrun1|]. split; [exact Hrun2|].
  intros i j Hi Hj.
  rewrite (Hval1 i j Hi Hj), (Hval2 i j Hi Hj).
  split; [reflexivity|]. split; [eauto|].
  destruct (grid_writes_cover N T HT i j) as (it & Hit & Hg & Hidx);
    [now apply cover_no_overflow | assumption | assumption |].
  exists it. split; [auto|].
  intros it' (Hit' & Hg' & Hidx').
  destruct (store_index_inj N T it it' Hg Hg') as [Hy Hx]; [congruence|].
  now apply (grid_item_unique N T).
Qed.

(** C5.  The launch is deterministic for a fixed T: with the same A, B,
    C, N and T, any two schedules (orders of the groups and, between two
    barriers, of the items of a group) complete with the same memory, and
    every cell the grid writes holds the sum accumulated phase by phase
    and, within a phase, along k. *)
Theorem kernel_deterministic (N T : Z) (A B C : list F) (s1 s2 : schedule) :
  1 <= T ->
  matrix_buffer N A -> matrix_buffer N B -> N * N <= Z.of_nat (length C) ->
  valid_schedule N T s1 -> valid_schedule N T s2 ->
  exists C',
    multiply s1 N T (Mem A B C) = Some (Mem A B C') /\
    multiply s2 N T (Mem A B C) = Some (Mem A B C') /\
    forall it,
      it ∈ grid_items (round_up N T) (round_up N T) T ->
      store_guard N T it = true ->
      C' !! store_index N T it
      = Some (dot_phases A B N T (phases_of N T) (gy T it) (gx T it)).
Proof.
  intros HT HA HB HC Hs1 Hs2.
  destruct (multiply_stored N T A B HA HB HT s1 C Hs1 HC) as (C1 & Hrun1 & Hst1).
  destruct (multiply_stored N T A B HA HB HT s2 C Hs2 HC) as (C2 & Hrun2 & Hst2).
  assert (C1 = C2) as <-.
  { apply (stored_unique C (cell_value A B N T) (grid_writes N T));
      [apply grid_writes_dec | assumption..]. }
  exists C1. split; [exact Hrun1|]. split; [exact Hrun2|].
  intros it Hit Hg. destruct Hst1 as [_ Hst1].
  destruct (Hst1 (store_index N T it)) as [Hin _].
  destruct Hin as [_ ->]; [now exists it|].
  f_equal. unfold cell_value, store_index.
  destruct (store_index_small N T A HA it Hg) as [_ Hidx].
  unfold store_guard in Hg. apply andb_prop in Hg as [Hy Hx].
  apply Z.ltb_lt in Hy, Hx.
  assert (0 <= gy T it) by apply wrap_range.
  assert (0 <= gx T it) by apply wrap_range.
  rewrite Z2Nat.id by lia.
  replace ((gy T it * N + gx T it) / N) with (gy T it)
    by (apply Z.div_unique with (r := gx T it); lia).
  replace ((gy T it * N + gx T it) mod N) with (gx T it)
    by (apply Z.mod_unique with (q := gy T it); lia).
  reflexivity.
Qed.

(** C6.  Every work-item of every work-group reaches each of the two
    barriers of every phase.  A work-group of the grid is run with its
    barriers as synchronisation points ([sync_group]: an item that leaves
    the lambda, or is not run, while another one waits at a barrier makes
    the run undefined), in whatever order the items are run between two
    barriers.  The run completes; every item of the group ends with no
    code left, having executed exactly its whole instruction stream, that
    is ceil(N/T) iterations of the phase loop and 2 * ceil(N/T) barriers;
    the memory it leaves is the one [run_group] computes, with the
    accumulated sum stored in every cell whose item passes the guard. *)
Theorem every_item_reaches_every_barrier (N T : Z) (A B C : list F)
    (g : Z * Z) (order : nat -> list item) :
  1 <= N -> 1 <= T -> SizeT.in_range T ->
  matrix_buffer N A -> matrix_buffer N B -> N * N <= Z.of_nat (length C) ->
  g ∈ grid_groups (round_up N T) (round_up N T) T ->
  (forall r, order r ≡ₚ group_items T g) ->
  exists pool C',
    sync_group N T (phases_of N T) order (group_items T g) (Mem A B C)
    = Some (pool, Mem A B C') /\
    run_group N T (phases_of N T) order (group_items T g) (Mem A B C)
    = Some (Mem A B C') /\
    (forall it, it ∈ group_items T g ->
       exists th,
         pool !! item_local it = Some th /\
         th_code th = [] /\
         th_done th = item_body (phases_of N T) it /\
         th_done th = flat_map phase_body (seqZ 0 (ceil_div N T)) ++ [IStore] /\
         iteration_count (th_done th) = Z.to_nat (ceil_div N T) /\
         barrier_count (th_done th) = (2 * Z.to_nat (ceil_div N T))%nat) /\
    (forall it, it ∈ group_items T g -> store_guard N T it = true ->
       C' !! store_index N T it
       = Some (cell_value A B N T (store_index N T it))).
Proof.
  intros HN HT HTr HA HB HC Hg Horder.
  assert (SizeT.in_range N) as HNr.
  { destruct HA as [_ HNN]. unfold SizeT.in_range. nia. }
  assert (Item g.1 g.2 0 0 ∈ grid_items (round_up N T) (round_up N T) T) as Hit0.
  { unfold grid_items. apply list_elem_of_bind. exists g. split; [|exact Hg].
    apply elem_of_group_items. cbn. split; [now destruct g | lia]. }
  pose proof (grid_nonempty_no_overflow N T _ HNr HTr HN HT Hit0) as Hph.
  destruct (run_group_spec N T A B HA HB HT (phases_of N T) g order Horder
              C C (cell_value A B N T) (fun _ => False) HC (stored_init C _))
    as (C' & Hrun & Hst).
  { intros it Hit Hguard.
    assert (it ∈ grid_items (round_up N T) (round_up N T) T) as Hgrid.
    { unfold grid_items. apply list_elem_of_bind. exists g. auto. }
    apply elem_of_group_items in Hit as (<- & _).
    now apply grid_item_value. }
  exists (uniform_pool (group_items T g)
            (Thread [] (flat_map phase_body (seqZ 0 (phases_of N T)) ++ [IStore]))),
         C'.
  split; [|split; [exact Hrun|split]].
  - rewrite (sync_group_run N T g order HT Horder), Hrun. reflexivity.
  - intros it Hit. eexists. split.
    + rewrite lookup_uniform_pool, decide_True; [reflexivity|].
      apply list_elem_of_fmap. eauto.
    + cbn [th_code th_done]. split; [reflexivity|]. split; [reflexivity|].
      rewrite Hph. split; [reflexivity|].
      rewrite iteration_count_loop, barrier_count_loop, length_seqZ.
      cbn [iteration_count barrier_count List.filter is_load is_barrier length].
      lia.
  - intros it Hit Hguard. destruct Hst as [_ Hst].
    destruct (Hst (store_index N T it)) as [Hin _].
    apply Hin. right. exists it. auto.
Qed.

(** C8.  The kernel never writes A or B, and an item whose row or column
    is outside [0, N) stores nothing: no instruction changes A or B, the
    store of an item that fails the guard leaves C as it is, and a launch
    completes with A and B intact, C of the same length and every cell of
    C beyond the N * N matrix unchanged. *)
Theorem kernel_frame (N T : Z) (A B C : list F) (s : schedule) :
  1 <= T ->
  matrix_buffer N A -> matrix_buffer N B -> N * N <= Z.of_nat (length C) ->
  valid_schedule N T s ->
  (forall it st st' i,
     exec_instr N T it st i = Some st' ->
     memA (glob st') = memA (glob st) /\
     memB (glob st') = memB (glob st) /\
     (store_guard N T it = false -> memC (glob st') = memC (glob st))) /\
  exists C',
    multiply s N T (Mem A B C) = Some (Mem A B C') /\
    length C' = length C /\
    (forall i, ~ grid_writes N T i -> C' !! i = C !! i) /\
    (forall i, N * N <= Z.of_nat i -> C' !! i = C !! i).
Proof.
  intros HT HA HB HC Hs. split.
  - intros it st st' i Hexec. destruct i; cbn in Hexec.
    + destruct (load_a N T it p (memA (glob st))); [|discriminate].
      cbn in Hexec.
      destruct (tile_wr T (tileA st) (local0 it) (local1 it) f); [|discriminate].
      cbn in Hexec.
      destruct (load_b N T it p (memB (glob st))); [|discriminate].
      cbn in Hexec.
      destruct (tile_wr T (tileB st) (local0 it) (local1 it) f0); [|discriminate].
      cbn in Hexec. injection Hexec as <-. auto.
    + injection Hexec as <-. auto.
    + destruct (accs st !! item_local it); [|discriminate]. cbn in Hexec.
      destruct (foldM _ f (seqZ 0 T)); [|discriminate].
      cbn in Hexec. injection Hexec as <-. auto.
    + destruct (accs st !! item_local it); [|discriminate]. cbn in Hexec.
      fold (store_guard N T it) in Hexec.
      destruct (store_guard N T it).
      * destruct (wr _ _ f); [|discriminate]. cbn in Hexec.
        injection Hexec as <-. cbn. split; [|split]; [reflexivity..|discriminate].
      * injection Hexec as <-. auto.
  - destruct (multiply_stored N T A B HA HB HT s C Hs HC) as (C' & Hrun & Hlen & Hst).
    exists C'. split; [exact Hrun|]. split; [exact Hlen|]. split.
    + intros i Hi. now apply (Hst i).
    + intros i Hi. apply (Hst i). intros Hw.
      apply grid_writes_in_matrix in Hw; [lia | apply HA].
Qed.

(** C10.  The host loops store B[i*N+j] = float((i - j) % 5) computed in
    std::size_t: the value is float(((i - j) mod 2^64) mod 5).  For j > i
    the subtraction wraps to 2^64 + i - j, whose remainder is
    (i - j + 1) mod 5 and differs from both the mathematical and the
    signed remainder of i - j; B[0][1] is float(0).  For j <= i nothing
    wraps.  A[i*N+j] = float((i + j) mod 7): the sum does not wrap for an
    addressable matrix. *)
Theorem init_b_wraps (N : Z) (A B : list F) (i j : Z) :
  matrix_buffer N A -> matrix_buffer N B -> 0 <= i < N -> 0 <= j < N ->
  exists A' B',
    init_matrices N A B = Some (A', B') /\
    B' !! Z.to_nat (i * N + j) = Some (of_size (((i - j) mod 2 ^ 64) mod 5)) /\
    A' !! Z.to_nat (i * N + j) = Some (of_size ((i + j) mod 7)) /\
    (i < j ->
     (i - j) mod 2 ^ 64 = 2 ^ 64 + i - j /\
     ((i - j) mod 2 ^ 64) mod 5 = (i - j + 1) mod 5 /\
     ((i - j) mod 2 ^ 64) mod 5 <> (i - j) mod 5 /\
     ((i - j) mod 2 ^ 64) mod 5 <> Z.rem (i - j) 5) /\
    (j <= i -> ((i - j) mod 2 ^ 64) mod 5 = (i - j) mod 5) /\
    init_b 0 1 = of_size 0.
Proof.
  intros HA HB Hi Hj.
  destruct (init_matrices_cells N A B HA HB) as (A' & B' & Hrun & Hcells).
  exists A', B'. split; [exact Hrun|].
  destruct (Hcells i j Hi Hj) as [HcA HcB].
  assert (N * N < 2 ^ 64) as Hfit by apply HA.
  assert (i + j < 2 ^ 64) as Hsum by nia.
  split; [exact HcB|]. split; [|split; [|split; [|reflexivity]]].
  - rewrite HcA. unfold init_a, SizeT.rem, SizeT.add, SizeT.wrap, SizeT.modulus.
    rewrite (Z.mod_small (i + j)) by lia. reflexivity.
  - intros Hlt.
    assert ((i - j) mod 2 ^ 64 = 2 ^ 64 + i - j) as Hwrap.
    { symmetry. apply Z.mod_unique with (q := -1); lia. }
    rewrite Hwrap. split; [reflexivity|].
    assert ((2 ^ 64 + i - j) mod 5 = (i - j + 1) mod 5) as ->.
    { replace (2 ^ 64 + i - j) with (i - j + 1 + 3689348814741910323 * 5) by lia.
      now rewrite Z.mod_add. }
    assert ((i - j + 1) mod 5 <> (i - j) mod 5) as Hne.
    { pose proof (Z.div_mod (i - j + 1) 5 ltac:(lia)).
      pose proof (Z.div_mod (i - j) 5 ltac:(lia)).
      pose proof (Z.mod_pos_bound (i - j + 1) 5 ltac:(lia)).
      pose proof (Z.mod_pos_bound (i - j) 5 ltac:(lia)). lia. }
    split; [reflexivity|]. split; [exact Hne|]. intros Heq.
    pose proof (Z.rem_nonpos (i - j) 5 ltac:(lia) ltac:(lia)) as Hrem.
    pose proof (Z.mod_pos_bound (i - j + 1) 5 ltac:(lia)) as Hmod.
    assert (Z.rem (i - j) 5 = 0) as Hz by lia.
    apply Z.rem_mod_eq_0 in Hz; [|lia]. rewrite Hz in Hne. lia.
  - intros Hle. rewrite (Z.mod_small (i - j)) by lia. reflexivity.
Qed.

End Claims.

(** ** Where the code departs from its specification *)

(** C7.  The grid derivation is round_up(N, T) = ceil(N/T) * T with
    ceil(N/T) phases only as long as N + T - 1 fits in std::size_t:
    round_up adds before it divides and the sum wraps.  At x = 2 and
    tile = 2^64 - 1 the multiple of tile to round up to is tile itself,
    which fits, but round_up returns 0, which is below x, and the number
    of phases is 0 instead of 1; at x = 2^64 - 1 and tile = 3, x is
    itself a multiple of 3, and round_up returns 0 again. *)
Lemma round_up_wraps :
  (SizeT.in_range 2 /\ SizeT.in_range huge_tile /\ 1 <= 2 /\ 1 <= huge_tile) /\
  ceil_div 2 huge_tile = 1 /\
  SizeT.in_range (ceil_div 2 huge_tile * huge_tile) /\
  round_up 2 huge_tile = 0 /\
  round_up 2 huge_tile <> ceil_div 2 huge_tile * huge_tile /\
  round_up 2 huge_tile < 2 /\
  phases_of 2 huge_tile = 0 /\
  phases_of 2 huge_tile <> ceil_div 2 huge_tile /\
  ceil_div huge_tile 3 * 3 = huge_tile /\
  round_up huge_tile 3 = 0.
Proof.
  split.
  - repeat split; try reflexivity; discriminate.
  - repeat split; try reflexivity; vm_compute; discriminate.
Qed.

(** C9.  verify_reference in binary32 on N = 1, A = B = [0.0], C = [NaN]
    with the default tolerance 1e-4f: the reference sum is 0.0 and
    |NaN - 0.0| <= tol is false, yet the test of line 24,
    |NaN - 0.0| > tol, is false too, so verify_reference returns true and
    writes nothing to std::cerr.  The function accepts a result that is
    not within the tolerance. *)
Lemma verify_reference_accepts_nan :
  (0 <= 1 /\ matrix_buffer 1 [Binary32.pzero] /\ matrix_buffer 1 [Binary32.nan]) /\
  verify_reference [Binary32.pzero] [Binary32.pzero] [Binary32.nan] 1
    Binary32.tol_default
  = Some (true, []) /\
  dot_ref [Binary32.pzero] [Binary32.pzero] 1 0 0 = Binary32.pzero /\
  within [Binary32.pzero] [Binary32.pzero] [Binary32.nan] 1
    Binary32.tol_default 0 0
  = false /\
  ~ (forall i j, 0 <= i < 1 -> 0 <= j < 1 ->
       within [Binary32.pzero] [Binary32.pzero] [Binary32.nan] 1
         Binary32.tol_default i j = true).
Proof.
  split; [repeat split; (reflexivity || discriminate)|].
  split; [vm_compute; reflexivity|].
  split; [vm_compute; reflexivity|].
  split; [vm_compute; reflexivity|].
  intros Hall. specialize (Hall 0 0 ltac:(lia) ltac:(lia)).
  vm_compute in Hall. discriminate.
Qed.

(** ** Concrete runs *)

Example multiply_2x2_tile1 :
  multiply (row_major 2 1) 2 1 (Mem A2 B2 zeros2)
  = Some (Mem A2 B2 [19; 22; 43; 50]).
Proof. vm_compute. reflexivity. Qed.

Example multiply_3x3_tile2 :
  multiply (row_major 3 2) 3 2 (Mem A3 I3 nines3) = Some (Mem A3 I3 A3).
Proof. vm_compute. reflexivity. Qed.

(* N = 3, T = 16: the tile is larger than the matrix. *)
Example multiply_3x3_tile16 :
  multiply (row_major 3 16) 3 16 (Mem A3 I3 nines3) = Some (Mem A3 I3 A3).
Proof. vm_compute. reflexivity. Qed.

(* N = 1: C[0,0] = A[0,0] * B[0,0]. *)
Example multiply_1x1 :
  multiply (row_major 1 4) 1 4 (Mem [6] [7] [0]) = Some (Mem [6] [7] [42]).
Proof. vm_compute. reflexivity. Qed.

(* N = 4, T = 2, A the identity and B all 2.0: C equals B. *)
Example multiply_identity_4 :
  multiply (row_major 4 2) 4 2 (Mem I4 twos4 (replicate 16 0))
  = Some (Mem I4 twos4 twos4).
Proof. vm_compute. reflexivity. Qed.

(* N = 10, T = 4: the tile does not divide the matrix; the last groups are
   partly outside it. *)
Example multiply_10_tile4 :
  multiply (reversed 10 4) 10 4 (Mem A10 B10 (replicate 100 0))
  = Some (Mem A10 B10 (matmul_ref A10 B10 10)).
Proof. vm_compute. reflexivity. Qed.

(* The same 2 x 2 product in binary32. *)
Example multiply_2x2_binary32 :
  let f := Binary32.of_Z in
  multiply (row_major 2 2) 2 2
    (Mem (f <$> A2) (f <$> B2) (f <$> zeros2))
  = Some (Mem (f <$> A2) (f <$> B2) (f <$> [19; 22; 43; 50])).
Proof. vm_compute. reflexivity. Qed.

(** ** Instances and counterexamples *)

Lemma kernel_computes_product_witness :
  (1 <= 3 /\ local_range 2 /\
   matrix_buffer 3 A3 /\ matrix_buffer 3 I3 /\
   3 * 3 <= Z.of_nat (length nines3) /\ valid_schedule 3 2 (row_major 3 2)) /\
  exists C',
    multiply (row_major 3 2) 3 2 (Mem A3 I3 nines3) = Some (Mem A3 I3 C') /\
    forall i j, 0 <= i < 3 -> 0 <= j < 3 ->
      C' !! Z.to_nat (i * 3 + j) = Some (dot_tiled A3 I3 3 2 i j) /\
      (fadd (dot_ref A3 I3 3 i j) (fmul fzero fzero) = dot_ref A3 I3 3 i j ->
       dot_tiled A3 I3 3 2 i j = dot_ref A3 I3 3 i j).
Proof.
  assert (1 <= 3) as H1 by lia.
  assert (local_range 2) as H2 by (split; [lia | reflexivity]).
  assert (matrix_buffer 3 A3) as H4 by (split; reflexivity).
  assert (matrix_buffer 3 I3) as H5 by (split; reflexivity).
  assert (3 * 3 <= Z.of_nat (length nines3)) as H6 by (simpl; lia).
  assert (valid_schedule 3 2 (row_major 3 2)) as H7
    by (split; [reflexivity | intros g r; reflexivity]).
  split; [tauto|].
  exact (kernel_computes_product 3 2 A3 I3 nines3 (row_major 3 2)
           H1 H2 H4 H5 H6 H7).
Defined.

Lemma loads_stay_in_bounds_witness :
  (matrix_buffer 3 A3 /\ matrix_buffer 3 I3) /\
  (forall it p,
     (if (gy 2 it <? 3) && (a_col 2 it p <? 3)
      then 0 <= SizeT.add (SizeT.mul (gy 2 it) 3) (a_col 2 it p) < 3 * 3 /\
           load_a 3 2 it p A3
           = rd A3 (SizeT.add (SizeT.mul (gy 2 it) 3) (a_col 2 it p)) /\
           is_Some (load_a 3 2 it p A3)
      else load_a 3 2 it p A3 = Some fzero) /\
     (if (b_row 2 it p <? 3) && (gx 2 it <? 3)
      then 0 <= SizeT.add (SizeT.mul (b_row 2 it p) 3) (gx 2 it) < 3 * 3 /\
           load_b 3 2 it p I3
           = rd I3 (SizeT.add (SizeT.mul (b_row 2 it p) 3) (gx 2 it)) /\
           is_Some (load_b 3 2 it p I3)
      else load_b 3 2 it p I3 = Some fzero)) /\
  (forall q i j,
     (forall x : Z, fadd x (fmul fzero fzero) = x) ->
     0 <= 2 -> 0 <= q -> 3 <= q * 2 -> 0 <= i < 3 -> 0 <= j < 3 ->
     dot_phases A3 I3 3 2 q i j = dot_ref A3 I3 3 i j) /\
  (forall C s,
     1 <= 2 -> 3 * 3 <= Z.of_nat (length C) -> valid_schedule 3 2 s ->
     is_Some (multiply s 3 2 (Mem A3 I3 C))).
Proof.
  assert (matrix_buffer 3 A3) as H1 by (split; reflexivity).
  assert (matrix_buffer 3 I3) as H2 by (split; reflexivity).
  split; [tauto|].
  exact (loads_stay_in_bounds 3 2 A3 I3 H1 H2).
Defined.

Lemma tiling_does_not_change_result_witness :
  (1 <= 2 /\ local_range 1 /\ local_range 2 /\
   matrix_buffer 2 A2 /\ matrix_buffer 2 B2 /\
   2 * 2 <= Z.of_nat (length zeros2) /\
   valid_schedule 2 1 (row_major 2 1) /\ valid_schedule 2 2 (reversed 2 2) /\
   (forall x : Z, fadd x (fmul fzero fzero) = x)) /\
  exists C',
    multiply (row_major 2 1) 2 1 (Mem A2 B2 zeros2) = Some (Mem A2 B2 C') /\
    multiply (reversed 2 2) 2 2 (Mem A2 B2 zeros2) = Some (Mem A2 B2 C') /\
    forall i j, 0 <= i < 2 -> 0 <= j < 2 ->
      C' !! Z.to_nat (i * 2 + j) = Some (dot_ref A2 B2 2 i j).
Proof.
  assert (1 <= 2) as H1 by lia.
  assert (local_range 1) as H3 by (split; [lia | reflexivity]).
  assert (local_range 2) as H4 by (split; [lia | reflexivity]).
  assert (matrix_buffer 2 A2) as H5 by (split; reflexivity).
  assert (matrix_buffer 2 B2) as H6 by (split; reflexivity).
  assert (2 * 2 <= Z.of_nat (length zeros2)) as H7 by (simpl; lia).
  assert (valid_schedule 2 1 (row_major 2 1)) as H8
    by (split; [reflexivity | intros g r; reflexivity]).
  assert (valid_schedule 2 2 (reversed 2 2)) as H9 by apply reversed_valid.
  assert (forall x : Z, fadd x (fmul fzero fzero) = x) as H10
    by (intros x; simpl; lia).
  split; [tauto|].
  exact (tiling_does_not_change_result 2 1 2 A2 B2 zeros2
           (row_major 2 1) (reversed 2 2) H1 H3 H4 H5 H6 H7 H8 H9 H10).
Defined.

Lemma result_independent_of_initial_C_witness :
  (1 <= 3 /\ local_range 2 /\
   matrix_buffer 3 A3 /\ matrix_buffer 3 I3 /\
   3 * 3 <= Z.of_nat (length nines3) /\ 3 * 3 <= Z.of_nat (length A3) /\
   valid_schedule 3 2 (reversed 3 2)) /\
  exists C1' C2',
    multiply (reversed 3 2) 3 2 (Mem A3 I3 nines3) = Some (Mem A3 I3 C1') /\
    multiply (reversed 3 2) 3 2 (Mem A3 I3 A3) = Some (Mem A3 I3 C2') /\
    forall i j, 0 <= i < 3 -> 0 <= j < 3 ->
      C1' !! Z.to_nat (i * 3 + j) = C2' !! Z.to_nat (i * 3 + j) /\
      is_Some (C1' !! Z.to_nat (i * 3 + j)) /\
      exists! it,
        it ∈ grid_items (round_up 3 2) (round_up 3 2) 2 /\
        store_guard 3 2 it = true /\
        store_index 3 2 it = Z.to_nat (i * 3 + j).
Proof.
  assert (1 <= 3) as H1 by lia.
  assert (local_range 2) as H2 by (split; [lia | reflexivity]).
  assert (matrix_buffer 3 A3) as H4 by (split; reflexivity).
  assert (matrix_buffer 3 I3) as H5 by (split; reflexivity).
  assert (3 * 3 <= Z.of_nat (length nines3)) as H6 by (simpl; lia).
  assert (3 * 3 <= Z.of_nat (length A3)) as H7 by (simpl; lia).
  assert (valid_schedule 3 2 (reversed 3 2)) as H8 by apply reversed_valid.
  split; [tauto|].
  exact (result_independent_of_initial_C 3 2 A3 I3 nines3 A3 (reversed 3 2)
           H1 H2 H4 H5 H6 H7 H8).
Defined.

Lemma kernel_deterministic_witness :
  (1 <= 2 /\ matrix_buffer 3 A3 /\ matrix_buffer 3 I3 /\
   3 * 3 <= Z.of_nat (length nines3) /\
   valid_schedule 3 2 (row_major 3 2) /\ valid_schedule 3 2 (reversed 3 2)) /\
  exists C',
    multiply (row_major 3 2) 3 2 (Mem A3 I3 nines3) = Some (Mem A3 I3 C') /\
    multiply (reversed 3 2) 3 2 (Mem A3 I3 nines3) = Some (Mem A3 I3 C') /\
    forall it,
      it ∈ grid_items (round_up 3 2) (round_up 3 2) 2 ->
      store_guard 3 2 it = true ->
      C' !! store_index 3 2 it
      = Some (dot_phases A3 I3 3 2 (phases_of 3 2) (gy 2 it) (gx 2 it)).
Proof.
  assert (1 <= 2) as H1 by lia.
  assert (matrix_buffer 3 A3) as H2 by (split; reflexivity).
  assert (matrix_buffer 3 I3) as H3 by (split; reflexivity).
  assert (3 * 3 <= Z.of_nat (length nines3)) as H4 by (simpl; lia).
  assert (valid_schedule 3 2 (row_major 3 2)) as H5
    by (split; [reflexivity | intros g r; reflexivity]).
  assert (valid_schedule 3 2 (reversed 3 2)) as H6 by apply reversed_valid.
  split; [tauto|].
  exact (kernel_deterministic 3 2 A3 I3 nines3 (row_major 3 2) (reversed 3 2)
           H1 H2 H3 H4 H5 H6).
Defined.

Lemma every_item_reaches_every_barrier_witness :
  let order := fun r : nat =>
    if Nat.even r then group_items 2 (1, 0) else reverse (group_items 2 (1, 0)) in
  (1 <= 3 /\ 1 <= 2 /\ SizeT.in_range 2 /\
   matrix_buffer 3 A3 /\ matrix_buffer 3 I3 /\
   3 * 3 <= Z.of_nat (length nines3) /\
   (1, 0) ∈ grid_groups (round_up 3 2) (round_up 3 2) 2 /\
   (forall r, order r ≡ₚ group_items 2 (1, 0))) /\
  exists pool C',
    sync_group 3 2 (phases_of 3 2) order (group_items 2 (1, 0)) (Mem A3 I3 nines3)
    = Some (pool, Mem A3 I3 C') /\
    run_group 3 2 (phases_of 3 2) order (group_items 2 (1, 0)) (Mem A3 I3 nines3)
    = Some (Mem A3 I3 C') /\
    (forall it, it ∈ group_items 2 (1, 0) ->
       exists th,
         pool !! item_local it = Some th /\
         th_code th = [] /\
         th_done th = item_body (phases_of 3 2) it /\
         th_done th = flat_map phase_body (seqZ 0 (ceil_div 3 2)) ++ [IStore] /\
         iteration_count (th_done th) = Z.to_nat (ceil_div 3 2) /\
         barrier_count (th_done th) = (2 * Z.to_nat (ceil_div 3 2))%nat) /\
    (forall it, it ∈ group_items 2 (1, 0) -> store_guard 3 2 it = true ->
       C' !! store_index 3 2 it
       = Some (cell_value A3 I3 3 2 (store_index 3 2 it))).
Proof.
  intros order.
  assert (1 <= 3) as H1 by lia.
  assert (1 <= 2) as H2 by lia.
  assert (SizeT.in_range 2) as H3 by (split; [discriminate | reflexivity]).
  assert (matrix_buffer 3 A3) as H4 by (split; reflexivity).
  assert (matrix_buffer 3 I3) as H5 by (split; reflexivity).
  assert (3 * 3 <= Z.of_nat (length nines3)) as H6 by (simpl; lia).
  assert ((1, 0) ∈ grid_groups (round_up 3 2) (round_up 3 2) 2) as H7.
  { apply elem_of_grid_groups. vm_compute.
    repeat split; (discriminate || reflexivity). }
  assert (forall r, order r ≡ₚ group_items 2 (1, 0)) as H8.
  { intros r. unfold order. destruct (Nat.even r);
      [reflexivity | apply reverse_Permutation]. }
  split; [tauto|].
  exact (every_item_reaches_every_barrier 3 2 A3 I3 nines3 (1, 0) order
           H1 H2 H3 H4 H5 H6 H7 H8).
Defined.

(* The same work-group, run: every item has executed two iterations and
   four barriers, and the group has stored row 2 of the product. *)
Example sync_group_3x3 :
  (r ← sync_group 3 2 (phases_of 3 2) (fun _ => reverse (group_items 2 (1, 0)))
         (group_items 2 (1, 0)) (Mem A3 I3 nines3);
   Some (r.1 !! (1, 1), r.2))
  = Some (Some (Thread [] [ILoad 0; IBarrier; ICompute; IBarrier;
                           ILoad 1; IBarrier; ICompute; IBarrier; IStore]),
          Mem A3 I3 [9; 9; 9; 9; 9; 9; 7; 8; 9]).
Proof. vm_compute. reflexivity. Qed.

(* What the synchronising run rules out: were the second barrier under a
   condition on the local id, the items of row 0 would wait at a barrier
   that the items of row 1 never reach, and the run is undefined. *)
Example divergent_barrier_is_undefined :
  sync_group_of 3 2
    (fun it => if local0 it =? 0
               then [ILoad 0; IBarrier; ICompute; IBarrier; IStore]
               else [ILoad 0; IBarrier; ICompute; IStore])
    (fun _ => group_items 2 (0, 0)) (group_items 2 (0, 0)) (Mem A3 I3 nines3)
  = None.
Proof. vm_compute. reflexivity. Qed.

Lemma kernel_frame_witness :
  (1 <= 2 /\ matrix_buffer 3 A3 /\ matrix_buffer 3 I3 /\
   3 * 3 <= Z.of_nat (length nines3) /\ valid_schedule 3 2 (reversed 3 2)) /\
  (forall it (st st' : @kstate Z) i,
     exec_instr 3 2 it st i = Some st' ->
     memA (glob st') = memA (glob st) /\
     memB (glob st') = memB (glob st) /\
     (store_guard 3 2 it = false -> memC (glob st') = memC (glob st))) /\
  exists C',
    multiply (reversed 3 2) 3 2 (Mem A3 I3 nines3) = Some (Mem A3 I3 C') /\
    length C' = length nines3 /\
    (forall i, ~ grid_writes 3 2 i -> C' !! i = nines3 !! i) /\
    (forall i, 3 * 3 <= Z.of_nat i -> C' !! i = nines3 !! i).
Proof.
  assert (1 <= 2) as H1 by lia.
  assert (matrix_buffer 3 A3) as H2 by (split; reflexivity).
  assert (matrix_buffer 3 I3) as H3 by (split; reflexivity).
  assert (3 * 3 <= Z.of_nat (length nines3)) as H4 by (simpl; lia).
  assert (valid_schedule 3 2 (reversed 3 2)) as H5 by apply reversed_valid.
  split; [tauto|].
  exact (kernel_frame 3 2 A3 I3 nines3 (reversed 3 2) H1 H2 H3 H4 H5).
Defined.

(* The reference at work in exact arithmetic: a correct product passes, a
   wrong cell is reported once, at the first mismatch. *)
Example verify_reference_pass :
  verify_reference A2 B2 AB2 2 0 = Some (true, []).
Proof. vm_compute. reflexivity. Qed.

Example verify_reference_fail :
  verify_reference A2 B2 [19; 0; 43; 0] 2 0
  = Some (false, [Mismatch 0 1 0 22]).
Proof. vm_compute. reflexivity. Qed.

(* With finite values the binary32 reference behaves as in exact
   arithmetic: 19.0 against a stored 19.0 passes, a stored 0.0 fails. *)
Example verify_reference_binary32 :
  let f := Binary32.of_Z in
  verify_reference (f <$> A2) (f <$> B2) (f <$> AB2) 2 Binary32.tol_default
  = Some (true, []) /\
  verify_reference (f <$> A2) (f <$> B2) (f <$> zeros2) 2 Binary32.tol_default
  = Some (false, [Mismatch 0 0 (f 0) (f 19)]).
Proof. split; vm_compute; reflexivity. Qed.

Lemma init_b_wraps_witness :
  (matrix_buffer 2 zeros2 /\ matrix_buffer 2 sevens2 /\ 0 <= 0 < 2 /\ 0 <= 1 < 2) /\
  exists A' B',
    init_matrices 2 zeros2 sevens2 = Some (A', B') /\
    B' !! Z.to_nat (0 * 2 + 1) = Some (of_size (((0 - 1) mod 2 ^ 64) mod 5)) /\
    A' !! Z.to_nat (0 * 2 + 1) = Some (of_size ((0 + 1) mod 7)) /\
    (0 < 1 ->
     (0 - 1) mod 2 ^ 64 = 2 ^ 64 + 0 - 1 /\
     ((0 - 1) mod 2 ^ 64) mod 5 = (0 - 1 + 1) mod 5 /\
     ((0 - 1) mod 2 ^ 64) mod 5 <> (0 - 1) mod 5 /\
     ((0 - 1) mod 2 ^ 64) mod 5 <> Z.rem (0 - 1) 5) /\
    (1 <= 0 -> ((0 - 1) mod 2 ^ 64) mod 5 = (0 - 1) mod 5) /\
    @init_b Z Z_ops 0 1 = of_size 0.
Proof.
  assert (matrix_buffer 2 zeros2) as H1 by (split; reflexivity).
  assert (matrix_buffer 2 sevens2) as H2 by (split; reflexivity).
  assert (0 <= 0 < 2) as H3 by lia.
  assert (0 <= 1 < 2) as H4 by lia.
  split; [tauto|].
  exact (init_b_wraps 2 zeros2 sevens2 0 1 H1 H2 H3 H4).
Defined.

(* The matrices main starts from, for N = 3: B is not the table of the
   signed remainders of i - j. *)
Example init_matrices_3 :
  init_matrices 3 nines3 nines3
  = Some ([0; 1; 2; 1; 2; 3; 2; 3; 4], [0; 0; 4; 1; 0; 0; 2; 1; 0]).
Proof. vm_compute. reflexivity. Qed.

Example init_b_binary32 : @init_b spec_float binary32_ops 0 1 = Binary32.pzero.
Proof. vm_compute. reflexivity. Qed.

(** * Part IV: further properties of the code *)

(** ** round_up *)

Lemma round_up_ceil N T :
  0 <= N -> 1 <= T -> N + T - 1 < SizeT.modulus ->
  round_up N T = ceil_div N T * T.
Proof.
  intros HN HT Hov. rewrite round_up_mul_exact by assumption.
  unfold phases_of, SizeT.div, ceil_div.
  rewrite sub_add_wrap, wrap_small by (unfold SizeT.in_range; lia).
  reflexivity.
Qed.

(** X1.  Without wrap-around round_up(x, tile) is the least multiple of
    tile that is not below x, and it exceeds x by less than tile. *)
Theorem round_up_least_multiple (x tile : Z) :
  0 <= x -> 1 <= tile -> x + tile - 1 < SizeT.modulus ->
  round_up x tile mod tile = 0 /\
  x <= round_up x tile < x + tile /\
  forall m, m mod tile = 0 -> x <= m -> round_up x tile <= m.
Proof.
  intros Hx Ht Hov. rewrite round_up_ceil by assumption.
  pose proof (ceil_div_spec x tile ltac:(lia)) as Hc.
  split; [apply Z.mod_mul; lia|]. split; [lia|].
  intros m Hm Hxm.
  pose proof (Z.div_mod m tile ltac:(lia)) as Hdm.
  rewrite Hm, Z.add_0_r in Hdm.
  assert (ceil_div x tile <= m / tile) by nia. nia.
Qed.

(** X2.  Without wrap-around round_up(x, tile) = x exactly when tile
    divides x, and rounding up twice is rounding up once. *)
Theorem round_up_fixed_points (x tile : Z) :
  0 <= x -> 1 <= tile -> x + 2 * tile - 2 < SizeT.modulus ->
  (round_up x tile = x <-> x mod tile = 0) /\
  round_up (round_up x tile) tile = round_up x tile.
Proof.
  intros Hx Ht Hov.
  assert (forall y, 0 <= y -> y + tile - 1 < SizeT.modulus ->
                    (round_up y tile = y <-> y mod tile = 0)) as Hfix.
  { intros y Hy Hovy. rewrite round_up_ceil by assumption.
    pose proof (ceil_div_spec y tile ltac:(lia)) as Hc. split.
    - intros <-. apply Z.mod_mul. lia.
    - intros Hm. pose proof (Z.div_mod y tile ltac:(lia)) as Hdm.
      rewrite Hm, Z.add_0_r in Hdm.
      rewrite <- (ceil_div_unique y tile (y / tile)); lia. }
  split; [apply Hfix; lia|].
  assert (x <= round_up x tile < x + tile) as Hr.
  { rewrite round_up_ceil by lia.
    pose proof (ceil_div_spec x tile ltac:(lia)). lia. }
  apply Hfix; [lia | lia |].
  rewrite round_up_ceil by lia. apply Z.mod_mul. lia.
Qed.

(** ** The launch at the edges of the tile width *)

Section LaunchEdges.
Context {F : Type} `{FloatOps F}.

(** X14.  For the sizes main can launch with (N >= 1 with N * N
    addressable elements and a tile width a work-group can have,
    [local_range]) nothing wraps in the grid derivation:
    round_up(N, T) = ceil(N/T) * T, the number of phases is ceil(N/T), the
    least q with N <= q * T, the grid extent is a multiple of T holding
    exactly that many groups per dimension, and every work-group has
    T * T items. *)
Theorem grid_derivation (N T : Z) :
  1 <= N -> N * N < SizeT.modulus -> local_range T ->
  round_up N T = ceil_div N T * T /\
  phases_of N T = ceil_div N T /\
  (ceil_div N T - 1) * T < N <= ceil_div N T * T /\
  round_up N T mod T = 0 /\
  round_up N T / T = phases_of N T /\
  forall g, length (group_items T g) = Z.to_nat (T * T).
Proof.
  intros HN HNN HR.
  pose proof (local_range_no_wrap N T HN HNN HR) as Hov.
  destruct HR as [HT _].
  split; [now apply round_up_no_overflow|].
  split; [now apply phases_of_no_overflow|].
  split; [apply ceil_div_spec; lia|].
  split; [now apply round_up_divisible|].
  split; [now apply round_up_groups|].
  intros g. rewrite length_group_items. lia.
Qed.

(** X4.  A tile at least as wide as the matrix (1 <= N <= TILE, no
    wrap-around) gives one phase and a grid of exactly one work-group,
    the group (0, 0). *)
Theorem tile_covering_matrix (N T : Z) :
  1 <= N <= T -> N + T - 1 < SizeT.modulus ->
  phases_of N T = 1 /\
  round_up N T = T /\
  grid_groups (round_up N T) (round_up N T) T = [(0, 0)].
Proof.
  intros HN Hov.
  assert (ceil_div N T = 1) as Hc
    by (symmetry; apply ceil_div_unique; lia).
  assert (phases_of N T = 1) as Hph
    by (rewrite phases_of_no_overflow, Hc by lia; reflexivity).
  assert (round_up N T = T) as Hru
    by (rewrite round_up_mul_exact, Hph by lia; lia).
  split; [exact Hph|]. split; [exact Hru|].
  unfold grid_groups. rewrite Hru, Z_div_same by lia. reflexivity.
Qed.

(** X5.  When TILE divides N (N = k * TILE, no wrap-around) the grid is
    exactly N x N: round_up returns N, there are k phases, every
    work-item passes the store guard and, in every phase, both load
    guards, so no 0.0 is ever substituted. *)
Theorem exact_fit_has_no_padding (N T k : Z) :
  1 <= k -> 1 <= T -> N = k * T -> N + T - 1 < SizeT.modulus ->
  round_up N T = N /\
  phases_of N T = k /\
  forall it, it ∈ grid_items (round_up N T) (round_up N T) T ->
    store_guard N T it = true /\
    forall p, 0 <= p < phases_of N T ->
      (gy T it <? N) && (a_col T it p <? N) = true /\
      (b_row T it p <? N) && (gx T it <? N) = true.
Proof.
  intros Hk HT HN Hov.
  assert (ceil_div N T = k) as Hc
    by (symmetry; apply ceil_div_unique; nia).
  assert (phases_of N T = k) as Hph
    by (rewrite phases_of_no_overflow, Hc by nia; reflexivity).
  assert (round_up N T = N) as Hru
    by (rewrite round_up_mul_exact, Hph by lia; lia).
  split; [exact Hru|]. split; [exact Hph|].
  intros it Hit.
  destruct (grid_item_coords N T HT it Hit) as [Hgy Hgx].
  apply elem_of_grid_items in Hit as ((Hg0 & Hg1) & Hy & Hx).
  rewrite round_up_groups, Hph in Hg0, Hg1 by assumption.
  assert (0 <= gy T it < N) as Hyr by (rewrite Hgy; nia).
  assert (0 <= gx T it < N) as Hxr by (rewrite Hgx; nia).
  split.
  - unfold store_guard. apply andb_true_intro.
    split; apply Z.ltb_lt; lia.
  - intros p Hp. rewrite Hph in Hp. unfold a_col, b_row.
    rewrite !(grid_coord_small N T HT) by (rewrite ?Hph; lia).
    split; apply andb_true_intro; split; apply Z.ltb_lt; nia.
Qed.

End LaunchEdges.

(** ** The two rounds of a phase *)

Lemma phase_rounds_lookup ps : forall (i : nat) p,
  ps !! i = Some p ->
  flat_map phase_rounds ps !! (2 * i)%nat = Some [ILoad p] /\
  flat_map phase_rounds ps !! (2 * i + 1)%nat = Some [ICompute].
Proof.
  induction ps as [|p0 ps IH]; intros i p Hi; [discriminate|].
  destruct i as [|i].
  - injection Hi as ->. split; reflexivity.
  - replace (2 * S i)%nat with (S (S (2 * i))) by lia.
    replace (S (S (2 * i)) + 1)%nat with (S (S (2 * i + 1))) by lia.
    apply (IH i p Hi).
Qed.

Lemma segments_lookup_phase phases it p :
  0 <= p < phases ->
  segments (item_body phases it) !! Z.to_nat (2 * p) = Some [ILoad p] /\
  segments (item_body phases it) !! Z.to_nat (2 * p + 1) = Some [ICompute].
Proof.
  intros Hp. rewrite segments_item_body.
  destruct (phase_rounds_lookup (seqZ 0 phases) (Z.to_nat p) p) as [Hl Hc].
  { apply lookup_seqZ. lia. }
  replace (Z.to_nat (2 * p)) with (2 * Z.to_nat p)%nat by lia.
  replace (Z.to_nat (2 * p + 1)) with (2 * Z.to_nat p + 1)%nat by lia.
  split; (rewrite lookup_app_l; [assumption|]);
    rewrite length_phase_rounds, length_seqZ; lia.
Qed.

Section PhaseRounds.
Context {F : Type} `{FloatOps F}.

(* The compute round over tiles holding any values [fa] and [fb]. *)
Lemma compute_round_any (N T : Z) (fa fb : Z * Z -> F) order : forall st,
  Forall (fun it => tile_in T (local0 it) (local1 it) = true) order ->
  NoDup (item_local <$> order) ->
  (forall k, tile_in T k.1 k.2 = true -> tileA st !! k = Some (fa k)) ->
  (forall k, tile_in T k.1 k.2 = true -> tileB st !! k = Some (fb k)) ->
  (forall k, k ∈ item_local <$> order -> is_Some (accs st !! k)) ->
  exists acs,
    foldM (fun st it => foldM (exec_instr N T it) st [ICompute]) st order
    = Some (KState (tileA st) (tileB st) acs (glob st)) /\
    (forall k, acs !! k
               = if decide (k ∈ item_local <$> order)
                 then (fun acc =>
                         foldl (fun acc kk =>
                                  fadd acc (fmul (fa (k.1, kk)) (fb (kk, k.2))))
                               acc (seqZ 0 T)) <$> accs st !! k
                 else accs st !! k).
Proof.
  intros st Hall. revert st.
  induction Hall as [|it order Hit Hall IH]; intros st Hnd HtA HtB Hacc.
  - exists (accs st). destruct st. simpl. auto.
  - rewrite fmap_cons in Hnd. apply NoDup_cons in Hnd as [Hfresh Hnd].
    destruct (Hacc (item_local it)) as [acc Hacc0]; [rewrite fmap_cons; left|].
    assert (exec_instr N T it st ICompute
            = Some (KState (tileA st) (tileB st)
                      (<[item_local it :=
                           foldl (fun acc kk =>
                                    fadd acc (fmul (fa (local0 it, kk))
                                                   (fb (kk, local1 it))))
                                 acc (seqZ 0 T)]> (accs st))
                      (glob st))) as Hexec.
    { apply tile_in_spec in Hit as [Hy Hx].
      unfold exec_instr. rewrite Hacc0. cbn [mbind option_bind].
      rewrite (foldM_foldl _
                 (fun acc kk => fadd acc (fmul (fa (local0 it, kk))
                                               (fb (kk, local1 it))))).
      - reflexivity.
      - intros a kk Hkk. apply elem_of_seqZ in Hkk. unfold mac, tile_rd.
        assert (tile_in T (local0 it) kk = true) as Hin1
          by (apply tile_in_spec; lia).
        assert (tile_in T kk (local1 it) = true) as Hin2
          by (apply tile_in_spec; lia).
        rewrite Hin1, Hin2.
        rewrite (HtA (local0 it, kk)), (HtB (kk, local1 it)) by assumption.
        reflexivity. }
    cbn [foldM]. rewrite Hexec.
    match goal with
    | |- context [foldM _ ?s order] =>
        destruct (IH s) as (acs & Hrun & Hacs)
    end; try assumption.
    { intros k Hk. cbn [accs].
      destruct (decide (k = item_local it)) as [->|Hne];
        [rewrite lookup_insert_eq | rewrite lookup_insert_ne by congruence];
        [eauto | apply Hacc; rewrite fmap_cons; now right]. }
    exists acs. split; [exact Hrun|]. intros k. rewrite Hacs. cbn [accs].
    rewrite fmap_cons.
    destruct (decide (k = item_local it)) as [->|Hne];
      [ rewrite lookup_insert_eq, Hacc0 | rewrite lookup_insert_ne by congruence ];
      repeat case_decide; try reflexivity; exfalso; cons_mem.
Qed.

(** X6.  The load round of phase p of a work-group: whatever the two
    scratch tiles held before (nothing, or the data of the previous
    phase) and in whatever order the items run, after the round every
    one of the TILE x TILE slots of tileA and tileB holds the value
    staged for phase p, the matrix element or 0.0 outside the matrix;
    accumulators and global memory are untouched. *)
Theorem load_round_fills_tiles (N T phases p : Z) (A B : list F)
    (g : Z * Z) (order : list item) (st : kstate) :
  matrix_buffer N A -> matrix_buffer N B ->
  order ≡ₚ group_items T g -> 0 <= p < phases ->
  memA (glob st) = A -> memB (glob st) = B ->
  exists st',
    run_round N T phases order (Z.to_nat (2 * p)) st = Some st' /\
    accs st' = accs st /\ glob st' = glob st /\
    forall y x, 0 <= y < T -> 0 <= x < T ->
      tileA st' !! (y, x)
      = Some (pad A N (gy T (Item g.1 g.2 y x)) (a_col T (Item g.1 g.2 y x) p)) /\
      tileB st' !! (y, x)
      = Some (pad B N (b_row T (Item g.1 g.2 y x) p) (gx T (Item g.1 g.2 y x))).
Proof.
  intros HA HB Horder Hp HmA HmB.
  destruct (load_round N T A B HA HB g p order st)
    as (tA & tB & Hrun & HtA & HtB);
    [now apply order_in_group | assumption | assumption |].
  exists (KState tA tB (accs st) (glob st)). split; [|split; [|split]];
    try reflexivity.
  - unfold run_round. rewrite <- Hrun. apply foldM_ext.
    intros s it _. unfold run_item_round.
    destruct (segments_lookup_phase phases it p Hp) as [-> _]. reflexivity.
  - intros y x Hy Hx. cbn [tileA tileB].
    assert ((y, x) ∈ item_local <$> order) as Hin.
    { apply (order_locals T g order Horder). apply tile_in_spec. cbn. lia. }
    rewrite HtA, HtB, !decide_True by assumption. split; reflexivity.
Qed.

(** X7.  The compute round of phase p of a work-group whose tiles are
    fully staged: in whatever order the items run, the round leaves both
    tiles and global memory as they are and replaces the accumulator of
    the item at (ly, lx) by acc + tileA[ly][0] * tileB[0][lx] + ... +
    tileA[ly][TILE-1] * tileB[TILE-1][lx], added in this order. *)
Theorem compute_round_accumulates (N T phases p : Z) (fa fb : Z * Z -> F)
    (g : Z * Z) (order : list item) (st : kstate) :
  order ≡ₚ group_items T g -> 0 <= p < phases ->
  (forall y x, 0 <= y < T -> 0 <= x < T ->
     tileA st !! (y, x) = Some (fa (y, x)) /\
     tileB st !! (y, x) = Some (fb (y, x)) /\
     is_Some (accs st !! (y, x))) ->
  exists st',
    run_round N T phases order (Z.to_nat (2 * p + 1)) st = Some st' /\
    tileA st' = tileA st /\ tileB st' = tileB st /\ glob st' = glob st /\
    forall y x acc, 0 <= y < T -> 0 <= x < T ->
      accs st !! (y, x) = Some acc ->
      accs st' !! (y, x)
      = Some (foldl (fun acc k => fadd acc (fmul (fa (y, k)) (fb (k, x))))
                    acc (seqZ 0 T)).
Proof.
  intros Horder Hp Hst.
  destruct (compute_round_any N T fa fb order st) as (acs & Hrun & Hacs).
  - eapply Forall_impl; [apply (order_in_group T g order Horder)|].
    intros it [_ Hin]. exact Hin.
  - now apply (order_NoDup T g).
  - intros [y x] Hk. apply tile_in_spec in Hk. now apply Hst.
  - intros [y x] Hk. apply tile_in_spec in Hk. now apply Hst.
  - intros [y x] Hk. apply (order_locals T g order Horder) in Hk.
    apply tile_in_spec in Hk. now apply Hst.
  - exists (KState (tileA st) (tileB st) acs (glob st)).
    split; [|split; [|split; [|split]]]; try reflexivity.
    + unfold run_round. rewrite <- Hrun. apply foldM_ext.
      intros s it _. unfold run_item_round.
      destruct (segments_lookup_phase phases it p Hp) as [_ ->]. reflexivity.
    + intros y x acc Hy Hx Hacc. cbn [accs]. rewrite Hacs, decide_True, Hacc.
      * reflexivity.
      * apply (order_locals T g order Horder). apply tile_in_spec. cbn. lia.
Qed.

End PhaseRounds.

(** ** How many work-items there are, and how many store *)

Lemma NoDup_group_items T g : NoDup (group_items T g).
Proof. apply (NoDup_fmap_1 item_local), NoDup_group_locals. Qed.

Lemma NoDup_grid_groups G0 G1 T : NoDup (grid_groups G0 G1 T).
Proof.
  unfold grid_groups. apply NoDup_bind.
  - intros y1 y2 k _ _ H1 H2.
    apply list_elem_of_bind in H1 as (x1 & H1 & _).
    apply list_elem_of_bind in H2 as (x2 & H2 & _).
    apply list_elem_of_singleton in H1. apply list_elem_of_singleton in H2.
    congruence.
  - intros y _. apply NoDup_bind.
    + intros x1 x2 k _ _ H1 H2.
      apply list_elem_of_singleton in H1. apply list_elem_of_singleton in H2.
      congruence.
    + intros x _. apply NoDup_singleton.
    + apply NoDup_seqZ.
  - apply NoDup_seqZ.
Qed.

Lemma NoDup_grid_items G0 G1 T : NoDup (grid_items G0 G1 T).
Proof.
  unfold grid_items. apply NoDup_bind.
  - intros g1 g2 it _ _ H1 H2.
    apply elem_of_group_items in H1 as [<- _].
    apply elem_of_group_items in H2 as [<- _]. reflexivity.
  - intros g _. apply NoDup_group_items.
  - apply NoDup_grid_groups.
Qed.

Lemma length_pairs (ys xs : list Z) :
  length (y ← ys; x ← xs; [(y, x)]) = (length ys * length xs)%nat.
Proof.
  assert (forall y : Z, length (x ← xs; [(y, x)]) = length xs) as Hrow.
  { intros y. induction xs as [|x xs IH]; [reflexivity|].
    rewrite bind_cons, length_app, IH. reflexivity. }
  induction ys as [|y ys IH]; [reflexivity|].
  rewrite bind_cons, length_app, Hrow, IH. reflexivity.
Qed.

Lemma length_grid_groups G0 G1 T :
  length (grid_groups G0 G1 T) = (Z.to_nat (G0 / T) * Z.to_nat (G1 / T))%nat.
Proof. unfold grid_groups. now rewrite length_pairs, !length_seqZ. Qed.

Lemma length_grid_items G0 G1 T :
  length (grid_items G0 G1 T)
  = (length (grid_groups G0 G1 T) * (Z.to_nat T * Z.to_nat T))%nat.
Proof.
  unfold grid_items.
  induction (grid_groups G0 G1 T) as [|g gs IH]; [reflexivity|].
  rewrite bind_cons, length_app, length_group_items, IH. reflexivity.
Qed.

(** X8.  Without wrap-around the launch creates round_up(N, TILE)^2
    work-items, no two of them alike, and exactly N^2 of them pass the
    store guard: one store per element of C, the remaining
    round_up(N, TILE)^2 - N^2 items only help staging. *)
Theorem grid_item_counts (N T : Z) :
  1 <= N -> 1 <= T -> N + T - 1 < SizeT.modulus -> N * N < SizeT.modulus ->
  NoDup (grid_items (round_up N T) (round_up N T) T) /\
  length (grid_items (round_up N T) (round_up N T) T)
  = Z.to_nat (round_up N T * round_up N T) /\
  length (filter (fun it => store_guard N T it = true)
                 (grid_items (round_up N T) (round_up N T) T))
  = Z.to_nat (N * N).
Proof.
  intros HN HT Hov Hfit. split; [apply NoDup_grid_items|]. split.
  - rewrite length_grid_items, length_grid_groups, round_up_groups by assumption.
    rewrite round_up_mul_exact by assumption.
    pose proof (phases_of_nonneg N T HT). nia.
  - set (items := grid_items (round_up N T) (round_up N T) T).
    set (stores := filter (fun it => store_guard N T it = true) items).
    assert (store_index N T <$> stores ≡ₚ seq 0 (Z.to_nat (N * N))) as Hperm.
    { apply NoDup_Permutation.
      - apply NoDup_fmap_2_strong.
        + intros it1 it2 H1 H2 Hidx. subst stores.
          apply list_elem_of_filter in H1 as [Hg1 H1].
          apply list_elem_of_filter in H2 as [Hg2 H2].
          destruct (store_index_inj N T it1 it2 Hg1 Hg2 Hidx) as [Hy Hx].
          now apply (grid_item_unique N T).
        + apply NoDup_filter, NoDup_grid_items.
      - apply NoDup_seq.
      - intros i. rewrite elem_of_seq, list_elem_of_fmap.
        pose proof (grid_writes_matrix N T i HN HT Hov Hfit) as Hw.
        unfold grid_writes in Hw. fold items in Hw. split.
        + intros (it & -> & Hit). subst stores.
          apply list_elem_of_filter in Hit as [Hg Hit].
          assert (Z.of_nat (store_index N T it) < N * N) by (apply Hw; eauto).
          lia.
        + intros Hi. destruct Hw as [_ Hw].
          destruct Hw as (it & Hit & Hg & ->); [lia|].
          exists it. split; [reflexivity|]. subst stores.
          apply list_elem_of_filter. auto. }
    rewrite <- (length_fmap (store_index N T)), Hperm. apply length_seq.
Qed.

(** ** main: allocation, initialisation, fill and launch together *)

Lemma foldM_Some_step {S X : Type} (P : S -> Prop) (f : S -> X -> option S)
    l : forall s s' x,
  foldM f s l = Some s' -> x ∈ l -> P s ->
  (forall s x s', P s -> f s x = Some s' -> P s') ->
  exists s1 s2, P s1 /\ f s1 x = Some s2.
Proof.
  induction l as [|y l IH]; intros s s' x Hrun Hx HP Hstep.
  - now apply elem_of_nil in Hx.
  - cbn [foldM] in Hrun. destruct (f s y) as [s1|] eqn:Hf; [|discriminate].
    apply elem_of_cons in Hx as [-> | Hx].
    + exists s, s1. auto.
    + apply (IH s1 s' x Hrun Hx); [eapply Hstep; eassumption | assumption].
Qed.

Section HostFacts.
Context {F : Type} `{FloatOps F}.

Lemma wr_Some (b : list F) i v b' :
  wr b i v = Some b' -> 0 <= i < Z.of_nat (length b) /\ length b' = length b.
Proof.
  unfold wr. case_decide as Hi; [|discriminate].
  intros [= <-]. split; [exact Hi | apply length_insert].
Qed.

(* The fill, one cell after the other. *)
Lemma fill_upto (b : list F) (v : F) (k : nat) :
  (k <= length b)%nat ->
  exists b',
    fill b (Z.of_nat k) v = Some b' /\ length b' = length b /\
    forall i, b' !! i = if decide (i < k)%nat then Some v else b !! i.
Proof.
  intros Hk. unfold fill. induction k as [|k IH].
  - exists b. split; [reflexivity|]. split; [reflexivity|].
    intros i. case_decide; [lia | reflexivity].
  - destruct IH as (b1 & Hrun & Hlen & Hb1); [lia|].
    rewrite seqZ_S, foldM_app, Hrun. cbn [mbind option_bind foldM].
    rewrite Z.add_0_l, wr_insert by lia. rewrite Nat2Z.id.
    eexists. split; [reflexivity|]. split; [now rewrite length_insert|].
    intros i. destruct (decide (i = k)) as [->|Hne].
    + rewrite list_lookup_insert_eq by lia. rewrite decide_True by lia.
      reflexivity.
    + rewrite list_lookup_insert_ne by congruence. rewrite Hb1.
      repeat case_decide; try reflexivity; lia.
Qed.

Lemma fill_all (b : list F) (v : F) :
  fill b (Z.of_nat (length b)) v = Some (replicate (length b) v).
Proof.
  destruct (fill_upto b v (length b)) as (b' & -> & Hlen & Hb'); [lia|].
  f_equal. apply list_eq. intros i. rewrite Hb'.
  case_decide as Hi.
  - symmetry. now apply lookup_replicate.
  - rewrite !lookup_ge_None_2; [reflexivity | rewrite length_replicate; lia | lia].
Qed.

(* The initialisation loops in closed form. *)
Lemma init_matrices_gen (N : Z) (A0 B0 : list F) :
  0 <= N -> matrix_buffer N A0 -> matrix_buffer N B0 ->
  init_matrices N A0 B0 = Some (gen_a N, gen_b N).
Proof.
  intros HN0 HA HB. unfold init_matrices.
  destruct (init_rows N A0 B0 HA HB (seqZ 0 N) (fun _ => False) A0 B0)
    as (A' & B' & -> & [HlenA HstA] & [HlenB HstB]); [|apply stored_init..|].
  { intros i Hi. apply elem_of_seqZ in Hi. lia. }
  destruct HA as [HA Hfit], HB as [HB _].
  assert (forall n, (n < Z.to_nat (N * N))%nat ->
                    exists i j, i ∈ seqZ 0 N /\ 0 <= j < N /\
                                n = Z.to_nat (i * N + j)) as Hcell.
  { intros n Hn.
    assert (0 < N) as HN by nia.
    pose proof (Z.div_mod (Z.of_nat n) N ltac:(lia)) as Hdm.
    pose proof (Z.mod_pos_bound (Z.of_nat n) N HN) as Hm.
    assert (0 <= Z.of_nat n / N < N) as Hq.
    { split; [apply Z.div_pos; lia | apply Z.div_lt_upper_bound; lia]. }
    exists (Z.of_nat n / N), (Z.of_nat n mod N).
    split; [apply elem_of_seqZ; lia|]. split; [lia | lia]. }
  assert (A' = gen_a N) as ->.
  { apply list_eq. intros n. unfold gen_a. rewrite list_lookup_fmap.
    destruct (decide (n < Z.to_nat (N * N))%nat) as [Hn | Hn].
    - rewrite lookup_seq_lt by assumption. destruct (HstA n) as [Hin _].
      destruct Hin as [_ ->]; [right; now apply Hcell | reflexivity].
    - rewrite (lookup_ge_None_2 (seq 0 _)) by (rewrite length_seq; lia).
      apply lookup_ge_None_2. lia. }
  assert (B' = gen_b N) as ->.
  { apply list_eq. intros n. unfold gen_b. rewrite list_lookup_fmap.
    destruct (decide (n < Z.to_nat (N * N))%nat) as [Hn | Hn].
    - rewrite lookup_seq_lt by assumption. destruct (HstB n) as [Hin _].
      destruct Hin as [_ ->]; [right; now apply Hcell | reflexivity].
    - rewrite (lookup_ge_None_2 (seq 0 _)) by (rewrite length_seq; lia).
      apply lookup_ge_None_2. lia. }
  reflexivity.
Qed.

End HostFacts.

Section MainCompute.
Context {F : Type} `{FloatOps F}.

Lemma matrix_buffer_gen (N : Z) :
  0 <= N -> N * N < SizeT.modulus ->
  matrix_buffer N (gen_a N) /\ matrix_buffer N (gen_b N).
Proof.
  intros HN Hfit. unfold matrix_buffer, gen_a, gen_b.
  rewrite !length_fmap, !length_seq. repeat split; lia.
Qed.

Lemma main_compute_launch (s : schedule) (N T : Z) (A0 B0 C0 : list F) :
  0 <= N -> matrix_buffer N A0 -> matrix_buffer N B0 -> matrix_buffer N C0 ->
  main_compute s N T A0 B0 C0
  = multiply s N T (Mem (gen_a N) (gen_b N)
                        (replicate (Z.to_nat (N * N)) fzero)).
Proof.
  intros HN HA HB [HC Hfit]. unfold main_compute.
  rewrite init_matrices_gen by assumption. cbn [mbind option_bind fst snd].
  unfold SizeT.mul. rewrite wrap_small by (unfold SizeT.in_range; nia).
  rewrite <- HC, fill_all. cbn [mbind option_bind].
  now rewrite Nat2Z.id.
Qed.

(** X9.  main, from the initialisation loops to the end of the kernel,
    on three fresh N x N allocations and without wrap-around: it
    completes, A and B are the generated matrices, and every C[i,j] is
    the dot product of row i and column j of those, accumulated in the
    order of the kernel.  Nothing of what the allocations held before
    survives: any other three allocations give the same memory. *)
Theorem main_compute_result (s : schedule) (N T : Z) (A0 B0 C0 : list F) :
  1 <= N -> 1 <= T -> N + T - 1 < SizeT.modulus ->
  matrix_buffer N A0 -> matrix_buffer N B0 -> matrix_buffer N C0 ->
  valid_schedule N T s ->
  (exists C',
     main_compute s N T A0 B0 C0 = Some (Mem (gen_a N) (gen_b N) C') /\
     forall i j, 0 <= i < N -> 0 <= j < N ->
       gen_a N !! Z.to_nat (i * N + j) = Some (init_a i j) /\
       gen_b N !! Z.to_nat (i * N + j) = Some (init_b i j) /\
       C' !! Z.to_nat (i * N + j)
       = Some (dot_tiled (gen_a N) (gen_b N) N T i j)) /\
  forall A1 B1 C1,
    matrix_buffer N A1 -> matrix_buffer N B1 -> matrix_buffer N C1 ->
    main_compute s N T A1 B1 C1 = main_compute s N T A0 B0 C0.
Proof.
  intros HN HT Hov HA HB HC Hs.
  assert (N * N < SizeT.modulus) as Hfit by apply HA.
  destruct (matrix_buffer_gen N ltac:(lia) Hfit) as [HgA HgB].
  split.
  - rewrite main_compute_launch by (assumption || lia).
    destruct (multiply_no_wrap N T (gen_a N) (gen_b N)
                (replicate (Z.to_nat (N * N)) fzero) s)
      as (C' & Hrun & Hval); try assumption.
    { rewrite length_replicate. lia. }
    exists C'. split; [exact Hrun|]. intros i j Hi Hj.
    pose proof (index_in_matrix N i j Hi Hj) as Hidx.
    assert (Z.of_nat (Z.to_nat (i * N + j)) / N = i) as Hq.
    { rewrite Z2Nat.id by lia. symmetry.
      apply Z.div_unique with (r := j); lia. }
    assert (Z.of_nat (Z.to_nat (i * N + j)) mod N = j) as Hr.
    { rewrite Z2Nat.id by lia. symmetry.
      apply Z.mod_unique with (q := i); lia. }
    split; [|split; [|now apply Hval]]; unfold gen_a, gen_b;
      rewrite list_lookup_fmap, lookup_seq_lt by lia;
      cbn [fmap option_fmap option_map]; unfold init_val_a, init_val_b;
      rewrite Nat.add_0_l, Hq, Hr; reflexivity.
  - intros A1 B1 C1 HA1 HB1 HC1.
    now rewrite !main_compute_launch by (assumption || lia).
Qed.

(* With a wrapped element count the first buffer is too short for the
   initialisation loops, whatever the second one is. *)
Lemma init_matrices_wrapped (N : Z) (A0 B0 : list F) :
  SizeT.in_range N -> SizeT.modulus <= N * N -> allocated N A0 ->
  init_matrices N A0 B0 = None.
Proof.
  intros HNr Hbig Halloc.
  destruct (init_matrices N A0 B0) as [ab|] eqn:Hrun; [exfalso|reflexivity].
    unfold SizeT.in_range in HNr. unfold allocated, SizeT.mul in Halloc.
    pose proof (wrap_range (N * N)) as HM. unfold SizeT.in_range in HM.
    set (M := SizeT.wrap (N * N)) in *.
    assert (0 < N) as HN by nia.
    pose proof (Z.div_mod M N ltac:(lia)) as Hdm.
    pose proof (Z.mod_pos_bound M N HN) as Hm.
    assert (0 <= M / N < N) as Hq.
    { split; [apply Z.div_pos; lia | apply Z.div_lt_upper_bound; nia]. }
    set (P := fun st : list F * list F => length st.1 = length A0).
    assert (forall i st j st', P st -> init_cell N i st j = Some st' -> P st')
      as Hcell.
    { intros i st j st' HP Hc. unfold init_cell in Hc.
      destruct (wr st.1 _ _) as [A1|] eqn:HwA; [|discriminate].
      cbn [mbind option_bind] in Hc.
      destruct (wr st.2 _ _) as [B1|]; [|discriminate].
      injection Hc as <-. apply wr_Some in HwA as [_ Hlen].
      unfold P in *. cbn [fst]. congruence. }
    assert (forall st i st', P st -> init_row N st i = Some st' -> P st')
      as Hrow.
    { intros st i st' HP Hr. unfold init_row in Hr.
      eapply (foldM_invariant P); [|exact HP|exact Hr].
      intros s1 j s2 _. apply Hcell. }
    unfold init_matrices in Hrun.
    destruct (foldM_Some_step P (init_row N) (seqZ 0 N) (A0, B0) ab (M / N))
      as (ab1 & ab2 & HP1 & Hr); [exact Hrun | apply elem_of_seqZ; lia
                                 | reflexivity | exact Hrow |].
    unfold init_row in Hr.
    destruct (foldM_Some_step P (init_cell N (M / N)) (seqZ 0 N) ab1 ab2
                (M mod N))
      as (ab3 & ab4 & HP3 & Hc); [exact Hr | apply elem_of_seqZ; lia
                                 | exact HP1 | apply Hcell |].
    unfold init_cell in Hc.
    destruct (wr ab3.1 _ _) as [A1|] eqn:HwA; [|discriminate].
    apply wr_Some in HwA as [Hidx _].
    rewrite add_mul_wrap in Hidx.
    replace (M / N * N + M mod N) with M in Hidx by lia.
    rewrite wrap_small in Hidx by (unfold SizeT.in_range; lia).
    unfold P in HP3. lia.
Qed.

(** X10.  An N whose square does not fit in std::size_t: each
    malloc_shared receives N * N wrapped modulo 2^64.  If one of the three
    allocations fails, main returns 1 and has written nothing.  If all
    three succeed, the buffers are too short (A has room for N * N mod
    2^64 elements) and the initialisation loops write outside A: main has
    undefined behaviour before any kernel is launched.  In no case does
    main reach the launch or return 0. *)
Theorem init_faults_when_count_wraps (s : schedule) (N T : Z)
    (a b c : option (list F)) :
  SizeT.in_range N -> SizeT.modulus <= N * N ->
  (forall A0, a = Some A0 -> allocated N A0) ->
  main_from_alloc s N T a b c
  = match a, b, c with
    | Some _, Some _, Some _ => None
    | _, _, _ => Some (1, None)
    end.
Proof.
  intros HNr Hbig Halloc. unfold main_from_alloc.
  destruct a as [A0|]; [|reflexivity].
  destruct b as [B0|]; [|reflexivity].
  destruct c as [C0|]; [|reflexivity].
  unfold main_compute.
  rewrite (init_matrices_wrapped N A0 B0) by auto. reflexivity.
Qed.

End MainCompute.

(** ** The kernel against the CPU reference *)

Section KernelVsReference.
Context {F : Type} `{FloatOps F}.



Lemma elt_lookup (M : list F) N i j v :
  M !! Z.to_nat (i * N + j) = Some v -> elt M N i j = v.
Proof. unfold elt. now intros ->. Qed.

(* verify_reference answers true as soon as no cell exceeds. *)
Lemma verify_reference_true (N : Z) (A B C : list F) (tol : F) :
  0 <= N -> matrix_buffer N A -> matrix_buffer N B -> matrix_buffer N C ->
  (forall i j, 0 <= i < N -> 0 <= j < N -> exceeds A B C N tol i j = false) ->
  verify_reference A B C N tol = Some (true, []).
Proof.
  intros HN HA HB HC Hall. unfold verify_reference.
  destruct (verify_rows_spec N A B C tol HA HB HC (Z.to_nat N) 0)
    as (r & Hrun & Hr); [lia..|].
  rewrite Z2Nat.id in Hrun, Hr by lia. rewrite Hrun. cbn [mbind option_bind].
  destruct r as [m|]; [|reflexivity].
  destruct Hr as (i & j & Hi & Hj & _ & Hex & _).
  rewrite Hall in Hex by lia. discriminate.
Qed.

Lemma verify_reference_true_inv (N : Z) (A B C : list F) (tol : F) :
  0 <= N -> matrix_buffer N A -> matrix_buffer N B -> matrix_buffer N C ->
  verify_reference A B C N tol = Some (true, []) ->
  forall i j, 0 <= i < N -> 0 <= j < N -> exceeds A B C N tol i j = false.
Proof.
  intros HN HA HB HC. unfold verify_reference.
  destruct (verify_rows_spec N A B C tol HA HB HC (Z.to_nat N) 0)
    as (r & Hrun & Hr); [lia..|].
  rewrite Z2Nat.id in Hrun, Hr by lia. rewrite Hrun. cbn [mbind option_bind].
  destruct r as [m|]; [discriminate|].
  intros _ i j Hi Hj. apply Hr; lia.
Qed.



(* Row-major cells of the reference product. *)
Lemma matmul_ref_lookup (A B : list F) N (n : nat) :
  0 <= N ->
  matmul_ref A B N !! n
  = if decide (Z.of_nat n < N * N)
    then Some (dot_ref A B N (Z.of_nat n / N) (Z.of_nat n mod N)) else None.
Proof.
  intros HN. unfold matmul_ref. rewrite list_lookup_fmap.
  case_decide as Hn.
  - rewrite lookup_seqZ_lt by lia. cbn. now rewrite Z.add_0_l.
  - rewrite lookup_seqZ_ge by lia. reflexivity.
Qed.

(** X15.  On N x N buffers verify_reference(A, B, C, N, tol) always
    returns, without fault.  It returns true if and only if for no (i,j)
    with 0 <= i,j < N the test of line 24, |C[i,j] - ref| > tol, succeeds,
    ref being the sum of the triple loop.  When it returns true nothing is
    written to std::cerr; when it returns false exactly one line is
    written, for the first (i,j) in loop order at which the test
    succeeds, with the values of C[i,j] and ref. *)
Theorem verify_reference_reports (N : Z) (A B C : list F) (tol : F) :
  0 <= N -> matrix_buffer N A -> matrix_buffer N B -> matrix_buffer N C ->
  exists b log,
    verify_reference A B C N tol = Some (b, log) /\
    (b = true <->
     forall i j, 0 <= i < N -> 0 <= j < N -> exceeds A B C N tol i j = false) /\
    (b = true -> log = []) /\
    (b = false ->
     exists i j,
       0 <= i < N /\ 0 <= j < N /\
       log = [Mismatch i j (elt C N i j) (dot_ref A B N i j)] /\
       exceeds A B C N tol i j = true /\
       forall i' j', 0 <= i' -> 0 <= j' < N -> before i' j' i j ->
                     exceeds A B C N tol i' j' = false).
Proof.
  intros HN HA HB HC. unfold verify_reference.
  destruct (verify_rows_spec N A B C tol HA HB HC (Z.to_nat N) 0)
    as (r & Hrun & Hr); [lia..|].
  rewrite Z2Nat.id in Hrun, Hr by lia. rewrite Hrun. cbn [mbind option_bind].
  destruct r as [m|].
  - destruct Hr as (i & j & Hi & Hj & -> & Hex & Hfirst).
    exists false, [Mismatch i j (elt C N i j) (dot_ref A B N i j)].
    split; [reflexivity|]. split; [|split].
    + split; [discriminate|]. intros Hall.
      rewrite Hall in Hex by lia. discriminate.
    + discriminate.
    + intros _. exists i, j. repeat split; try lia; assumption.
  - exists true, []. split; [reflexivity|]. split; [|split].
    + split; [|reflexivity]. intros _ i j Hi Hj. apply Hr; lia.
    + reflexivity.
    + discriminate.
Qed.

(** X12.  With a tolerance at which the test |x - y| > tol fails exactly
    when x = y (tolerance 0 in exact arithmetic), verify_reference is an
    equality test: it returns true, reporting nothing, if and only if C
    is the row-major product of A and B as the triple loop computes
    it. *)
Theorem verify_reference_exact (N : Z) (A B C : list F) (tol : F) :
  0 <= N -> matrix_buffer N A -> matrix_buffer N B -> matrix_buffer N C ->
  (forall x y : F, fgt (fabs (fsub x y)) tol = false <-> x = y) ->
  (verify_reference A B C N tol = Some (true, []) <-> C = matmul_ref A B N).
Proof.
  intros HN HA HB HC Hexact. split.
  - intros Hrun.
    pose proof (verify_reference_true_inv N A B C tol HN HA HB HC Hrun) as Hall.
    destruct HC as [HC Hfit]. apply list_eq. intros n.
    rewrite matmul_ref_lookup by assumption. case_decide as Hn.
    + assert (0 < N) as HN1 by nia.
      pose proof (Z.div_mod (Z.of_nat n) N ltac:(lia)) as Hdm.
      pose proof (Z.mod_pos_bound (Z.of_nat n) N HN1) as Hm.
      assert (0 <= Z.of_nat n / N < N) as Hq.
      { split; [apply Z.div_pos; lia | apply Z.div_lt_upper_bound; lia]. }
      destruct (lookup_lt_is_Some_2 C n) as [c Hc]; [lia|].
      rewrite Hc. f_equal.
      specialize (Hall _ _ Hq Hm). unfold exceeds in Hall.
      apply Hexact in Hall. rewrite <- Hall. symmetry. apply elt_lookup.
      replace (Z.to_nat (Z.of_nat n / N * N + Z.of_nat n mod N)) with n by lia.
      exact Hc.
    + apply lookup_ge_None_2. lia.
  - intros ->. apply verify_reference_true; try assumption.
    intros i j Hi Hj. unfold exceeds. apply Hexact. apply elt_lookup.
    pose proof (index_in_matrix N i j Hi Hj) as Hidx.
    rewrite matmul_ref_lookup, decide_True by lia.
    rewrite Z2Nat.id by lia.
    replace ((i * N + j) / N) with i
      by (apply Z.div_unique with (r := j); lia).
    replace ((i * N + j) mod N) with j
      by (apply Z.mod_unique with (q := i); lia).
    reflexivity.
Qed.

End KernelVsReference.

(** ** Instances of the further properties *)

Lemma round_up_least_multiple_witness :
  (0 <= 10 /\ 1 <= 4 /\ 10 + 4 - 1 < SizeT.modulus) /\
  round_up 10 4 mod 4 = 0 /\
  10 <= round_up 10 4 < 10 + 4 /\
  forall m, m mod 4 = 0 -> 10 <= m -> round_up 10 4 <= m.
Proof.
  assert (0 <= 10) as H1 by lia.
  assert (1 <= 4) as H2 by lia.
  assert (10 + 4 - 1 < SizeT.modulus) as H3 by reflexivity.
  split; [tauto|].
  exact (round_up_least_multiple 10 4 H1 H2 H3).
Defined.

Lemma round_up_fixed_points_witness :
  (0 <= 10 /\ 1 <= 4 /\ 10 + 2 * 4 - 2 < SizeT.modulus) /\
  (round_up 10 4 = 10 <-> 10 mod 4 = 0) /\
  round_up (round_up 10 4) 4 = round_up 10 4.
Proof.
  assert (0 <= 10) as H1 by lia.
  assert (1 <= 4) as H2 by lia.
  assert (10 + 2 * 4 - 2 < SizeT.modulus) as H3 by reflexivity.
  split; [tauto|].
  exact (round_up_fixed_points 10 4 H1 H2 H3).
Defined.

Lemma tile_covering_matrix_witness :
  (1 <= 3 <= 16 /\ 3 + 16 - 1 < SizeT.modulus) /\
  phases_of 3 16 = 1 /\
  round_up 3 16 = 16 /\
  grid_groups (round_up 3 16) (round_up 3 16) 16 = [(0, 0)].
Proof.
  assert (1 <= 3 <= 16) as H1 by lia.
  assert (3 + 16 - 1 < SizeT.modulus) as H2 by reflexivity.
  split; [tauto|].
  exact (tile_covering_matrix 3 16 H1 H2).
Defined.

Lemma exact_fit_has_no_padding_witness :
  (1 <= 2 /\ 1 <= 2 /\ 4 = 2 * 2 /\ 4 + 2 - 1 < SizeT.modulus) /\
  round_up 4 2 = 4 /\
  phases_of 4 2 = 2 /\
  forall it, it ∈ grid_items (round_up 4 2) (round_up 4 2) 2 ->
    store_guard 4 2 it = true /\
    forall p, 0 <= p < phases_of 4 2 ->
      (gy 2 it <? 4) && (a_col 2 it p <? 4) = true /\
      (b_row 2 it p <? 4) && (gx 2 it <? 4) = true.
Proof.
  assert (1 <= 2) as H1 by lia.
  assert (4 = 2 * 2) as H2 by reflexivity.
  assert (4 + 2 - 1 < SizeT.modulus) as H3 by reflexivity.
  split; [tauto|].
  exact (exact_fit_has_no_padding 4 2 2 H1 H1 H2 H3).
Defined.

Lemma load_round_fills_tiles_witness :
  let order := reverse (group_items 2 (1, 0)) in
  let st := init_kstate (group_items 2 (1, 0)) (Mem A3 I3 nines3) in
  (matrix_buffer 3 A3 /\ matrix_buffer 3 I3 /\
   order ≡ₚ group_items 2 (1, 0) /\ 0 <= 1 < 2 /\
   memA (glob st) = A3 /\ memB (glob st) = I3) /\
  exists st',
    run_round 3 2 2 order (Z.to_nat (2 * 1)) st = Some st' /\
    accs st' = accs st /\ glob st' = glob st /\
    forall y x, 0 <= y < 2 -> 0 <= x < 2 ->
      tileA st' !! (y, x)
      = Some (pad A3 3 (gy 2 (Item 1 0 y x)) (a_col 2 (Item 1 0 y x) 1)) /\
      tileB st' !! (y, x)
      = Some (pad I3 3 (b_row 2 (Item 1 0 y x) 1) (gx 2 (Item 1 0 y x))).
Proof.
  intros order st.
  assert (matrix_buffer 3 A3) as H1 by (split; reflexivity).
  assert (matrix_buffer 3 I3) as H2 by (split; reflexivity).
  assert (order ≡ₚ group_items 2 (1, 0)) as H3 by apply reverse_Permutation.
  assert (0 <= 1 < 2) as H4 by lia.
  assert (memA (glob st) = A3) as H5 by reflexivity.
  assert (memB (glob st) = I3) as H6 by reflexivity.
  split; [tauto|].
  exact (load_round_fills_tiles 3 2 2 1 A3 I3 (1, 0) order st
           H1 H2 H3 H4 H5 H6).
Defined.

Lemma compute_round_accumulates_witness :
  let tA : gmap (Z * Z) Z :=
    list_to_map [((0, 0), 1); ((0, 1), 2); ((1, 0), 3); ((1, 1), 4)] in
  let tB : gmap (Z * Z) Z :=
    list_to_map [((0, 0), 5); ((0, 1), 6); ((1, 0), 7); ((1, 1), 8)] in
  let acs : gmap (Z * Z) Z :=
    list_to_map [((0, 0), 10); ((0, 1), 20); ((1, 0), 30); ((1, 1), 40)] in
  let fa := fun k => default 0 (tA !! k) in
  let fb := fun k => default 0 (tB !! k) in
  let st := KState tA tB acs (Mem A3 I3 nines3) in
  (reverse (group_items 2 (0, 0)) ≡ₚ group_items 2 (0, 0) /\ 0 <= 1 < 2 /\
   forall y x, 0 <= y < 2 -> 0 <= x < 2 ->
     tileA st !! (y, x) = Some (fa (y, x)) /\
     tileB st !! (y, x) = Some (fb (y, x)) /\
     is_Some (accs st !! (y, x))) /\
  exists st',
    run_round 3 2 2 (reverse (group_items 2 (0, 0))) (Z.to_nat (2 * 1 + 1)) st
    = Some st' /\
    tileA st' = tileA st /\ tileB st' = tileB st /\ glob st' = glob st /\
    forall y x acc, 0 <= y < 2 -> 0 <= x < 2 ->
      accs st !! (y, x) = Some acc ->
      accs st' !! (y, x)
      = Some (foldl (fun acc k => fadd acc (fmul (fa (y, k)) (fb (k, x))))
                    acc (seqZ 0 2)).
Proof.
  intros tA tB acs fa fb st.
  assert (reverse (group_items 2 (0, 0)) ≡ₚ group_items 2 (0, 0)) as H1
    by apply reverse_Permutation.
  assert (0 <= 1 < 2) as H2 by lia.
  assert (forall y x, 0 <= y < 2 -> 0 <= x < 2 ->
            tileA st !! (y, x) = Some (fa (y, x)) /\
            tileB st !! (y, x) = Some (fb (y, x)) /\
            is_Some (accs st !! (y, x))) as H3.
  { intros y x Hy Hx.
    assert (y = 0 \/ y = 1) as [-> | ->] by lia;
      (assert (x = 0 \/ x = 1) as [-> | ->] by lia);
      (split; [reflexivity | split; [reflexivity | eexists; reflexivity]]). }
  split; [tauto|].
  exact (compute_round_accumulates 3 2 2 1 fa fb (0, 0)
           (reverse (group_items 2 (0, 0))) st H1 H2 H3).
Defined.

(* The same round, run: a 2 x 2 tile product added to the accumulators
   10, 20, 30, 40. *)
Example compute_round_2x2 :
  (st' ← run_round 3 2 2 (reverse (group_items 2 (0, 0))) 3
          (KState (list_to_map [((0, 0), 1); ((0, 1), 2); ((1, 0), 3); ((1, 1), 4)])
                  (list_to_map [((0, 0), 5); ((0, 1), 6); ((1, 0), 7); ((1, 1), 8)])
                  (list_to_map [((0, 0), 10); ((0, 1), 20); ((1, 0), 30);
                                ((1, 1), 40)])
                  (Mem A3 I3 nines3));
   Some ((fun k => accs st' !! k) <$> [(0, 0); (0, 1); (1, 0); (1, 1)]))
  = Some [Some 29; Some 42; Some 73; Some 90].
Proof. vm_compute. reflexivity. Qed.

Lemma grid_item_counts_witness :
  (1 <= 3 /\ 1 <= 2 /\ 3 + 2 - 1 < SizeT.modulus /\ 3 * 3 < SizeT.modulus) /\
  NoDup (grid_items (round_up 3 2) (round_up 3 2) 2) /\
  length (grid_items (round_up 3 2) (round_up 3 2) 2)
  = Z.to_nat (round_up 3 2 * round_up 3 2) /\
  length (filter (fun it => store_guard 3 2 it = true)
                 (grid_items (round_up 3 2) (round_up 3 2) 2))
  = Z.to_nat (3 * 3).
Proof.
  assert (1 <= 3) as H1 by lia.
  assert (1 <= 2) as H2 by lia.
  assert (3 + 2 - 1 < SizeT.modulus) as H3 by reflexivity.
  assert (3 * 3 < SizeT.modulus) as H4 by reflexivity.
  split; [tauto|].
  exact (grid_item_counts 3 2 H1 H2 H3 H4).
Defined.

Lemma main_compute_result_witness :
  (1 <= 3 /\ 1 <= 2 /\ 3 + 2 - 1 < SizeT.modulus /\
   matrix_buffer 3 nines3 /\ matrix_buffer 3 A3 /\ matrix_buffer 3 I3 /\
   valid_schedule 3 2 (reversed 3 2)) /\
  (exists C',
     main_compute (reversed 3 2) 3 2 nines3 A3 I3
     = Some (Mem (gen_a 3) (gen_b 3) C') /\
     forall i j, 0 <= i < 3 -> 0 <= j < 3 ->
       @gen_a Z _ 3 !! Z.to_nat (i * 3 + j) = Some (init_a i j) /\
       @gen_b Z _ 3 !! Z.to_nat (i * 3 + j) = Some (init_b i j) /\
       C' !! Z.to_nat (i * 3 + j)
       = Some (dot_tiled (gen_a 3) (gen_b 3) 3 2 i j)) /\
  forall A1 B1 C1 : list Z,
    matrix_buffer 3 A1 -> matrix_buffer 3 B1 -> matrix_buffer 3 C1 ->
    main_compute (reversed 3 2) 3 2 A1 B1 C1
    = main_compute (reversed 3 2) 3 2 nines3 A3 I3.
Proof.
  assert (1 <= 3) as H1 by lia.
  assert (1 <= 2) as H2 by lia.
  assert (3 + 2 - 1 < SizeT.modulus) as H3 by reflexivity.
  assert (matrix_buffer 3 nines3) as H4 by (split; reflexivity).
  assert (matrix_buffer 3 A3) as H5 by (split; reflexivity).
  assert (matrix_buffer 3 I3) as H6 by (split; reflexivity).
  assert (valid_schedule 3 2 (reversed 3 2)) as H7 by apply reversed_valid.
  split; [tauto|].
  exact (main_compute_result (reversed 3 2) 3 2 nines3 A3 I3
           H1 H2 H3 H4 H5 H6 H7).
Defined.

(* main's computation for N = 3 and TILE = 2, run. *)
Example main_compute_3 :
  main_compute (row_major 3 2) 3 2 nines3 nines3 nines3
  = Some (Mem [0; 1; 2; 1; 2; 3; 2; 3; 4] [0; 0; 4; 1; 0; 0; 2; 1; 0]
              [5; 2; 0; 8; 3; 4; 11; 4; 8]).
Proof. vm_compute. reflexivity. Qed.

(* N = 2^63 + 2: N * N wraps to 4, so each buffer has room for 4 floats. *)
Lemma init_faults_when_count_wraps_witness :
  let N := 9223372036854775810 in
  (SizeT.in_range N /\ SizeT.modulus <= N * N /\
   (forall A0, Some zeros2 = Some A0 -> allocated N A0)) /\
  main_from_alloc (Schedule [] (fun _ _ => [])) N 16
    (Some zeros2) (Some zeros2) (Some zeros2)
  = None.
Proof.
  intros N.
  assert (SizeT.in_range N) as H1 by (split; [discriminate | reflexivity]).
  assert (SizeT.modulus <= N * N) as H2 by discriminate.
  assert (forall A0, Some zeros2 = Some A0 -> allocated N A0) as H3
    by (intros A0 [= <-]; reflexivity).
  split; [tauto|].
  exact (init_faults_when_count_wraps (Schedule [] (fun _ _ => [])) N 16
           (Some zeros2) (Some zeros2) (Some zeros2) H1 H2 H3).
Defined.

(* With the same N and a failed allocation main returns 1. *)
Example main_allocation_failed :
  main_from_alloc (Schedule [] (fun _ _ => [])) 9223372036854775810 16
    (Some zeros2) None (Some zeros2)
  = Some (1, None).
Proof. reflexivity. Qed.


Lemma verify_reference_exact_witness :
  (0 <= 2 /\ matrix_buffer 2 A2 /\ matrix_buffer 2 B2 /\ matrix_buffer 2 AB2 /\
   (forall x y : Z, fgt (fabs (fsub x y)) 0 = false <-> x = y)) /\
  (verify_reference A2 B2 AB2 2 0 = Some (true, []) <->
   AB2 = matmul_ref A2 B2 2).
Proof.
  assert (0 <= 2) as H1 by lia.
  assert (matrix_buffer 2 A2) as H2 by (split; reflexivity).
  assert (matrix_buffer 2 B2) as H3 by (split; reflexivity).
  assert (matrix_buffer 2 AB2) as H4 by (split; reflexivity).
  assert (forall x y : Z, fgt (fabs (fsub x y)) 0 = false <-> x = y) as H5.
  { intros x y. simpl. rewrite Z.gtb_ltb, Z.ltb_ge. lia. }
  split; [tauto|].
  exact (verify_reference_exact 2 A2 B2 AB2 0 H1 H2 H3 H4 H5).
Defined.

Lemma grid_derivation_witness :
  (1 <= 10 /\ 10 * 10 < SizeT.modulus /\ local_range 4) /\
  round_up 10 4 = ceil_div 10 4 * 4 /\
  phases_of 10 4 = ceil_div 10 4 /\
  (ceil_div 10 4 - 1) * 4 < 10 <= ceil_div 10 4 * 4 /\
  round_up 10 4 mod 4 = 0 /\
  round_up 10 4 / 4 = phases_of 10 4 /\
  forall g, length (group_items 4 g) = Z.to_nat (4 * 4).
Proof.
  assert (1 <= 10) as H1 by lia.
  assert (10 * 10 < SizeT.modulus) as H2 by reflexivity.
  assert (local_range 4) as H3 by (split; [lia | reflexivity]).
  split; [tauto|].
  exact (grid_derivation 10 4 H1 H2 H3).
Defined.

Lemma verify_reference_reports_witness :
  (0 <= 2 /\ matrix_buffer 2 A2 /\ matrix_buffer 2 B2 /\
   matrix_buffer 2 [19; 0; 43; 0]) /\
  exists b log,
    verify_reference A2 B2 [19; 0; 43; 0] 2 0 = Some (b, log) /\
    (b = true <->
     forall i j, 0 <= i < 2 -> 0 <= j < 2 ->
       exceeds A2 B2 [19; 0; 43; 0] 2 0 i j = false) /\
    (b = true -> log = []) /\
    (b = false ->
     exists i j,
       0 <= i < 2 /\ 0 <= j < 2 /\
       log = [Mismatch i j (elt [19; 0; 43; 0] 2 i j) (dot_ref A2 B2 2 i j)] /\
       exceeds A2 B2 [19; 0; 43; 0] 2 0 i j = true /\
       forall i' j', 0 <= i' -> 0 <= j' < 2 -> before i' j' i j ->
                     exceeds A2 B2 [19; 0; 43; 0] 2 0 i' j' = false).
Proof.
  assert (0 <= 2) as H1 by lia.
  assert (matrix_buffer 2 A2) as H2 by (split; reflexivity).
  assert (matrix_buffer 2 B2) as H3 by (split; reflexivity).
  assert (matrix_buffer 2 [19; 0; 43; 0]) as H4 by (split; reflexivity).
  split; [tauto|].
  exact (verify_reference_reports 2 A2 B2 [19; 0; 43; 0] 0 H1 H2 H3 H4).
Defined.
